(** * RISC-V CPU feature discovery: arch/riscv/kernel/cpufeature.c

    A shallow embedding of the "riscv,isa" string parser, of the per-hart
    aggregation performed by [riscv_fill_hwcap] and of the extension query
    [__riscv_isa_extension_available], together with the properties the
    design document states about them.

    Conventions.  A C string is the list of its character codes ([Z], each
    an unsigned char); the terminating NUL is implicit: reading at the
    length of the list (or anywhere outside it) yields [0].  A [char *]
    into the string is an offset of type [Z], so that [--p] and [p[-1]] are
    written as in the source.  [unsigned int] and [unsigned long] values are
    [Z]; the only arithmetic that could wrap is guarded in the source by an
    explicit overflow test, which is kept. *)

From Stdlib Require Import ZArith List Bool Lia String Ascii Permutation Sorted.
Import ListNotations.
Local Open Scope Z_scope.

(* ------------------------------------------------------------------ *)
(** ** Characters and strings *)

Definition chr (a : ascii) : Z := Z.of_N (N_of_ascii a).

Definition chars (s : string) : list Z := map chr (list_ascii_of_string s).

(** [*(s + p)]: the character at offset [p]; NUL at and after the end. *)
Definition peek (s : list Z) (p : Z) : Z :=
  if p <? 0 then 0 else nth (Z.to_nat p) s 0.

(** The characters from offset [p] on. *)
Definition suffix (s : list Z) (p : Z) : list Z :=
  if p <? 0 then [] else skipn (Z.to_nat p) s.

(** The characters before offset [p], nearest first. *)
Definition before (s : list Z) (p : Z) : list Z :=
  if p <? 0 then [] else rev (firstn (Z.to_nat p) s).

(** Modelled from the spec: [isdigit] and [islower] come from linux/ctype.h,
    which is not part of this file; the design document speaks of digits and
    of lowercase letters, the latter occupying the indices 0..25 ('a'..'z'). *)
Definition isdigit (c : Z) : bool := (chr "0" <=? c) && (c <=? chr "9").
Definition islower (c : Z) : bool := (chr "a" <=? c) && (c <=? chr "z").

Definition UINT_MAX : Z := 4294967295.

(** [#define NUM_ALPHA_EXTS ('z' - 'a' + 1)] *)
Definition NUM_ALPHA_EXTS : Z := chr "z" - chr "a" + 1.

(* ------------------------------------------------------------------ *)
(** ** _decimal_part_to_uint *)

Inductive errno := EINVAL | ERANGE.

(** The do-while loop of [_decimal_part_to_uint], entered with [*s] the head
    of [l] and the accumulated [value]:
<<
      do {
          d = *s - '0';
          if (value > (UINT_MAX - d) / 10) return -ERANGE;
          value = value * 10 + d;
      } while (isdigit( *++s));
>> *)
Fixpoint decimal_loop (l : list Z) (value : Z) : errno + Z :=
  match l with
  | [] => inr value
  | c :: l' =>
      let d := c - chr "0" in
      if value >? (UINT_MAX - d) / 10 then inl ERANGE
      else
        let value := value * 10 + d in
        if isdigit (hd 0 l') then decimal_loop l' value else inr value
  end.

(** [_decimal_part_to_uint(s + p, &res)]: [inl e] is the return value [-e]
    (and [*res] is left untouched), [inr v] is return value 0 with
    [*res = v]. *)
Definition _decimal_part_to_uint (s : list Z) (p : Z) : errno + Z :=
  if negb (isdigit (peek s p)) then inl EINVAL
  else decimal_loop (suffix s p) 0.

(* ------------------------------------------------------------------ *)
(** ** Inner scanning loops of the token parser *)

(** Length of the maximal run of digits at the head of [l]. *)
Fixpoint digit_run (l : list Z) : Z :=
  match l with
  | c :: l' => if isdigit c then 1 + digit_run l' else 0
  | [] => 0
  end.

(** [while (isdigit( *++p)) ;] : the offset at which the loop leaves [p]. *)
Definition skip_digits_fwd (s : list Z) (p : Z) : Z :=
  p + 1 + digit_run (suffix s (p + 1)).

(** [while (isdigit( *--p)) ;] : the offset at which the loop leaves [p]. *)
Definition skip_digits_back (s : list Z) (p : Z) : Z :=
  p - 1 - digit_run (before s p).

(** The loop over the body of a multi-letter extension name,
<<
      for (; *isa && *isa != '_'; ++isa)
          if (unlikely(!islower( *isa) && !isdigit( *isa)))
              ext_err = true;
>>
    run on the characters from [isa] on: the number of characters passed
    and whether [ext_err] was raised. *)
Fixpoint long_run (l : list Z) : Z * bool :=
  match l with
  | [] => (0, false)
  | c :: l' =>
      if (c =? 0) || (c =? chr "_") then (0, false)
      else
        let '(n, e) := long_run l' in
        (1 + n, (negb (islower c) && negb (isdigit c)) || e)
  end.

(* ------------------------------------------------------------------ *)
(** ** One extension token *)

(** The locals of one iteration of the scanning loop, as they stand when
    the [switch] has been left. *)
Record token := mkToken {
  t_ext : Z;             (* const char *ext *)
  t_isa : Z;             (* isa, where the switch left it *)
  t_ext_end : Z;         (* const char *ext_end *)
  ext_major : Z;
  ext_minor : Z;
  ext_long : bool;
  ext_err : bool;
  ext_err_ver : bool
}.

Definition is_err {A} (r : errno + A) : bool :=
  match r with inl _ => true | inr _ => false end.

(** [*res] after a call that found [old] there. *)
Definition stored (r : errno + Z) (old : Z) : Z :=
  match r with inl _ => old | inr v => v end.

(** [case 's': case 'x': case 'z':] with [isa = ext + 1] on entry. *)
Definition parse_long (s : list Z) (ext : Z) : token :=
  let isa := ext + 1 in
  let '(n, err) := long_run (suffix s isa) in
  let isa := isa + n in
  let ext_end := isa in
  let tok := mkToken ext isa in
  if err then tok ext_end UINT_MAX 0 true true false
  else if negb (isdigit (peek s (ext_end - 1))) then
    tok ext_end UINT_MAX 0 true false false
  else
    let ext_end := skip_digits_back s ext_end in
    let ext_vpair :=
      (peek s ext_end =? chr "p") && isdigit (peek s (ext_end - 1)) in
    let r1 := _decimal_part_to_uint s (ext_end + 1) in
    let major := stored r1 UINT_MAX in
    let err_ver := is_err r1 in
    if negb ext_vpair then
      tok (ext_end + 1) major 0 true false err_ver
    else
      let minor := major in
      let ext_end := skip_digits_back s ext_end in
      let ext_end := ext_end + 1 in
      let r2 := _decimal_part_to_uint s ext_end in
      let major := stored r2 major in
      let err_ver := err_ver || (is_err r2 || (major =? UINT_MAX)) in
      tok ext_end major minor true false err_ver.

(** [default:] with [isa = ext + 1] on entry; [ext_end] keeps its initial
    value [ext + 1]. *)
Definition parse_short (s : list Z) (ext : Z) : token :=
  let isa := ext + 1 in
  let ext_end := isa in
  let tok := fun isa => mkToken ext isa ext_end in
  if negb (islower (peek s ext)) then tok isa UINT_MAX 0 false true false
  else if negb (isdigit (peek s isa)) then tok isa UINT_MAX 0 false false false
  else
    let major := stored (_decimal_part_to_uint s isa) UINT_MAX in
    let err_ver := major =? UINT_MAX in
    let isa := skip_digits_fwd s isa in
    if negb (peek s isa =? chr "p") then tok isa major 0 false false err_ver
    else
      let isa := isa + 1 in
      if negb (isdigit (peek s isa)) then
        tok (isa - 1) major 0 false false err_ver
      else
        let r := _decimal_part_to_uint s isa in
        let minor := stored r 0 in
        let err_ver := err_ver || is_err r in
        let isa := skip_digits_fwd s isa in
        tok isa major minor false false err_ver.

(** The three case labels [case 's': case 'x': case 'z':]. *)
Definition long_prefix (c : Z) : bool :=
  (c =? chr "s") || (c =? chr "x") || (c =? chr "z").

(** The [switch ( *ext)] of the loop body. *)
Definition parse_switch (s : list Z) (ext : Z) : token :=
  if long_prefix (peek s ext) then parse_long s ext else parse_short s ext.

(** The cursor at the end of the loop body: [if ( *isa != '_') --isa;]. *)
Definition body_end (s : list Z) (t : token) : Z :=
  if peek s (t_isa t) =? chr "_" then t_isa t else t_isa t - 1.

(** The cursor when the next iteration is entered: the [++isa] of the
    [for]. *)
Definition next_isa (s : list Z) (t : token) : Z := body_end s t + 1.

(* ------------------------------------------------------------------ *)
(** ** Capability bits and diagnostics *)

(** Modelled from the spec: the COMPAT_HWCAP_ISA_* constants come from
    uapi/asm/hwcap.h, which is not part of this file; the design document
    has the six legacy letters map to disjoint bits of the capability mask,
    each at its letter position (the mask is rendered by its letter
    positions). *)
Definition COMPAT_HWCAP_ISA_I : Z := Z.shiftl 1 (chr "I" - chr "A").
Definition COMPAT_HWCAP_ISA_M : Z := Z.shiftl 1 (chr "M" - chr "A").
Definition COMPAT_HWCAP_ISA_A : Z := Z.shiftl 1 (chr "A" - chr "A").
Definition COMPAT_HWCAP_ISA_F : Z := Z.shiftl 1 (chr "F" - chr "A").
Definition COMPAT_HWCAP_ISA_D : Z := Z.shiftl 1 (chr "D" - chr "A").
Definition COMPAT_HWCAP_ISA_C : Z := Z.shiftl 1 (chr "C" - chr "A").

(** [static unsigned long isa2hwcap[256]], zero but for the twelve entries
    assigned at the head of [riscv_fill_hwcap]. *)
Definition isa2hwcap (c : Z) : Z :=
  if (c =? chr "i") || (c =? chr "I") then COMPAT_HWCAP_ISA_I
  else if (c =? chr "m") || (c =? chr "M") then COMPAT_HWCAP_ISA_M
  else if (c =? chr "a") || (c =? chr "A") then COMPAT_HWCAP_ISA_A
  else if (c =? chr "f") || (c =? chr "F") then COMPAT_HWCAP_ISA_F
  else if (c =? chr "d") || (c =? chr "D") then COMPAT_HWCAP_ISA_D
  else if (c =? chr "c") || (c =? chr "C") then COMPAT_HWCAP_ISA_C
  else 0.

(** The lines written by [pr_info] and [pr_warn], in the order written. *)
Inductive diag :=
| FeatureH                       (* [FEATURE_TEST] H extension is supported. *)
| FeatureZba                     (* [FEATURE_TEST] Zba extension ... *)
| FeatureZihintpause             (* [FEATURE_TEST] ZiHintPause extension ... *)
| FeatureZksed                   (* [FEATURE_TEST] Zksed extension ... *)
| WarnNoIsa                      (* Unable to find "riscv,isa" devicetree entry *)
| InfoFWithoutD                  (* This kernel does not support systems with F but not D *)
| InfoIsaExtensions (letters : list Z)   (* riscv: ISA extensions %s *)
| InfoElfCapabilities (letters : list Z) (* riscv: ELF capabilities %s *).

Definition diag_eqb (a b : diag) : bool :=
  match a, b with
  | FeatureH, FeatureH | FeatureZba, FeatureZba
  | FeatureZihintpause, FeatureZihintpause | FeatureZksed, FeatureZksed
  | WarnNoIsa, WarnNoIsa | InfoFWithoutD, InfoFWithoutD => true
  | InfoIsaExtensions x, InfoIsaExtensions y
  | InfoElfCapabilities x, InfoElfCapabilities y =>
      if list_eq_dec Z.eq_dec x y then true else false
  | _, _ => false
  end.

(** [!memcmp(s + p, name, sizeof(name) - 1)] *)
Fixpoint memcmp_eq (s : list Z) (p : Z) (name : list Z) : bool :=
  match name with
  | [] => true
  | c :: name' => (peek s p =? c) && memcmp_eq s (p + 1) name'
  end.

(** [MATCH_EXT(name)] *)
Definition MATCH_EXT (s : list Z) (t : token) (name : string) : bool :=
  (t_ext_end t - t_ext t =? Z.of_nat (List.length (chars name)))
  && memcmp_eq s (t_ext t) (chars name).

(** The watch-list, in the order of the four [if (MATCH_EXT(...))]. *)
Definition watch_list : list (string * diag) :=
  [ ("h"%string, FeatureH); ("zba"%string, FeatureZba);
    ("zihintpause"%string, FeatureZihintpause); ("zksed"%string, FeatureZksed) ].

Definition token_diags (s : list Z) (t : token) : list diag :=
  flat_map (fun w => if MATCH_EXT s t (fst w) then [snd w] else []) watch_list.

(* ------------------------------------------------------------------ *)
(** ** The scan of one hart's string *)

(** [this_hwcap] and [this_isa] of the hart at hand, and the lines logged
    so far. *)
Record unit_state := mkUnit {
  this_hwcap : Z;
  this_isa : Z;
  unit_log : list diag
}.

Definition unit_init : unit_state := mkUnit 0 0 [].

(** The part of the loop body after the [switch]. *)
Definition apply_token (s : list Z) (t : token) (u : unit_state) : unit_state :=
  if ext_err t then u
  else
    let c := peek s (t_ext t) in
    mkUnit (Z.lor (this_hwcap u) (isa2hwcap c))
           (if ext_long t then this_isa u
            else Z.lor (this_isa u) (Z.shiftl 1 (c - chr "a")))
           (unit_log u ++ token_diags s t).

(** [for (; *isa; ++isa) { ... }].  [fuel] bounds the number of iterations;
    [None] means the bound was reached with the loop still running. *)
Fixpoint scan_loop (fuel : nat) (s : list Z) (isa : Z) (u : unit_state)
  : option unit_state :=
  if peek s isa =? 0 then Some u
  else
    match fuel with
    | O => None
    | S fuel' =>
        let t := parse_switch s isa in
        scan_loop fuel' s (next_isa s t) (apply_token s t u)
    end.

(** The tokens the loop goes through, in order (same recursion as
    [scan_loop]). *)
Fixpoint scan_tokens (fuel : nat) (s : list Z) (isa : Z) : list token :=
  if peek s isa =? 0 then []
  else
    match fuel with
    | O => []
    | S fuel' =>
        let t := parse_switch s isa in
        t :: scan_tokens fuel' s (next_isa s t)
    end.

(** Kernel configuration: exactly one of the two word widths is enabled. *)
Inductive word_config := CONFIG_32BIT | CONFIG_64BIT.

Definition width_prefix (cfg : word_config) : string :=
  match cfg with CONFIG_32BIT => "rv32" | CONFIG_64BIT => "rv64" end.

(** [if (!strncmp(isa, "rv64", 4)) isa += 4;] (resp. "rv32"): the offset at
    which the scan starts. *)
Definition skip_width (cfg : word_config) (s : list Z) : Z :=
  if memcmp_eq s 0 (chars (width_prefix cfg)) then 4 else 0.

(** The whole per-hart part, from the string read from the device tree to
    [this_hwcap], [this_isa] and the lines logged. *)
Definition parse_chars (cfg : word_config) (s : list Z) : option unit_state :=
  scan_loop (List.length s) s (skip_width cfg s) unit_init.

Definition parse_isa (cfg : word_config) (isa : string) : option unit_state :=
  parse_chars cfg (chars isa).

Definition isa_tokens (cfg : word_config) (isa : string) : list token :=
  let s := chars isa in
  scan_tokens (List.length s) s (skip_width cfg s).

(* ------------------------------------------------------------------ *)
(** ** Aggregation over the harts *)

(** What the loop needs of a cpu node of the device tree: the result of
    [riscv_of_processor_hartid] (negative for a node that is not a usable
    hart) and the "riscv,isa" property, if the node has one. *)
Record cpu_node := mkNode {
  hartid : Z;
  riscv_isa_prop : option string
}.

(** The globals written by [riscv_fill_hwcap].  [riscv_isa] is the host ISA
    bitmap seen as one bit set: after [bitmap_zero] only its word 0 is ever
    written, with values below [2 ^ NUM_ALPHA_EXTS]. *)
Record hw_state := mkHw {
  elf_hwcap : Z;
  riscv_isa : Z;
  cpu_hwcap_fpu : bool;
  hw_log : list diag
}.

(** The fold step at the end of the per-node body. *)
Definition fold_word (acc this : Z) : Z :=
  if acc =? 0 then this else Z.land acc this.

(** One iteration of [for_each_of_cpu_node]. *)
Definition node_step (cfg : word_config) (h : hw_state) (n : cpu_node)
  : option hw_state :=
  if hartid n <? 0 then Some h
  else
    match riscv_isa_prop n with
    | None => Some (mkHw (elf_hwcap h) (riscv_isa h) (cpu_hwcap_fpu h)
                         (hw_log h ++ [WarnNoIsa]))
    | Some isa =>
        match parse_isa cfg isa with
        | None => None
        | Some u =>
            Some (mkHw (fold_word (elf_hwcap h) (this_hwcap u))
                       (fold_word (riscv_isa h) (this_isa u))
                       (cpu_hwcap_fpu h)
                       (hw_log h ++ unit_log u))
        end
    end.

Fixpoint nodes_loop (cfg : word_config) (h : hw_state) (nodes : list cpu_node)
  : option hw_state :=
  match nodes with
  | [] => Some h
  | n :: rest =>
      match node_step cfg h n with
      | None => None
      | Some h' => nodes_loop cfg h' rest
      end
  end.

(** [BIT_MASK(nr)] for the bit numbers below the word size. *)
Definition BIT_MASK (nr : Z) : Z := Z.shiftl 1 nr.

(** [print_str[j] = c] *)
Fixpoint store (buf : list Z) (j : nat) (c : Z) : list Z :=
  match buf, j with
  | [], _ => []
  | _ :: r, O => c :: r
  | b :: r, S j' => b :: store r j' c
  end.

(** [n] iterations, from [i] on, of
<<
      for (i = 0, j = 0; i < NUM_ALPHA_EXTS; i++)
          if (word & BIT_MASK(i))
              print_str[j++] = (char)('a' + i);
>> *)
Fixpoint print_loop (n : nat) (word : Z) (i : Z) (j : nat) (print_str : list Z)
  : list Z :=
  match n with
  | O => print_str
  | S n' =>
      if negb (Z.land word (BIT_MASK i) =? 0)
      then print_loop n' word (i + 1) (S j) (store print_str j (chr "a" + i))
      else print_loop n' word (i + 1) j print_str
  end.

(** The C string held by a buffer: the characters before the first NUL. *)
Fixpoint c_string (buf : list Z) : list Z :=
  match buf with
  | [] => []
  | c :: r => if c =? 0 then [] else c :: c_string r
  end.

(** The presenter: [memset(print_str, 0, sizeof(print_str))], the loop, and
    the string handed to [pr_info]. *)
Definition present (word : Z) : list Z :=
  c_string (print_loop (Z.to_nat NUM_ALPHA_EXTS) word 0 0
                       (repeat 0 (Z.to_nat (NUM_ALPHA_EXTS + 1)))).

(** The part of [riscv_fill_hwcap] after the loop over the nodes (with
    CONFIG_FPU enabled). *)
Definition finish (h : hw_state) : hw_state :=
  let f_without_d :=
    negb (Z.land (elf_hwcap h) COMPAT_HWCAP_ISA_F =? 0)
    && (Z.land (elf_hwcap h) COMPAT_HWCAP_ISA_D =? 0) in
  let hwcap :=
    if f_without_d then Z.land (elf_hwcap h) (Z.lnot COMPAT_HWCAP_ISA_F)
    else elf_hwcap h in
  let log := hw_log h ++ (if f_without_d then [InfoFWithoutD] else []) in
  let log := log ++ [InfoIsaExtensions (present (riscv_isa h))] in
  let log := log ++ [InfoElfCapabilities (present hwcap)] in
  let fpu :=
    if negb (Z.land hwcap (Z.lor COMPAT_HWCAP_ISA_F COMPAT_HWCAP_ISA_D) =? 0)
    then true else cpu_hwcap_fpu h in
  mkHw hwcap (riscv_isa h) fpu log.

(** [elf_hwcap = 0; bitmap_zero(riscv_isa, RISCV_ISA_EXT_MAX);] and the
    static key in its initial (false) state. *)
Definition hw_init : hw_state := mkHw 0 0 false [].

Definition riscv_fill_hwcap (cfg : word_config) (nodes : list cpu_node)
  : option hw_state :=
  match nodes_loop cfg hw_init nodes with
  | None => None
  | Some h => Some (finish h)
  end.

(* ------------------------------------------------------------------ *)
(** ** Queries *)

Section Query.
(** The capacity of an ISA bitmap, from asm/hwcap.h, and [test_bit], from
    linux/bitops.h; neither is part of this file. *)
Variable RISCV_ISA_EXT_MAX : Z.
Variable test_bit : Z -> Z -> bool.
(** The host ISA bitmap, the global [riscv_isa]. *)
Variable host : Z.

(** [isa_bitmap] is [None] for a NULL pointer. *)
Definition __riscv_isa_extension_available (isa_bitmap : option Z) (bit : Z)
  : bool :=
  let bmap := match isa_bitmap with Some b => b | None => host end in
  if bit >=? RISCV_ISA_EXT_MAX then false
  else if test_bit bit bmap then true else false.

(** [riscv_isa_extension_base]: word 0 of the bitmap, [bits_per_long] wide. *)
Definition riscv_isa_extension_base (bits_per_long : Z) (isa_bitmap : option Z)
  : Z :=
  match isa_bitmap with
  | None => Z.land host (Z.ones bits_per_long)
  | Some b => Z.land b (Z.ones bits_per_long)
  end.
End Query.

(* ------------------------------------------------------------------ *)
(** ** Vocabulary of the properties *)

(** The per-hart results that reach the fold: those of the nodes that are
    usable harts and carry a "riscv,isa" string. *)
Definition unit_results (cfg : word_config) (nodes : list cpu_node)
  : list unit_state :=
  flat_map (fun n =>
    if hartid n <? 0 then []
    else match riscv_isa_prop n with
         | None => []
         | Some isa =>
             match parse_isa cfg isa with Some u => [u] | None => [] end
         end) nodes.

(** The running value of [elf_hwcap] (resp. [riscv_isa[0]]) when the
    per-hart words [ws] have been folded in, starting from zero. *)
Definition aggregate (ws : list Z) : Z := fold_left fold_word ws 0.

(** Bitwise intersection of a family of words ([-1] has every bit set). *)
Definition inter_list (ws : list Z) : Z := fold_right Z.land (-1) ws.

(** The bit of a lowercase letter in an ISA bitmap. *)
Definition letter_bit (a : ascii) : Z := Z.shiftl 1 (chr a - chr "a").

(** Bit numbers of the two floating-point capabilities. *)
Definition F_BIT : Z := chr "F" - chr "A".
Definition D_BIT : Z := chr "D" - chr "A".

(** The mask [m] carries the capability bit [cap]. *)
Definition has_cap (m cap : Z) : bool := negb (Z.land m cap =? 0).

(** The letters 'a' + k for the [n] positions k from [i] on whose bit is
    set, in ascending order. *)
Definition letters_from (word : Z) (i n : nat) : list Z :=
  map (fun i => chr "a" + Z.of_nat i)
      (filter (fun i => Z.testbit word (Z.of_nat i)) (seq i n)).

(** The letters of the 26 letter positions whose bit is set. *)
Definition letters_of (word : Z) : list Z :=
  letters_from word 0 (Z.to_nat NUM_ALPHA_EXTS).

(** The part of the loop body after the [switch], for the tokens [ts] in
    turn. *)
Definition apply_tokens (s : list Z) (ts : list token) (u : unit_state)
  : unit_state :=
  fold_left (fun u t => apply_token s t u) ts u.

(** The name of a token, [ext .. ext_end). *)
Definition token_name (s : list Z) (t : token) : list Z :=
  firstn (Z.to_nat (t_ext_end t - t_ext t)) (suffix s (t_ext t)).

(** The token's name is [name]. *)
Definition name_is (s : list Z) (t : token) (name : string) : bool :=
  if list_eq_dec Z.eq_dec (token_name s t) (chars name) then true else false.

(** The six legacy base letters, in either case. *)
Definition legacy_lower : list Z := chars "imafdc".
Definition legacy_upper : list Z := chars "IMAFDC".

(** A single-letter token as it is written: its letter and, optionally, a
    major version, itself optionally followed by 'p' and a minor version. *)
Record short_token := mkShort {
  st_letter : Z;
  st_version : option (list Z * option (list Z))
}.

Definition render (t : short_token) : list Z :=
  st_letter t ::
  match st_version t with
  | None => []
  | Some (major, None) => major
  | Some (major, Some minor) => major ++ chr "p" :: minor
  end.

(** A non-empty string of digits. *)
Definition numeral (l : list Z) : Prop :=
  l <> [] /\ Forall (fun c => isdigit c = true) l.

Definition short_token_wf (t : short_token) : Prop :=
  islower (st_letter t) = true /\ long_prefix (st_letter t) = false /\
  match st_version t with
  | None => True
  | Some (major, None) => numeral major
  | Some (major, Some minor) => numeral major /\ numeral minor
  end.

(** The tokens written one after the other, and written with a '_' between
    any two of them. *)
Fixpoint undelimited (ts : list short_token) : list Z :=
  match ts with
  | [] => []
  | t :: ts' => render t ++ undelimited ts'
  end.

Fixpoint delimited (ts : list short_token) : list Z :=
  match ts with
  | [] => []
  | t :: ts' =>
      render t ++ match ts' with [] => [] | _ => chr "_" :: delimited ts' end
  end.

(** A token with a major version and no minor version. *)
Definition major_only (t : short_token) : bool :=
  match st_version t with Some (_, None) => true | _ => false end.

(** A token "p" with a version. *)
Definition versioned_p (t : short_token) : bool :=
  (st_letter t =? chr "p")
  && match st_version t with Some _ => true | None => false end.

(** No token with a major version only is directly followed by a
    versioned "p". *)
Fixpoint unambiguous (ts : list short_token) : bool :=
  match ts with
  | [] => true
  | t :: ts' =>
      match ts' with
      | [] => true
      | t' :: _ => negb (major_only t && versioned_p t')
      end && unambiguous ts'
  end.

(** What a well-formed single-letter token on the letter [c] does to the
    hart's state. *)
Definition short_effect (c : Z) (u : unit_state) : unit_state :=
  mkUnit (Z.lor (this_hwcap u) (isa2hwcap c))
         (Z.lor (this_isa u) (Z.shiftl 1 (c - chr "a")))
         (unit_log u ++ if c =? chr "h" then [FeatureH] else []).

Definition short_effects (ts : list short_token) (u : unit_state)
  : unit_state :=
  fold_left (fun u t => short_effect (st_letter t) u) ts u.

(** Number of lines [d] in a log. *)
Definition count_diag (d : diag) (log : list diag) : nat :=
  List.length (filter (diag_eqb d) log).

(* ------------------------------------------------------------------ *)
(** ** Vocabulary of the further properties *)

(** The number a string of digits denotes. *)
Definition decimal_value (ds : list Z) : Z :=
  fold_left (fun v c => v * 10 + (c - chr "0")) ds 0.

(** What [_decimal_part_to_uint] makes of the numeral [ds]. *)
Definition numeral_result (ds : list Z) : errno + Z :=
  if decimal_value ds <=? UINT_MAX then inr (decimal_value ds)
  else inl ERANGE.

(** A version as it is written after a name: nothing, a major version, or
    a major version, 'p' and a minor version. *)
Definition version_text (v : option (list Z * option (list Z))) : list Z :=
  match v with
  | None => []
  | Some (major, None) => major
  | Some (major, Some minor) => major ++ chr "p" :: minor
  end.

Definition version_wf (v : option (list Z * option (list Z))) : Prop :=
  match v with
  | None => True
  | Some (major, None) => numeral major
  | Some (major, Some minor) => numeral major /\ numeral minor
  end.

(** The numbers of a version are all below [UINT_MAX]. *)
Definition version_in_range (v : option (list Z * option (list Z))) : Prop :=
  match v with
  | None => True
  | Some (major, None) => decimal_value major < UINT_MAX
  | Some (major, Some minor) =>
      decimal_value major < UINT_MAX /\ decimal_value minor < UINT_MAX
  end.

(** The version a version text stands for, when its numbers are in range:
    the major version (default [UINT_MAX]) and the minor version (default
    0). *)
Definition version_value (v : option (list Z * option (list Z))) : Z * Z :=
  match v with
  | None => (UINT_MAX, 0)
  | Some (major, None) => (decimal_value major, 0)
  | Some (major, Some minor) => (decimal_value major, decimal_value minor)
  end.

(** [ext_major], [ext_minor] and [ext_err_ver] as the [default:] case
    leaves them for a single-letter token with the version [v]. *)
Definition short_version (v : option (list Z * option (list Z)))
  : Z * Z * bool :=
  match v with
  | None => (UINT_MAX, 0, false)
  | Some (major, None) =>
      let ext_major := stored (numeral_result major) UINT_MAX in
      (ext_major, 0, ext_major =? UINT_MAX)
  | Some (major, Some minor) =>
      let ext_major := stored (numeral_result major) UINT_MAX in
      let r := numeral_result minor in
      (ext_major, stored r 0, (ext_major =? UINT_MAX) || is_err r)
  end.

(** The same for a multi-letter token: the minor version is read first,
    into [ext_major], and moved to [ext_minor] before the major version is
    read. *)
Definition long_version (v : option (list Z * option (list Z)))
  : Z * Z * bool :=
  match v with
  | None => (UINT_MAX, 0, false)
  | Some (major, None) =>
      let r := numeral_result major in (stored r UINT_MAX, 0, is_err r)
  | Some (major, Some minor) =>
      let r1 := numeral_result minor in
      let ext_minor := stored r1 UINT_MAX in
      let r2 := numeral_result major in
      let ext_major := stored r2 ext_minor in
      (ext_major, ext_minor, is_err r1 || (is_err r2 || (ext_major =? UINT_MAX)))
  end.

(** The name of a multi-letter extension: one of s, x, z, then lowercase
    letters and digits, the last character not being a digit. *)
Definition long_name (name : list Z) : Prop :=
  long_prefix (hd 0 name) = true /\
  Forall (fun c => islower c || isdigit c = true) name /\
  isdigit (last name 0) = false.

(** A token whose three cursors are moved [n] characters to the right. *)
Definition shift_token (n : Z) (t : token) : token :=
  mkToken (n + t_ext t) (n + t_isa t) (n + t_ext_end t)
          (ext_major t) (ext_minor t) (ext_long t) (ext_err t) (ext_err_ver t).

(** A letter that makes a single-letter token: lowercase, and not one of
    the three that open a multi-letter name. *)
Definition short_letter (c : Z) : bool := islower c && negb (long_prefix c).

(** The six bits of the capability mask. *)
Definition legacy_mask : Z :=
  Z.lor COMPAT_HWCAP_ISA_I (Z.lor COMPAT_HWCAP_ISA_M (Z.lor COMPAT_HWCAP_ISA_A
    (Z.lor COMPAT_HWCAP_ISA_F (Z.lor COMPAT_HWCAP_ISA_D COMPAT_HWCAP_ISA_C)))).

(** The lines one cpu node adds to the log while the nodes are gone
    through. *)
Definition node_log (cfg : word_config) (n : cpu_node) : list diag :=
  if hartid n <? 0 then []
  else match riscv_isa_prop n with
       | None => [WarnNoIsa]
       | Some isa =>
           match parse_isa cfg isa with Some u => unit_log u | None => [] end
       end.

(** A node whose string is folded into the two words. *)
Definition contributes (n : cpu_node) : bool :=
  negb (hartid n <? 0)
  && match riscv_isa_prop n with Some _ => true | None => false end.

(** The single-letter tokens, without versions, of a string of letters. *)
Definition letter_tokens (letters : list Z) : list short_token :=
  map (fun c => mkShort c None) letters.

(** The scan of a whole string from its first character (what the loop
    does once the width prefix is out of the way). *)
Definition scan_all (s : list Z) (u : unit_state) : option unit_state :=
  scan_loop (List.length s) s 0 u.

(* ================================================================== *)
(** * Properties *)

(** Closed goals about concrete strings: split the conjunctions and
    evaluate each part. *)
Ltac evaluate :=
  repeat match goal with |- _ /\ _ => split end; vm_compute; reflexivity.

(** ** Reading the string *)

Lemma peek_nonzero_range s p : peek s p <> 0 -> 0 <= p < Z.of_nat (List.length s).
Proof.
  unfold peek. destruct (p <? 0) eqn:E; [congruence|].
  apply Z.ltb_ge in E. intros H. split; [assumption|].
  destruct (Z_lt_ge_dec p (Z.of_nat (List.length s))) as [|G]; [assumption|].
  exfalso. apply H. apply nth_overflow. lia.
Qed.

Lemma peek_suffix s p : 0 <= p -> peek s p = hd 0 (suffix s p).
Proof.
  intros Hp. unfold peek, suffix.
  destruct (p <? 0) eqn:E; [apply Z.ltb_lt in E; lia|].
  generalize (Z.to_nat p). clear. intros n. revert s.
  induction n; intros [|c s]; simpl; auto.
Qed.

Lemma suffix_length s p :
  0 <= p -> Z.of_nat (List.length (suffix s p)) = Z.max 0 (Z.of_nat (List.length s) - p).
Proof.
  intros Hp. unfold suffix.
  destruct (p <? 0) eqn:E; [apply Z.ltb_lt in E; lia|].
  rewrite length_skipn. lia.
Qed.

Lemma suffix_succ s p :
  0 <= p -> suffix s (p + 1) = tl (suffix s p).
Proof.
  intros Hp. unfold suffix.
  destruct (p <? 0) eqn:E; [apply Z.ltb_lt in E; lia|].
  destruct (p + 1 <? 0) eqn:E'; [apply Z.ltb_lt in E'; lia|].
  replace (Z.to_nat (p + 1)) with (S (Z.to_nat p)) by lia.
  generalize (Z.to_nat p). clear. intros n. revert s.
  induction n; intros [|c s]; simpl; auto.
  rewrite <- IHn. reflexivity.
Qed.

Lemma digit_run_bounds l : 0 <= digit_run l <= Z.of_nat (List.length l).
Proof.
  induction l as [|c l IH]; cbn [digit_run List.length]; [lia|].
  rewrite Nat2Z.inj_succ. destruct (isdigit c); lia.
Qed.

Lemma long_run_bounds l : 0 <= fst (long_run l) <= Z.of_nat (List.length l).
Proof.
  induction l as [|c l IH]; cbn [long_run List.length]; [simpl; lia|].
  rewrite Nat2Z.inj_succ.
  destruct ((c =? 0) || (c =? chr "_")); cbn [fst]; [lia|].
  destruct (long_run l) as [n e]. cbn [fst] in *. lia.
Qed.

Lemma isdigit_nonzero c : isdigit c = true -> c <> 0.
Proof.
  unfold isdigit. intros H ->. vm_compute in H. discriminate.
Qed.

Lemma skip_digits_fwd_bounds s p :
  0 <= p + 1 ->
  p + 1 <= skip_digits_fwd s p <= Z.max (p + 1) (Z.of_nat (List.length s)).
Proof.
  intros Hp. unfold skip_digits_fwd.
  pose proof (digit_run_bounds (suffix s (p + 1))) as H.
  rewrite suffix_length in H by assumption. lia.
Qed.

(** ** Progress of the token parser *)

Lemma parse_short_isa s ext :
  peek s ext <> 0 ->
  ext + 1 <= t_isa (parse_short s ext) <= Z.of_nat (List.length s).
Proof.
  intros H. apply peek_nonzero_range in H.
  assert (Hd : forall q, isdigit (peek s q) = true ->
                         0 <= q < Z.of_nat (List.length s)).
  { intros q Hq. apply peek_nonzero_range, isdigit_nonzero, Hq. }
  unfold parse_short.
  destruct (negb (islower (peek s ext))); simpl; [lia|].
  destruct (isdigit (peek s (ext + 1))) eqn:D1; simpl; [|lia].
  apply Hd in D1.
  pose proof (skip_digits_fwd_bounds s (ext + 1) ltac:(lia)) as B1.
  destruct (peek s (skip_digits_fwd s (ext + 1)) =? chr "p") eqn:P; simpl;
    [|lia].
  assert (P' : peek s (skip_digits_fwd s (ext + 1)) <> 0).
  { apply Z.eqb_eq in P. rewrite P. vm_compute. discriminate. }
  apply peek_nonzero_range in P'.
  destruct (isdigit (peek s (skip_digits_fwd s (ext + 1) + 1))) eqn:D2; simpl;
    [|lia].
  apply Hd in D2.
  pose proof (skip_digits_fwd_bounds s (skip_digits_fwd s (ext + 1) + 1)
                ltac:(lia)) as B2.
  lia.
Qed.

Lemma parse_long_isa s ext :
  peek s ext <> 0 ->
  ext + 1 <= t_isa (parse_long s ext) <= Z.of_nat (List.length s).
Proof.
  intros H. apply peek_nonzero_range in H.
  pose proof (long_run_bounds (suffix s (ext + 1))) as B.
  rewrite suffix_length in B by lia.
  unfold parse_long.
  destruct (long_run (suffix s (ext + 1))) as [n e]. simpl in B.
  assert (G : ext + 1 <= ext + 1 + n <= Z.of_nat (List.length s)) by lia.
  destruct e; simpl; [exact G|].
  destruct (negb (isdigit (peek s (ext + 1 + n - 1)))); simpl; [exact G|].
  match goal with |- context [if ?b then _ else _] => destruct b end;
    simpl; exact G.
Qed.

Lemma parse_switch_isa s ext :
  peek s ext <> 0 ->
  ext + 1 <= t_isa (parse_switch s ext) <= Z.of_nat (List.length s).
Proof.
  intros H. unfold parse_switch. destruct (long_prefix (peek s ext)).
  - apply parse_long_isa, H.
  - apply parse_short_isa, H.
Qed.

Lemma body_end_bounds s ext :
  peek s ext <> 0 ->
  ext <= body_end s (parse_switch s ext) < Z.of_nat (List.length s).
Proof.
  intros H. pose proof (parse_switch_isa s ext H) as B.
  unfold body_end.
  destruct (peek s (t_isa (parse_switch s ext)) =? chr "_") eqn:U; [|lia].
  assert (P : peek s (t_isa (parse_switch s ext)) <> 0).
  { apply Z.eqb_eq in U. rewrite U. vm_compute. discriminate. }
  apply peek_nonzero_range in P. lia.
Qed.

Lemma next_isa_bounds s ext :
  peek s ext <> 0 ->
  ext + 1 <= next_isa s (parse_switch s ext) <= Z.of_nat (List.length s).
Proof.
  intros H. pose proof (body_end_bounds s ext H). unfold next_isa. lia.
Qed.

(** ** The scanning loop *)

Lemma scan_loop_total fuel s isa u :
  0 <= isa ->
  Z.of_nat (List.length s) - isa <= Z.of_nat fuel ->
  exists r, scan_loop fuel s isa u = Some r.
Proof.
  revert isa u. induction fuel as [|fuel IH]; intros isa u H0 Hf; simpl.
  - destruct (peek s isa =? 0) eqn:E; [eauto|].
    apply Z.eqb_neq, peek_nonzero_range in E. lia.
  - destruct (peek s isa =? 0) eqn:E; [eauto|].
    apply Z.eqb_neq in E. pose proof (next_isa_bounds s isa E).
    apply peek_nonzero_range in E. apply IH; lia.
Qed.

Lemma scan_loop_tokens fuel s isa u r :
  scan_loop fuel s isa u = Some r ->
  r = apply_tokens s (scan_tokens fuel s isa) u.
Proof.
  revert isa u. induction fuel as [|fuel IH]; intros isa u; simpl.
  - destruct (peek s isa =? 0); [|discriminate]. intros [= <-]. reflexivity.
  - destruct (peek s isa =? 0); [intros [= <-]; reflexivity|].
    simpl. apply IH.
Qed.

Lemma skip_width_bounds cfg s :
  0 <= skip_width cfg s <= Z.of_nat (List.length s).
Proof.
  unfold skip_width.
  destruct (memcmp_eq s 0 (chars (width_prefix cfg))) eqn:E; [|lia].
  assert (P : peek s 3 <> 0).
  { destruct cfg; simpl in E;
      do 3 (apply andb_prop in E; destruct E as [_ E]);
      apply andb_prop in E; destruct E as [E _];
      apply Z.eqb_eq in E; rewrite E; vm_compute; discriminate. }
  apply peek_nonzero_range in P. lia.
Qed.

Lemma parse_isa_total cfg isa : exists u, parse_isa cfg isa = Some u.
Proof.
  unfold parse_isa. pose proof (skip_width_bounds cfg (chars isa)).
  apply scan_loop_total; lia.
Qed.

Lemma parse_isa_tokens cfg isa u :
  parse_isa cfg isa = Some u ->
  u = apply_tokens (chars isa) (isa_tokens cfg isa) unit_init.
Proof. apply scan_loop_tokens. Qed.

(** C10.  Every iteration of the scanning loop that is entered (the
    character under the cursor is not NUL) leaves the cursor, at the end of
    the body, at or after the first character of its token, and the [++isa]
    of the loop then puts it strictly after that character and at most on
    the terminating NUL; hence the loop terminates on every string: a
    number of iterations equal to the distance to the end suffices, and the
    per-hart parse always returns. *)
Theorem C10_scan_advances_and_terminates :
  (forall s ext, peek s ext <> 0 ->
     ext <= body_end s (parse_switch s ext) /\
     ext + 1 <= next_isa s (parse_switch s ext) <= Z.of_nat (List.length s)) /\
  (forall fuel s isa u,
     0 <= isa -> Z.of_nat (List.length s) - isa <= Z.of_nat fuel ->
     exists r, scan_loop fuel s isa u = Some r) /\
  (forall cfg isa, exists u, parse_isa cfg isa = Some u).
Proof.
  split; [|split].
  - intros s ext H. split.
    + apply body_end_bounds, H.
    + apply next_isa_bounds, H.
  - intros. apply scan_loop_total; assumption.
  - apply parse_isa_total.
Qed.

Lemma C10_witness :
  let s := chars "i2p0_zba" in
  peek s 0 <> 0 /\
  (0 <= body_end s (parse_switch s 0) /\
   0 + 1 <= next_isa s (parse_switch s 0) <= Z.of_nat (List.length s)) /\
  (exists r, scan_loop 8 s 0 unit_init = Some r).
Proof.
  intros s.
  assert (H : peek s 0 <> 0) by (vm_compute; discriminate).
  split; [exact H|]. split.
  - exact (proj1 C10_scan_advances_and_terminates s 0 H).
  - apply (proj1 (proj2 C10_scan_advances_and_terminates) 8%nat s 0 unit_init).
    + lia.
    + vm_compute. discriminate.
Defined.

(** C4.  Version suffix of a multi-letter token: "zba1p0" is the name
    "zba" with major version 1 and minor version 0; "zba1" is "zba" with
    major version 1 and the default minor version 0; "zba" keeps the major
    version at its default [UINT_MAX] (unversioned) and the minor at 0.
    None of the three raises an error flag. *)
Theorem C4_version_suffix cfg :
  let view (isa : string) :=
    map (fun t => (token_name (chars isa) t, ext_major t, ext_minor t,
                   ext_err t, ext_err_ver t))
        (isa_tokens cfg isa) in
  view "zba1p0"%string = [(chars "zba", 1, 0, false, false)] /\
  view "zba1"%string = [(chars "zba", 1, 0, false, false)] /\
  view "zba"%string = [(chars "zba", UINT_MAX, 0, false, false)].
Proof. destruct cfg; vm_compute; repeat split. Qed.

(** ** The extension query *)

(** C7 (as amended).  For every bitmap argument (given, or none for the
    host bitmap) the query answers false, without consulting the bitmap,
    for a bit index at or above the capacity of the bitmap, and for an
    index within the bitmap it answers whether that bit is set in the
    bitmap consulted.  The guard is the upper bound only: every index below
    the capacity, a negative one included, is handed to [test_bit], whose
    answer is returned.  [test_bit] is only assumed to read the bits that
    are within the bitmap. *)
Theorem C7_extension_available max test_bit host isa_bitmap bit :
  (forall nr addr, 0 <= nr < max -> test_bit nr addr = Z.testbit addr nr) ->
  let consulted := match isa_bitmap with Some b => b | None => host end in
  (max <= bit ->
   __riscv_isa_extension_available max test_bit host isa_bitmap bit = false) /\
  (0 <= bit < max ->
   __riscv_isa_extension_available max test_bit host isa_bitmap bit
   = Z.testbit consulted bit) /\
  (bit < max ->
   __riscv_isa_extension_available max test_bit host isa_bitmap bit
   = test_bit bit consulted).
Proof.
  intros T consulted. unfold __riscv_isa_extension_available.
  fold consulted. split; [|split]; intros H.
  - destruct (bit >=? max) eqn:E; [reflexivity|]. lia.
  - destruct (bit >=? max) eqn:E; [lia|].
    rewrite T by assumption.
    destruct (Z.testbit consulted bit); reflexivity.
  - destruct (bit >=? max) eqn:E; [lia|].
    destruct (test_bit bit consulted); reflexivity.
Qed.

Lemma C7_witness :
  let test_bit := fun nr addr => Z.testbit addr nr in
  __riscv_isa_extension_available 64 test_bit 4357 None 8 = true /\
  __riscv_isa_extension_available 64 test_bit 4357 None 1 = false /\
  __riscv_isa_extension_available 64 test_bit 4357 (Some (-1)) 64 = false.
Proof.
  intros test_bit.
  assert (T : forall nr addr, 0 <= nr < 64 ->
                              test_bit nr addr = Z.testbit addr nr)
    by reflexivity.
  split; [|split].
  - exact (proj1 (proj2 (C7_extension_available 64 test_bit 4357 None 8 T))
                 ltac:(lia)).
  - exact (proj1 (proj2 (C7_extension_available 64 test_bit 4357 None 1 T))
                 ltac:(lia)).
  - exact (proj1 (C7_extension_available 64 test_bit 4357 (Some (-1)) 64 T)
                 ltac:(lia)).
Defined.

(** C7, as stated, fails on a negative index: the guard lets -1 through,
    and with a [test_bit] that reads every bit of the bitmap as it is (and
    takes the bit number modulo the word size, as a word-indexed bit test
    does) the query answers true at -1 for a bitmap with bit 63 set. *)
Lemma C7_counterexample :
  let test_bit := fun nr addr => Z.testbit addr (nr mod 64) in
  (forall nr addr, 0 <= nr < 64 -> test_bit nr addr = Z.testbit addr nr) /\
  __riscv_isa_extension_available 64 test_bit 0 (Some (2 ^ 63)) (-1) = true.
Proof.
  intros test_bit. split; [|reflexivity].
  intros nr addr H. unfold test_bit. now rewrite Z.mod_small.
Qed.

(** ** Bits *)

Lemma land_bit_eqb m k :
  0 <= k -> (Z.land m (Z.shiftl 1 k) =? 0) = negb (Z.testbit m k).
Proof.
  intros Hk. rewrite Z.shiftl_1_l.
  destruct (Z.testbit m k) eqn:B; simpl.
  - apply Z.eqb_neq. intros H.
    assert (T : Z.testbit (Z.land m (2 ^ k)) k = true).
    { rewrite Z.land_spec, B, Z.pow2_bits_true by assumption. reflexivity. }
    rewrite H, Z.bits_0 in T. discriminate.
  - apply Z.eqb_eq. apply Z.bits_inj'. intros n Hn.
    rewrite Z.land_spec, Z.bits_0, Z.pow2_bits_eqb by assumption.
    destruct (Z.eqb_spec k n) as [->|_]; [rewrite B|]; auto using andb_false_r.
Qed.

Lemma has_cap_bit m k : 0 <= k -> has_cap m (Z.shiftl 1 k) = Z.testbit m k.
Proof.
  intros Hk. unfold has_cap. rewrite land_bit_eqb by assumption.
  apply negb_involutive.
Qed.

Lemma has_cap_F m : has_cap m COMPAT_HWCAP_ISA_F = Z.testbit m F_BIT.
Proof. apply has_cap_bit. vm_compute. discriminate. Qed.

Lemma has_cap_D m : has_cap m COMPAT_HWCAP_ISA_D = Z.testbit m D_BIT.
Proof. apply has_cap_bit. vm_compute. discriminate. Qed.

Lemma testbit_true_nonzero m k : Z.testbit m k = true -> m <> 0.
Proof. intros H ->. rewrite Z.bits_0 in H. discriminate. Qed.

(** ** The presenter *)

Lemma store_app acc b r c :
  store (acc ++ b :: r) (List.length acc) c = acc ++ c :: r.
Proof. induction acc as [|a acc IH]; simpl; [reflexivity|]. now rewrite IH. Qed.

Lemma c_string_app l r :
  Forall (fun c => c <> 0) l -> c_string (l ++ 0 :: r) = l.
Proof.
  induction 1 as [|c l Hc _ IH]; simpl; [reflexivity|].
  destruct (Z.eqb_spec c 0); [contradiction|]. now rewrite IH.
Qed.

Lemma letters_from_length word i n :
  (List.length (letters_from word i n) <= n)%nat.
Proof.
  unfold letters_from. rewrite length_map.
  etransitivity; [apply filter_length_le|]. now rewrite length_seq.
Qed.

Lemma print_loop_spec word n : forall i acc k,
  (n < k)%nat ->
  print_loop n word (Z.of_nat i) (List.length acc) (acc ++ repeat 0 k)
  = acc ++ letters_from word i n
        ++ repeat 0 (k - List.length (letters_from word i n)).
Proof.
  induction n as [|n IH]; intros i acc k Hk.
  - simpl. now rewrite Nat.sub_0_r.
  - cbn [print_loop]. unfold BIT_MASK.
    rewrite land_bit_eqb, negb_involutive by lia.
    replace (Z.of_nat i + 1) with (Z.of_nat (S i)) by lia.
    unfold letters_from. cbn [seq filter].
    destruct (Z.testbit word (Z.of_nat i)) eqn:B.
    + destruct k as [|k]; [lia|]. cbn [repeat].
      rewrite store_app.
      replace (acc ++ (chr "a" + Z.of_nat i) :: repeat 0 k)
        with ((acc ++ [chr "a" + Z.of_nat i]) ++ repeat 0 k)
        by (now rewrite <- app_assoc).
      replace (S (List.length acc))
        with (List.length (acc ++ [chr "a" + Z.of_nat i]))
        by (rewrite length_app; simpl; lia).
      rewrite IH by lia. rewrite <- app_assoc. reflexivity.
    + apply IH. lia.
Qed.

Lemma chr_a_pos i : chr "a" + Z.of_nat i <> 0.
Proof. change (chr "a") with 97. lia. Qed.

Lemma print_loop_from word n i acc k zi j buf :
  zi = Z.of_nat i -> j = List.length acc -> buf = acc ++ repeat 0 k ->
  (n < k)%nat ->
  print_loop n word zi j buf
  = acc ++ letters_from word i n
        ++ repeat 0 (k - List.length (letters_from word i n)).
Proof. intros -> -> ->. apply print_loop_spec. Qed.

Lemma present_unfold word :
  present word = c_string (print_loop 26 word 0 0 (repeat 0 27)).
Proof. reflexivity. Qed.

Lemma letters_of_unfold word : letters_of word = letters_from word 0 26.
Proof. reflexivity. Qed.

Lemma c_string_padded l :
  (List.length l <= 26)%nat -> Forall (fun c => c <> 0) l ->
  c_string (l ++ repeat 0 (27 - List.length l)) = l.
Proof.
  intros L N.
  destruct (27 - List.length l)%nat as [|k] eqn:K; [lia|].
  cbn [repeat]. apply c_string_app, N.
Qed.

Lemma letters_from_nonzero word i n :
  Forall (fun c => c <> 0) (letters_from word i n).
Proof.
  apply Forall_forall. intros c Hc. unfold letters_from in Hc.
  apply in_map_iff in Hc. destruct Hc as (j & <- & _). apply chr_a_pos.
Qed.

Lemma present_letters word : present word = letters_of word.
Proof.
  rewrite present_unfold, letters_of_unfold.
  rewrite (print_loop_from word 26 0 [] 27 0 0 (repeat 0 27)
             eq_refl eq_refl eq_refl ltac:(lia)).
  rewrite app_nil_l.
  apply c_string_padded.
  - apply letters_from_length.
  - apply letters_from_nonzero.
Qed.

Lemma letters_of_In word c :
  In c (letters_of word) <->
  exists i, 0 <= i < NUM_ALPHA_EXTS /\ Z.testbit word i = true
            /\ c = chr "a" + i.
Proof.
  unfold letters_of, letters_from. rewrite in_map_iff.
  replace NUM_ALPHA_EXTS with 26 by reflexivity.
  replace (Z.to_nat 26) with 26%nat by reflexivity. split.
  - intros (i & <- & Hi). apply filter_In in Hi. destruct Hi as [Hi B].
    apply in_seq in Hi. exists (Z.of_nat i). repeat split; auto; lia.
  - intros (i & Hi & B & ->). exists (Z.to_nat i).
    rewrite Z2Nat.id by lia. split; [reflexivity|].
    apply filter_In. rewrite Z2Nat.id by lia. split; [|assumption].
    apply in_seq. lia.
Qed.

Lemma letters_from_sorted word n : forall i,
  StronglySorted Z.lt (letters_from word i n).
Proof.
  induction n as [|n IH]; intros i; [constructor|].
  unfold letters_from. cbn [seq filter].
  destruct (Z.testbit word (Z.of_nat i)); [|apply IH].
  cbn [map]. constructor; [apply IH|].
  apply Forall_forall. intros c Hc. apply in_map_iff in Hc.
  destruct Hc as (j & <- & Hj). apply filter_In in Hj. destruct Hj as [Hj _].
  apply in_seq in Hj. lia.
Qed.

(** C9.  The presenter renders a word as the lowercase letters whose bit,
    among the 26 letter positions, is set: exactly those letters, in
    strictly ascending order, nothing in between.  For the one string
    "rv64imac" (64-bit kernel) the ISA bitmap holds exactly the bits of a,
    c, i and m, the capability mask the bits of I, M, A and C and neither F
    nor D, and both are rendered as "acim" in the two summary lines. *)
Theorem C9_presenter :
  (forall word, present word = letters_of word) /\
  (forall word c,
     In c (present word) <->
     exists i, 0 <= i < NUM_ALPHA_EXTS /\ Z.testbit word i = true
               /\ c = chr "a" + i) /\
  (forall word, StronglySorted Z.lt (present word)) /\
  (exists u,
     parse_isa CONFIG_64BIT "rv64imac" = Some u /\
     this_isa u = Z.lor (letter_bit "a") (Z.lor (letter_bit "c")
                    (Z.lor (letter_bit "i") (letter_bit "m"))) /\
     this_hwcap u = Z.lor COMPAT_HWCAP_ISA_I (Z.lor COMPAT_HWCAP_ISA_M
                      (Z.lor COMPAT_HWCAP_ISA_A COMPAT_HWCAP_ISA_C)) /\
     has_cap (this_hwcap u) COMPAT_HWCAP_ISA_F = false /\
     has_cap (this_hwcap u) COMPAT_HWCAP_ISA_D = false /\
     present (this_isa u) = chars "acim") /\
  (exists h,
     riscv_fill_hwcap CONFIG_64BIT [mkNode 0 (Some "rv64imac"%string)] = Some h /\
     hw_log h = [InfoIsaExtensions (chars "acim");
                 InfoElfCapabilities (chars "acim")]).
Proof.
  split; [exact present_letters|]. split; [|split; [|split]].
  - intros word c. rewrite present_letters. apply letters_of_In.
  - intros word. rewrite present_letters. apply letters_from_sorted.
  - eexists. split; [vm_compute; reflexivity|]. vm_compute. repeat split.
  - eexists. split; vm_compute; reflexivity.
Qed.

(** ** The fold over the harts *)

Lemma fold_word_bit_false acc x k :
  Z.testbit acc k = false \/ Z.testbit x k = false ->
  acc <> 0 \/ Z.testbit x k = false ->
  Z.testbit (fold_word acc x) k = false.
Proof.
  intros H G. unfold fold_word. destruct (Z.eqb_spec acc 0) as [E|E].
  - destruct G; [contradiction|assumption].
  - rewrite Z.land_spec. destruct H as [-> | ->]; auto using andb_false_r.
Qed.

Lemma fold_bit_absent k ws : forall acc,
  Z.testbit acc k = false ->
  Forall (fun w => Z.testbit w k = false) ws ->
  Z.testbit (fold_left fold_word ws acc) k = false.
Proof.
  induction ws as [|w ws IH]; intros acc Ha Hw; simpl; [assumption|].
  inversion Hw; subst. apply IH; [|assumption].
  apply fold_word_bit_false; auto.
Qed.

Lemma fold_bit_present k ws : forall acc,
  Z.testbit acc k = true ->
  Forall (fun w => Z.testbit w k = true) ws ->
  Z.testbit (fold_left fold_word ws acc) k = true.
Proof.
  induction ws as [|w ws IH]; intros acc Ha Hw; simpl; [assumption|].
  inversion Hw; subst. apply IH; [|assumption].
  unfold fold_word. destruct (Z.eqb_spec acc 0) as [E|E]; [assumption|].
  rewrite Z.land_spec, Ha. assumption.
Qed.

Lemma aggregate_bit_present k ws :
  ws <> [] ->
  Forall (fun w => Z.testbit w k = true) ws ->
  Z.testbit (aggregate ws) k = true.
Proof.
  destruct ws as [|w ws]; [congruence|]. intros _ H. inversion H; subst.
  unfold aggregate. simpl. apply fold_bit_present; assumption.
Qed.

Lemma aggregate_bit_absent k ws :
  Forall (fun w => Z.testbit w k = false) ws ->
  Z.testbit (aggregate ws) k = false.
Proof. apply fold_bit_absent, Z.bits_0. Qed.

Lemma fold_word_inter ws : forall acc,
  Z.land acc (inter_list ws) <> 0 ->
  fold_left fold_word ws acc = Z.land acc (inter_list ws).
Proof.
  induction ws as [|w ws IH]; intros acc H; simpl in *.
  - now rewrite Z.land_m1_r.
  - assert (A : acc <> 0) by (intros ->; apply H, Z.land_0_l).
    unfold fold_word at 2. destruct (Z.eqb_spec acc 0); [contradiction|].
    rewrite Z.land_assoc in H. rewrite IH by assumption.
    now rewrite Z.land_assoc.
Qed.

Lemma aggregate_inter ws :
  ws <> [] -> inter_list ws <> 0 -> aggregate ws = inter_list ws.
Proof.
  destruct ws as [|w ws]; [congruence|]. intros _ H.
  unfold aggregate. cbn [fold_left]. unfold fold_word at 2.
  cbn [Z.eqb]. apply fold_word_inter. exact H.
Qed.

Lemma inter_list_bit ws k :
  0 <= k ->
  (Z.testbit (inter_list ws) k = true <->
   Forall (fun w => Z.testbit w k = true) ws).
Proof.
  intros Hk. induction ws as [|w ws IH]; simpl.
  - rewrite Z.bits_m1 by assumption. split; auto.
  - rewrite Z.land_spec, andb_true_iff, IH. split.
    + intros [? ?]. constructor; assumption.
    + intros H. inversion H; auto.
Qed.

Lemma inter_list_perm ws ws' :
  Permutation ws ws' -> inter_list ws = inter_list ws'.
Proof.
  induction 1; simpl; try congruence.
  rewrite !Z.land_assoc. f_equal. apply Z.land_comm.
Qed.

Lemma unit_results_perm cfg nodes nodes' :
  Permutation nodes nodes' ->
  Permutation (unit_results cfg nodes) (unit_results cfg nodes').
Proof. apply Permutation_flat_map. Qed.

Lemma unit_results_cons cfg n nodes :
  unit_results cfg (n :: nodes)
  = unit_results cfg [n] ++ unit_results cfg nodes.
Proof. unfold unit_results. simpl. now rewrite app_nil_r. Qed.

(** The loop over the nodes always runs to its end; what it leaves in the
    two globals is the fold of the per-hart words. *)
Lemma nodes_loop_spec cfg nodes : forall h,
  exists h',
    nodes_loop cfg h nodes = Some h' /\
    elf_hwcap h' = fold_left fold_word
                     (map this_hwcap (unit_results cfg nodes)) (elf_hwcap h) /\
    riscv_isa h' = fold_left fold_word
                     (map this_isa (unit_results cfg nodes)) (riscv_isa h) /\
    cpu_hwcap_fpu h' = cpu_hwcap_fpu h.
Proof.
  induction nodes as [|n nodes IH]; intros h.
  - exists h. repeat split.
  - rewrite unit_results_cons. cbn [nodes_loop].
    unfold node_step, unit_results at 1 3. cbn [flat_map].
    destruct (hartid n <? 0).
    + cbn [app]. apply IH.
    + destruct (riscv_isa_prop n) as [isa|].
      * destruct (parse_isa_total cfg isa) as [u Hu]. rewrite Hu.
        cbn [app map fold_left].
        match goal with |- context [nodes_loop cfg ?x nodes] =>
          destruct (IH x) as (h' & E & A & B & C) end.
        exists h'. cbn in A, B, C. repeat split; assumption.
      * cbn [app].
        match goal with |- context [nodes_loop cfg ?x nodes] =>
          destruct (IH x) as (h' & E & A & B & C) end.
        exists h'. cbn in A, B, C. repeat split; assumption.
Qed.

(** The word a mask becomes under the rule "no F without D". *)
Lemma finish_elf_hwcap h :
  elf_hwcap (finish h)
  = if has_cap (elf_hwcap h) COMPAT_HWCAP_ISA_F
       && negb (has_cap (elf_hwcap h) COMPAT_HWCAP_ISA_D)
    then Z.land (elf_hwcap h) (Z.lnot COMPAT_HWCAP_ISA_F)
    else elf_hwcap h.
Proof. unfold finish, has_cap. cbn [elf_hwcap]. now rewrite negb_involutive. Qed.

Lemma finish_bit h k :
  0 <= k ->
  Z.testbit (elf_hwcap (finish h)) k
  = Z.testbit (elf_hwcap h) k
    && (negb (k =? F_BIT) || Z.testbit (elf_hwcap h) D_BIT).
Proof.
  intros Hk. rewrite finish_elf_hwcap, has_cap_F, has_cap_D.
  destruct (Z.eqb_spec k F_BIT) as [->|N]; cbn [negb orb].
  - destruct (Z.testbit (elf_hwcap h) F_BIT) eqn:F;
      destruct (Z.testbit (elf_hwcap h) D_BIT) eqn:D; cbn [andb negb];
      rewrite ?F; try reflexivity.
    rewrite Z.land_spec, F. reflexivity.
  - rewrite andb_true_r.
    destruct (Z.testbit (elf_hwcap h) F_BIT && negb _); [|reflexivity].
    rewrite Z.land_spec, Z.lnot_spec by assumption.
    replace COMPAT_HWCAP_ISA_F with (2 ^ F_BIT) by reflexivity.
    rewrite Z.pow2_bits_eqb by (vm_compute; discriminate).
    destruct (Z.eqb_spec F_BIT k); [congruence|]. apply andb_true_r.
Qed.

Lemma finish_fpu h :
  cpu_hwcap_fpu h = false ->
  cpu_hwcap_fpu (finish h)
  = has_cap (elf_hwcap (finish h)) COMPAT_HWCAP_ISA_F
    || has_cap (elf_hwcap (finish h)) COMPAT_HWCAP_ISA_D.
Proof.
  intros E. rewrite finish_elf_hwcap. unfold finish. cbn [cpu_hwcap_fpu].
  rewrite E. unfold has_cap. rewrite !negb_involutive.
  match goal with |- context [Z.land ?m (Z.lor _ _)] => generalize m end.
  intros m. rewrite Z.land_lor_distr_r.
  destruct (Z.eqb_spec (Z.land m COMPAT_HWCAP_ISA_F) 0) as [->|F];
    destruct (Z.eqb_spec (Z.land m COMPAT_HWCAP_ISA_D) 0) as [->|D];
    cbn [negb orb].
  - reflexivity.
  - rewrite Z.lor_0_l. destruct (Z.eqb_spec (Z.land m COMPAT_HWCAP_ISA_D) 0);
      [contradiction|reflexivity].
  - rewrite Z.lor_0_r. destruct (Z.eqb_spec (Z.land m COMPAT_HWCAP_ISA_F) 0);
      [contradiction|reflexivity].
  - match goal with |- (if negb (?x =? 0) then _ else _) = _ =>
      destruct (Z.eqb_spec x 0) as [Z0|]; [|reflexivity] end.
    apply Z.lor_eq_0_iff in Z0. destruct Z0. contradiction.
Qed.

(** [riscv_fill_hwcap] always returns, with the folded words put through
    the closing rules. *)
Lemma riscv_fill_hwcap_spec cfg nodes :
  exists h0,
    riscv_fill_hwcap cfg nodes = Some (finish h0) /\
    elf_hwcap h0 = aggregate (map this_hwcap (unit_results cfg nodes)) /\
    riscv_isa h0 = aggregate (map this_isa (unit_results cfg nodes)) /\
    cpu_hwcap_fpu h0 = false.
Proof.
  destruct (nodes_loop_spec cfg nodes hw_init) as (h0 & E & A & B & C).
  exists h0. unfold riscv_fill_hwcap. rewrite E. repeat split; assumption.
Qed.

Lemma finish_F h :
  has_cap (elf_hwcap (finish h)) COMPAT_HWCAP_ISA_F
  = has_cap (elf_hwcap h) COMPAT_HWCAP_ISA_F
    && has_cap (elf_hwcap h) COMPAT_HWCAP_ISA_D.
Proof.
  rewrite !has_cap_F, has_cap_D, finish_bit by (vm_compute; discriminate).
  rewrite Z.eqb_refl. reflexivity.
Qed.

Lemma finish_D h :
  has_cap (elf_hwcap (finish h)) COMPAT_HWCAP_ISA_D
  = has_cap (elf_hwcap h) COMPAT_HWCAP_ISA_D.
Proof.
  rewrite !has_cap_D, finish_bit by (vm_compute; discriminate).
  replace (D_BIT =? F_BIT) with false by reflexivity. apply andb_true_r.
Qed.

(** C5.  [riscv_fill_hwcap] always returns; the mask it leaves is the
    folded mask with the F bit cleared when the folded mask had F without
    D, so the final mask never has F without D; the floating-point key is
    enabled exactly when F or D is set in the final mask.  If every
    contributing hart reports F and not D, the final mask lacks F and the
    key is off; if there is a contributing hart and every one reports both
    F and D, the final mask has both and the key is on. *)
Theorem C5_float_consistency cfg nodes :
  let units := unit_results cfg nodes in
  let agg := aggregate (map this_hwcap units) in
  exists h,
    riscv_fill_hwcap cfg nodes = Some h /\
    elf_hwcap h
    = (if has_cap agg COMPAT_HWCAP_ISA_F && negb (has_cap agg COMPAT_HWCAP_ISA_D)
       then Z.land agg (Z.lnot COMPAT_HWCAP_ISA_F) else agg) /\
    (has_cap (elf_hwcap h) COMPAT_HWCAP_ISA_F = true ->
     has_cap (elf_hwcap h) COMPAT_HWCAP_ISA_D = true) /\
    cpu_hwcap_fpu h
    = has_cap (elf_hwcap h) COMPAT_HWCAP_ISA_F
      || has_cap (elf_hwcap h) COMPAT_HWCAP_ISA_D /\
    (Forall (fun u => has_cap (this_hwcap u) COMPAT_HWCAP_ISA_F = true /\
                      has_cap (this_hwcap u) COMPAT_HWCAP_ISA_D = false) units ->
     has_cap (elf_hwcap h) COMPAT_HWCAP_ISA_F = false /\
     cpu_hwcap_fpu h = false) /\
    (units <> [] ->
     Forall (fun u => has_cap (this_hwcap u) COMPAT_HWCAP_ISA_F = true /\
                      has_cap (this_hwcap u) COMPAT_HWCAP_ISA_D = true) units ->
     has_cap (elf_hwcap h) COMPAT_HWCAP_ISA_F = true /\
     has_cap (elf_hwcap h) COMPAT_HWCAP_ISA_D = true /\
     cpu_hwcap_fpu h = true).
Proof.
  intros units agg.
  destruct (riscv_fill_hwcap_spec cfg nodes) as (h0 & E & A & _ & C).
  fold units in A. fold agg in A.
  exists (finish h0). split; [exact E|].
  rewrite (finish_fpu h0 C), finish_F, finish_D, finish_elf_hwcap, A.
  split; [reflexivity|]. split; [|split; [reflexivity|split]].
  - intros H. apply andb_prop in H. apply H.
  - intros H.
    assert (D : has_cap agg COMPAT_HWCAP_ISA_D = false).
    { rewrite has_cap_D. apply aggregate_bit_absent.
      apply Forall_map. revert H. apply Forall_impl. intros u [_ G].
      now rewrite <- has_cap_D. }
    rewrite D, andb_false_r. split; reflexivity.
  - intros N H.
    assert (F : has_cap agg COMPAT_HWCAP_ISA_F = true).
    { rewrite has_cap_F. apply aggregate_bit_present.
      - unfold units in *. destruct (unit_results cfg nodes);
          [congruence|discriminate].
      - apply Forall_map. revert H. apply Forall_impl. intros u [G _].
        now rewrite <- has_cap_F. }
    assert (D : has_cap agg COMPAT_HWCAP_ISA_D = true).
    { rewrite has_cap_D. apply aggregate_bit_present.
      - unfold units in *. destruct (unit_results cfg nodes);
          [congruence|discriminate].
      - apply Forall_map. revert H. apply Forall_impl. intros u [_ G].
        now rewrite <- has_cap_D. }
    rewrite F, D. repeat split.
Qed.

Lemma C5_witness :
  exists h,
    riscv_fill_hwcap CONFIG_64BIT
      [mkNode 0 (Some "rv64imafdc"%string); mkNode 1 (Some "rv64imafdc"%string)]
    = Some h /\
    has_cap (elf_hwcap h) COMPAT_HWCAP_ISA_F = true /\
    has_cap (elf_hwcap h) COMPAT_HWCAP_ISA_D = true /\
    cpu_hwcap_fpu h = true.
Proof.
  destruct (C5_float_consistency CONFIG_64BIT
              [mkNode 0 (Some "rv64imafdc"%string);
               mkNode 1 (Some "rv64imafdc"%string)])
    as (h & E & _ & _ & _ & _ & H).
  exists h. split; [exact E|]. apply H.
  - vm_compute. discriminate.
  - vm_compute. repeat constructor.
Defined.

(** C1 (as amended).  For a non-empty family of contributing harts whose
    ISA words have a non-zero intersection and whose capability words have
    a non-zero intersection: a bit of the final ISA bitmap is set exactly
    when every contributing hart set it; a bit of the final capability mask
    is set exactly when every contributing hart set it and, for the F bit,
    every contributing hart also set D; and every permutation of the nodes
    yields the same final bitmap and mask. *)
Theorem C1_intersection_fold cfg nodes :
  let units := unit_results cfg nodes in
  units <> [] ->
  inter_list (map this_isa units) <> 0 ->
  inter_list (map this_hwcap units) <> 0 ->
  exists h,
    riscv_fill_hwcap cfg nodes = Some h /\
    (forall k, 0 <= k ->
       (Z.testbit (riscv_isa h) k = true <->
        Forall (fun u => Z.testbit (this_isa u) k = true) units)) /\
    (forall k, 0 <= k ->
       (Z.testbit (elf_hwcap h) k = true <->
        Forall (fun u => Z.testbit (this_hwcap u) k = true) units /\
        (k = F_BIT ->
         Forall (fun u => Z.testbit (this_hwcap u) D_BIT = true) units))) /\
    (forall nodes', Permutation nodes nodes' ->
       exists h', riscv_fill_hwcap cfg nodes' = Some h' /\
                  riscv_isa h' = riscv_isa h /\ elf_hwcap h' = elf_hwcap h).
Proof.
  intros units N HI HC.
  assert (Nm : forall (f : unit_state -> Z), map f units <> []).
  { intros f. destruct units; [congruence|discriminate]. }
  destruct (riscv_fill_hwcap_spec cfg nodes) as (h0 & E & A & B & _).
  fold units in A, B.
  rewrite aggregate_inter in A by auto. rewrite aggregate_inter in B by auto.
  exists (finish h0). split; [exact E|]. split; [|split].
  - intros k Hk. change (riscv_isa (finish h0)) with (riscv_isa h0).
    rewrite B, inter_list_bit, Forall_map by assumption. reflexivity.
  - intros k Hk. rewrite finish_bit, A by assumption.
    rewrite andb_true_iff, orb_true_iff, negb_true_iff.
    rewrite !inter_list_bit, !Forall_map by (assumption || (vm_compute; discriminate)).
    split.
    + intros [H1 H2]. split; [assumption|]. intros ->.
      destruct H2 as [H2|H2]; [|assumption].
      rewrite Z.eqb_refl in H2. discriminate.
    + intros [H1 H2]. split; [assumption|].
      destruct (Z.eqb_spec k F_BIT); auto.
  - intros nodes' P.
    pose proof (unit_results_perm cfg _ _ P) as PU. fold units in PU.
    destruct (riscv_fill_hwcap_spec cfg nodes') as (h1 & E1 & A1 & B1 & _).
    assert (N1 : forall (f : unit_state -> Z),
               map f (unit_results cfg nodes') <> []).
    { intros f Hnil. apply map_eq_nil in Hnil. rewrite Hnil in PU.
      apply Permutation_sym, Permutation_nil in PU. contradiction. }
    assert (EI : forall (f : unit_state -> Z),
               inter_list (map f (unit_results cfg nodes'))
               = inter_list (map f units)).
    { intros f. apply inter_list_perm, Permutation_map, Permutation_sym, PU. }
    rewrite aggregate_inter in A1 by (auto; rewrite EI; assumption).
    rewrite aggregate_inter in B1 by (auto; rewrite EI; assumption).
    rewrite EI in A1, B1.
    exists (finish h1). split; [exact E1|]. split.
    + change (riscv_isa (finish h1) = riscv_isa (finish h0)).
      unfold finish. cbn [riscv_isa]. congruence.
    + rewrite !finish_elf_hwcap. rewrite A, A1. reflexivity.
Qed.

Lemma C1_witness :
  exists h,
    riscv_fill_hwcap CONFIG_64BIT
      [mkNode 0 (Some "rv64imafdc"%string); mkNode 1 (Some "rv64imac"%string)]
    = Some h /\
    riscv_isa h = 4357 /\ elf_hwcap h = 4357.
Proof.
  destruct (C1_intersection_fold CONFIG_64BIT
              [mkNode 0 (Some "rv64imafdc"%string);
               mkNode 1 (Some "rv64imac"%string)])
    as (h & E & _).
  - vm_compute. discriminate.
  - vm_compute. discriminate.
  - vm_compute. discriminate.
  - exists h. split; [exact E|].
    vm_compute in E. injection E as <-. split; reflexivity.
Defined.

(** C1, as stated, fails on the single hart "rv64if": the hart's own mask
    has the F bit, the final mask has not (the rule "no F without D"
    cleared it). *)
Lemma C1_counterexample :
  exists h u,
    riscv_fill_hwcap CONFIG_64BIT [mkNode 0 (Some "rv64if"%string)] = Some h /\
    unit_results CONFIG_64BIT [mkNode 0 (Some "rv64if"%string)] = [u] /\
    Z.testbit (this_hwcap u) F_BIT = true /\
    Z.testbit (elf_hwcap h) F_BIT = false.
Proof. do 2 eexists. evaluate. Qed.

(** What the amended C1 leaves out: the fold takes a running word of zero
    for "no hart folded yet", so once the running intersection is empty the
    next hart's word replaces it.  With the harts "rv64e" and "rv64imac" the
    final mask is that of "rv64imac" in one order and zero in the other. *)
Lemma zero_running_mask_restarts_fold :
  let e := mkNode 0 (Some "rv64e"%string) in
  let imac := mkNode 1 (Some "rv64imac"%string) in
  exists h h',
    riscv_fill_hwcap CONFIG_64BIT [e; imac] = Some h /\
    riscv_fill_hwcap CONFIG_64BIT [imac; e] = Some h' /\
    elf_hwcap h = Z.lor COMPAT_HWCAP_ISA_I (Z.lor COMPAT_HWCAP_ISA_M
                    (Z.lor COMPAT_HWCAP_ISA_A COMPAT_HWCAP_ISA_C)) /\
    elf_hwcap h' = 0.
Proof. do 2 eexists. evaluate. Qed.

(** ** Tokens and what they contribute *)

Lemma parse_short_fields s e :
  t_ext (parse_short s e) = e /\
  t_ext_end (parse_short s e) = e + 1 /\
  ext_long (parse_short s e) = false /\
  ext_err (parse_short s e) = negb (islower (peek s e)).
Proof.
  unfold parse_short.
  repeat match goal with
         | |- context [if ?b then _ else _] => destruct b; cbn
         end; repeat split.
Qed.

Lemma parse_long_fields s e :
  t_ext (parse_long s e) = e /\
  ext_long (parse_long s e) = true /\
  ext_err (parse_long s e) = snd (long_run (suffix s (e + 1))) /\
  t_ext_end (parse_long s e) <= t_isa (parse_long s e).
Proof.
  unfold parse_long, skip_digits_back.
  destruct (long_run (suffix s (e + 1))) as [n err]. cbn [snd].
  destruct err; cbn; [repeat split; lia|].
  destruct (negb (isdigit (peek s (e + 1 + n - 1)))); cbn;
    [repeat split; lia|].
  match goal with |- context [if ?b then _ else _] => destruct b end; cbn;
    repeat split;
    repeat match goal with
           | |- context [digit_run ?l] =>
               pose proof (digit_run_bounds l); generalize dependent (digit_run l);
               intros
           end; lia.
Qed.

Lemma parse_switch_ext s e : t_ext (parse_switch s e) = e.
Proof.
  unfold parse_switch. destruct (long_prefix (peek s e)).
  - apply parse_long_fields.
  - apply parse_short_fields.
Qed.

Lemma parse_switch_long s e :
  ext_long (parse_switch s e) = long_prefix (peek s e).
Proof.
  unfold parse_switch. destruct (long_prefix (peek s e)).
  - apply parse_long_fields.
  - apply parse_short_fields.
Qed.

Lemma parse_switch_ext_end s e :
  peek s e <> 0 ->
  t_ext_end (parse_switch s e) <= Z.of_nat (List.length s).
Proof.
  intros H. pose proof (parse_switch_isa s e H) as B. revert B.
  unfold parse_switch. destruct (long_prefix (peek s e)).
  - pose proof (parse_long_fields s e). lia.
  - destruct (parse_short_fields s e) as (_ & -> & _). lia.
Qed.

(** Every token of a scan is the token parsed at its own start, and the
    string has a character there. *)
Lemma scan_tokens_In fuel s : forall isa t,
  In t (scan_tokens fuel s isa) ->
  t = parse_switch s (t_ext t) /\ peek s (t_ext t) <> 0.
Proof.
  induction fuel as [|fuel IH]; intros isa t; simpl.
  - destruct (peek s isa =? 0); intros [].
  - destruct (Z.eqb_spec (peek s isa) 0) as [|N]; [intros []|].
    intros [<- | H]; [|eapply IH, H].
    rewrite parse_switch_ext. auto.
Qed.

Lemma isa_tokens_In cfg isa t :
  In t (isa_tokens cfg isa) ->
  t = parse_switch (chars isa) (t_ext t) /\ peek (chars isa) (t_ext t) <> 0.
Proof. apply scan_tokens_In. Qed.

Section Contributions.
Variable s : list Z.

Lemma run_hwcap_bit k ts : forall u,
  Z.testbit (this_hwcap (apply_tokens s ts u)) k = true <->
  Z.testbit (this_hwcap u) k = true \/
  exists t, In t ts /\ ext_err t = false /\
            Z.testbit (isa2hwcap (peek s (t_ext t))) k = true.
Proof.
  induction ts as [|t ts IH]; intros u; cbn [apply_tokens fold_left].
  - split; [auto|]. intros [H|(t & [] & _)]. exact H.
  - fold (apply_tokens s ts (apply_token s t u)). rewrite IH. unfold apply_token.
    destruct (ext_err t) eqn:E.
    + split; (intros [H|(t' & I & H)]; [left; exact H|right]).
      * exists t'. split; [right|]; assumption.
      * destruct I as [<-|I]; [destruct H; congruence|].
        exists t'. split; assumption.
    + cbn [this_hwcap]. rewrite Z.lor_spec, orb_true_iff. split.
      * intros [[H|H]|(t' & I & H)]; [left; exact H|right..].
        -- exists t. repeat split; auto. left. reflexivity.
        -- exists t'. split; [right|]; assumption.
      * intros [H|(t' & [<-|I] & H)]; [left; left; exact H|left; right|right].
        -- apply H.
        -- exists t'. split; assumption.
Qed.

Lemma run_isa_bit k ts : forall u,
  Z.testbit (this_isa (apply_tokens s ts u)) k = true <->
  Z.testbit (this_isa u) k = true \/
  exists t, In t ts /\ ext_err t = false /\ ext_long t = false /\
            Z.testbit (Z.shiftl 1 (peek s (t_ext t) - chr "a")) k = true.
Proof.
  induction ts as [|t ts IH]; intros u; cbn [apply_tokens fold_left].
  - split; [auto|]. intros [H|(t & [] & _)]. exact H.
  - fold (apply_tokens s ts (apply_token s t u)). rewrite IH. unfold apply_token.
    destruct (ext_err t) eqn:E.
    + split; (intros [H|(t' & I & H)]; [left; exact H|right]).
      * exists t'. split; [right|]; assumption.
      * destruct I as [<-|I]; [destruct H; congruence|].
        exists t'. split; assumption.
    + cbn [this_isa]. destruct (ext_long t) eqn:L.
      * split; (intros [H|(t' & I & H)]; [left; exact H|right]).
        -- exists t'. split; [right|]; assumption.
        -- destruct I as [<-|I]; [destruct H as (_ & H & _); congruence|].
           exists t'. split; assumption.
      * rewrite Z.lor_spec, orb_true_iff. split.
        -- intros [[H|H]|(t' & I & H)]; [left; exact H|right..].
           ++ exists t. repeat split; auto. left. reflexivity.
           ++ exists t'. split; [right|]; assumption.
        -- intros [H|(t' & [<-|I] & H)];
             [left; left; exact H|left; right|right].
           ++ apply H.
           ++ exists t'. split; assumption.
Qed.

Lemma run_log ts : forall u,
  unit_log (apply_tokens s ts u)
  = unit_log u
    ++ flat_map (fun t => if ext_err t then [] else token_diags s t) ts.
Proof.
  induction ts as [|t ts IH]; intros u; cbn [apply_tokens fold_left flat_map].
  - now rewrite app_nil_r.
  - fold (apply_tokens s ts (apply_token s t u)). rewrite IH. unfold apply_token.
    destruct (ext_err t); cbn [unit_log app]; [reflexivity|].
    now rewrite <- app_assoc.
Qed.
End Contributions.

(** ** The capability table and the legacy letters *)

Lemma isa2hwcap_nonzero c :
  isa2hwcap c <> 0 -> In c legacy_lower \/ In c legacy_upper.
Proof.
  unfold isa2hwcap.
  repeat match goal with
         | |- context [(c =? ?a) || (c =? ?b)] =>
             destruct (Z.eqb_spec c a) as [->|_];
             [intros _; left; vm_compute; tauto|];
             destruct (Z.eqb_spec c b) as [->|_];
             [intros _; right; vm_compute; tauto|];
             cbn [orb]
         end.
  congruence.
Qed.

Lemma legacy_lower_token s e :
  In (peek s e) legacy_lower ->
  ext_err (parse_switch s e) = false /\
  ext_long (parse_switch s e) = false /\
  exists k, 0 <= k /\ isa2hwcap (peek s e) = Z.shiftl 1 k.
Proof.
  intros H. rewrite parse_switch_long.
  unfold parse_switch.
  assert (G : long_prefix (peek s e) = false /\ islower (peek s e) = true /\
              exists k, 0 <= k /\ isa2hwcap (peek s e) = Z.shiftl 1 k).
  { revert H. generalize (peek s e). intros c H.
    unfold legacy_lower in H. cbn [chars map list_ascii_of_string In] in H.
    repeat (destruct H as [<-|H];
            [split; [reflexivity|split; [reflexivity|]];
             match goal with |- context [isa2hwcap ?c] =>
               exists (c - chr "a") end;
             split; [vm_compute; discriminate|reflexivity]|]).
    destruct H. }
  destruct G as (L & W & K). rewrite L.
  destruct (parse_short_fields s e) as (_ & _ & _ & ->). rewrite W.
  repeat split. exact K.
Qed.

Lemma legacy_upper_token s e :
  In (peek s e) legacy_upper -> ext_err (parse_switch s e) = true.
Proof.
  intros H. unfold parse_switch.
  assert (G : long_prefix (peek s e) = false /\ islower (peek s e) = false).
  { revert H. generalize (peek s e). intros c H.
    unfold legacy_upper in H. cbn [chars map list_ascii_of_string In] in H.
    repeat (destruct H as [<-|H]; [split; reflexivity|]). destruct H. }
  destruct G as (L & W). rewrite L.
  destruct (parse_short_fields s e) as (_ & _ & _ & ->). now rewrite W.
Qed.

(** C3 (as amended).  The lookup table maps each of the six legacy letters,
    in either case, to its capability bit.  In a scan, every token that
    starts with one of the six letters in lowercase is a well-formed
    single-letter token and sets that letter's bit in the hart's capability
    mask; a token that starts with one of them in uppercase is rejected as
    malformed; and every bit of the hart's capability mask comes from a
    well-formed token starting with one of the six lowercase letters. *)
Theorem C3_legacy_letters cfg isa :
  let s := chars isa in
  map isa2hwcap legacy_lower
  = [COMPAT_HWCAP_ISA_I; COMPAT_HWCAP_ISA_M; COMPAT_HWCAP_ISA_A;
     COMPAT_HWCAP_ISA_F; COMPAT_HWCAP_ISA_D; COMPAT_HWCAP_ISA_C] /\
  map isa2hwcap legacy_upper = map isa2hwcap legacy_lower /\
  exists u,
    parse_isa cfg isa = Some u /\
    (forall t, In t (isa_tokens cfg isa) ->
       In (peek s (t_ext t)) legacy_lower ->
       ext_err t = false /\ ext_long t = false /\
       has_cap (this_hwcap u) (isa2hwcap (peek s (t_ext t))) = true) /\
    (forall t, In t (isa_tokens cfg isa) ->
       In (peek s (t_ext t)) legacy_upper -> ext_err t = true) /\
    (forall k, Z.testbit (this_hwcap u) k = true ->
       exists t, In t (isa_tokens cfg isa) /\ ext_err t = false /\
                 In (peek s (t_ext t)) legacy_lower /\
                 Z.testbit (isa2hwcap (peek s (t_ext t))) k = true).
Proof.
  intros s. split; [reflexivity|]. split; [reflexivity|].
  destruct (parse_isa_total cfg isa) as [u Hu]. exists u.
  split; [exact Hu|]. apply parse_isa_tokens in Hu. fold s in Hu.
  split; [|split].
  - intros t Ht Hc. destruct (isa_tokens_In _ _ _ Ht) as [Et _]. fold s in Et.
    destruct (legacy_lower_token s (t_ext t) Hc) as (E & L & k & Hk & Ek).
    rewrite <- Et in E, L. repeat split; try assumption.
    rewrite Ek, has_cap_bit by assumption. rewrite Hu.
    apply run_hwcap_bit. right. exists t. repeat split; try assumption.
    rewrite Ek, Z.shiftl_1_l. apply Z.pow2_bits_true. assumption.
  - intros t Ht Hc. destruct (isa_tokens_In _ _ _ Ht) as [Et _]. fold s in Et.
    rewrite Et. apply legacy_upper_token, Hc.
  - intros k Hk. rewrite Hu in Hk. apply run_hwcap_bit in Hk.
    destruct Hk as [Hk|(t & Ht & E & B)].
    { cbn in Hk. rewrite Z.bits_0 in Hk. discriminate. }
    exists t. repeat split; try assumption.
    destruct (isa2hwcap_nonzero (peek s (t_ext t))) as [G|G].
    + eapply testbit_true_nonzero, B.
    + exact G.
    + destruct (isa_tokens_In _ _ _ Ht) as [Et _]. fold s in Et.
      apply legacy_upper_token in G. rewrite <- Et in G. congruence.
Qed.

Lemma C3_witness :
  exists u,
    parse_isa CONFIG_64BIT "rv64imafdc" = Some u /\
    has_cap (this_hwcap u) COMPAT_HWCAP_ISA_F = true.
Proof.
  destruct (C3_legacy_letters CONFIG_64BIT "rv64imafdc")
    as (_ & _ & u & E & H & _).
  exists u. split; [exact E|].
  apply (H (parse_switch (chars "rv64imafdc") 7)).
  - vm_compute. tauto.
  - vm_compute. tauto.
Defined.

(** C3, as stated, fails on "rv64IMAFDC": the six letters in uppercase set
    no bit of the capability mask (nor of the ISA bitmap). *)
Lemma C3_counterexample :
  exists u,
    parse_isa CONFIG_64BIT "rv64IMAFDC" = Some u /\
    this_hwcap u = 0 /\ this_isa u = 0 /\
    has_cap (this_hwcap u) COMPAT_HWCAP_ISA_I = false.
Proof. eexists. evaluate. Qed.

(** ** Malformed tokens *)



Lemma parse_long_isa_eq s e :
  t_isa (parse_long s e) = e + 1 + fst (long_run (suffix s (e + 1))).
Proof.
  unfold parse_long. destruct (long_run (suffix s (e + 1))) as [n err].
  cbn [fst].
  repeat match goal with
         | |- context [if ?b then _ else _] => destruct b; cbn
         end; reflexivity.
Qed.







(** ** Watch-list diagnostics *)

Lemma memcmp_firstn s name : forall p,
  0 <= p -> Forall (fun c => c <> 0) name ->
  (memcmp_eq s p name = true <->
   firstn (List.length name) (suffix s p) = name).
Proof.
  induction name as [|c name IH]; intros p Hp N; cbn [memcmp_eq List.length].
  - cbn. tauto.
  - inversion N as [|? ? Hc N']; subst.
    rewrite andb_true_iff, Z.eqb_eq, IH by (assumption || lia).
    rewrite suffix_succ, peek_suffix by assumption.
    destruct (suffix s p) as [|x l]; cbn [hd tl firstn].
    + split; [intros [H _]; congruence|discriminate].
    + split; [intros [-> ->]; reflexivity|intros [= -> ->]; auto].
Qed.

Lemma MATCH_EXT_name_is s t name :
  0 <= t_ext t -> t_ext_end t <= Z.of_nat (List.length s) ->
  chars name <> [] -> Forall (fun c => c <> 0) (chars name) ->
  MATCH_EXT s t name = name_is s t name.
Proof.
  intros He Hend Hne Hnz. unfold MATCH_EXT, name_is, token_name.
  set (n := t_ext_end t - t_ext t).
  pose proof (suffix_length s (t_ext t) He) as SL.
  destruct (list_eq_dec Z.eq_dec _ _) as [E|E].
  - assert (L : Z.of_nat (List.length (chars name)) = n).
    { rewrite <- E at 1. rewrite length_firstn.
      destruct (chars name) eqn:C; [congruence|].
      destruct (Z.to_nat n) eqn:Zn; [discriminate|]. lia. }
    rewrite L, Z.eqb_refl. cbn [andb]. apply memcmp_firstn; auto.
    rewrite <- E at 2. f_equal. lia.
  - destruct (Z.eqb_spec n (Z.of_nat (List.length (chars name)))) as [L|L];
      [|reflexivity].
    cbn [andb]. destruct (memcmp_eq s (t_ext t) (chars name)) eqn:M;
      [|reflexivity].
    exfalso. apply E. apply memcmp_firstn in M; auto.
    rewrite L, Nat2Z.id. exact M.
Qed.

Lemma count_diag_app d l1 l2 :
  count_diag d (l1 ++ l2) = (count_diag d l1 + count_diag d l2)%nat.
Proof. unfold count_diag. now rewrite filter_app, length_app. Qed.

Lemma count_token_diags s t name d :
  In (name, d) watch_list ->
  count_diag d (token_diags s t) = if MATCH_EXT s t name then 1%nat else 0%nat.
Proof.
  unfold token_diags, watch_list. cbn [In flat_map fst snd].
  intros H.
  repeat (destruct H as [[= <- <-]|H];
          [repeat match goal with
                  | |- context [if MATCH_EXT s t ?n then _ else _] =>
                      destruct (MATCH_EXT s t n)
                  end; reflexivity|]).
  destruct H.
Qed.

Lemma watch_list_names name d :
  In (name, d) watch_list ->
  chars name <> [] /\ Forall (fun c => c <> 0) (chars name).
Proof.
  unfold watch_list. cbn [In]. intros H.
  repeat (destruct H as [[= <- <-]|H];
          [split; [discriminate|];
           repeat (constructor; [vm_compute; discriminate|]); constructor|]).
  destruct H.
Qed.

Lemma count_scan_diags s d name ts :
  In (name, d) watch_list ->
  (forall t, In t ts ->
     0 <= t_ext t /\ t_ext_end t <= Z.of_nat (List.length s)) ->
  count_diag d (flat_map (fun t => if ext_err t then [] else token_diags s t) ts)
  = List.length (filter (fun t => negb (ext_err t) && name_is s t name) ts).
Proof.
  intros W. destruct (watch_list_names name d W) as [Hne Hnz].
  induction ts as [|t ts IH]; intros B; [reflexivity|].
  cbn [flat_map filter]. rewrite count_diag_app.
  rewrite IH by (intros; apply B; now right).
  destruct (B t (or_introl eq_refl)) as [B1 B2].
  destruct (ext_err t); cbn [negb andb]; [reflexivity|].
  rewrite (count_token_diags s t name d W).
  rewrite (MATCH_EXT_name_is s t name) by assumption.
  destruct (name_is s t name); reflexivity.
Qed.

(** C6 (as amended).  In the scan of one hart's string, for each name of
    the watch-list the number of its diagnostic lines equals the number of
    well-formed tokens ([ext_err] clear) with that name: one line per
    occurrence, not one per name.  Single-letter and multi-letter names are
    both matched ("h" and "zba" among the four). *)
Theorem C6_watch_list_lines cfg isa :
  let s := chars isa in
  map fst watch_list = ["h"; "zba"; "zihintpause"; "zksed"]%string /\
  exists u,
    parse_isa cfg isa = Some u /\
    forall name d, In (name, d) watch_list ->
      count_diag d (unit_log u)
      = List.length (filter (fun t => negb (ext_err t) && name_is s t name)
                            (isa_tokens cfg isa)).
Proof.
  intros s. split; [reflexivity|].
  destruct (parse_isa_total cfg isa) as [u Hu]. exists u.
  split; [exact Hu|]. apply parse_isa_tokens in Hu. fold s in Hu.
  intros name d W. rewrite Hu, run_log. cbn [unit_init unit_log app].
  apply count_scan_diags; [exact W|].
  intros t Ht. destruct (isa_tokens_In cfg isa t Ht) as [Et Nt]. fold s in Et, Nt.
  split.
  - apply peek_nonzero_range in Nt. lia.
  - rewrite Et. apply parse_switch_ext_end, Nt.
Qed.

Lemma C6_witness :
  exists u,
    parse_isa CONFIG_64BIT "rv64imac_h_zba" = Some u /\
    count_diag FeatureZba (unit_log u) = 1%nat /\
    count_diag FeatureH (unit_log u) = 1%nat.
Proof.
  destruct (C6_watch_list_lines CONFIG_64BIT "rv64imac_h_zba")
    as (_ & u & E & H).
  exists u. split; [exact E|]. split.
  - rewrite (H "zba"%string FeatureZba); [reflexivity|].
    vm_compute. tauto.
  - rewrite (H "h"%string FeatureH); [reflexivity|].
    vm_compute. tauto.
Defined.

(** C6, as stated, fails on "rv64i_zba_zba": the second "zba" logs a second
    line; likewise the second "h" of "rv64ihh". *)
Lemma C6_counterexample :
  (exists u, parse_isa CONFIG_64BIT "rv64i_zba_zba" = Some u /\
             unit_log u = [FeatureZba; FeatureZba] /\
             count_diag FeatureZba (unit_log u) = 2%nat) /\
  (exists u, parse_isa CONFIG_64BIT "rv64ihh" = Some u /\
             unit_log u = [FeatureH; FeatureH]).
Proof. split; eexists; evaluate. Qed.

(** ** Single-letter tokens, with and without delimiters *)

Lemma peek_at s a b p :
  s = a ++ b -> p = Z.of_nat (List.length a) -> peek s p = hd 0 b.
Proof.
  intros -> ->. rewrite peek_suffix by lia. unfold suffix.
  destruct (Z.of_nat (List.length a) <? 0) eqn:E; [apply Z.ltb_lt in E; lia|].
  rewrite Nat2Z.id. clear. induction a; simpl; auto.
Qed.

Lemma suffix_at s a b p :
  s = a ++ b -> p = Z.of_nat (List.length a) -> suffix s p = b.
Proof.
  intros -> ->. unfold suffix.
  destruct (Z.of_nat (List.length a) <? 0) eqn:E; [apply Z.ltb_lt in E; lia|].
  rewrite Nat2Z.id. clear. induction a; simpl; auto.
Qed.

Lemma digit_run_app ds rest :
  Forall (fun c => isdigit c = true) ds ->
  isdigit (hd 0 rest) = false ->
  digit_run (ds ++ rest) = Z.of_nat (List.length ds).
Proof.
  intros H R. induction H as [|c ds Hc _ IH].
  - destruct rest as [|x rest]; cbn in *; [reflexivity|]. now rewrite R.
  - cbn [app digit_run List.length]. rewrite Hc, IH. lia.
Qed.

Lemma skip_digits_fwd_at s a ds rest p :
  s = a ++ ds ++ rest -> p + 1 = Z.of_nat (List.length a) ->
  Forall (fun c => isdigit c = true) ds ->
  isdigit (hd 0 rest) = false ->
  skip_digits_fwd s p = p + 1 + Z.of_nat (List.length ds).
Proof.
  intros Hs Hp D R. unfold skip_digits_fwd.
  rewrite (suffix_at s a (ds ++ rest)) by assumption.
  now rewrite digit_run_app.
Qed.

Ltac list_eq :=
  subst; repeat first [rewrite <- app_assoc | progress cbn [app]]; reflexivity.
Ltac length_eq :=
  repeat first [rewrite length_app | progress cbn [List.length]]; lia.

Lemma islower_not_digit c : islower c = true -> isdigit c = false.
Proof.
  unfold islower, isdigit. rewrite andb_true_iff, !Z.leb_le. intros [H _].
  apply andb_false_iff. right. apply Z.leb_gt.
  change (chr "a") with 97 in H. change (chr "9") with 57. lia.
Qed.

(** The cursor on the first digit of a numeral [ds] followed by [rest]:
    [while (isdigit( *++p)) ;] leaves it right after the numeral. *)
Lemma skip_numeral s a ds rest p :
  s = a ++ ds ++ rest -> p = Z.of_nat (List.length a) ->
  numeral ds -> isdigit (hd 0 rest) = false ->
  isdigit (peek s p) = true /\
  skip_digits_fwd s p = p + Z.of_nat (List.length ds).
Proof.
  intros Hs Hp [N D] R. destruct ds as [|d ds]; [congruence|].
  inversion D; subst. split.
  - rewrite (peek_at _ a (d :: ds ++ rest)); auto.
  - rewrite (skip_digits_fwd_at _ (a ++ [d]) ds rest); auto.
    + length_eq.
    + list_eq.
    + length_eq.
Qed.

(** Where the [switch] leaves the cursor after a single-letter token [t]
    that is followed by [rest]: right after the token, provided [rest] does
    not start with a digit and, for a token with a major version only, not
    with 'p' and a digit. *)
Lemma parse_short_render s pre t rest :
  s = pre ++ render t ++ rest ->
  short_token_wf t ->
  isdigit (hd 0 rest) = false ->
  (major_only t = true -> hd 0 rest = chr "p" ->
   isdigit (hd 0 (tl rest)) = false) ->
  let e := Z.of_nat (List.length pre) in
  peek s e = st_letter t /\
  t_isa (parse_short s e) = e + Z.of_nat (List.length (render t)) /\
  peek s (e + Z.of_nat (List.length (render t))) = hd 0 rest.
Proof.
  intros Hs (W & _ & V) R A e.
  assert (H0 : peek s e = st_letter t).
  { rewrite (peek_at s pre (render t ++ rest) e); auto. }
  assert (HR : peek s (e + Z.of_nat (List.length (render t))) = hd 0 rest).
  { apply (peek_at s (pre ++ render t)); [list_eq|unfold e; length_eq]. }
  split; [exact H0|]. split; [|exact HR]. clear HR.
  unfold parse_short. rewrite H0, W. cbn [negb].
  destruct t as [c v]. unfold render, major_only in *.
  cbn [st_letter st_version] in *.
  destruct v as [[major [minor|]]|].
  - (* major and minor *)
    destruct V as [VM Vm].
    destruct (skip_numeral s (pre ++ [c]) major (chr "p" :: minor ++ rest)
                (e + 1)) as [D1 S1];
      [list_eq|unfold e; length_eq|assumption|reflexivity|].
    rewrite D1, S1. cbn [negb].
    rewrite (peek_at s (pre ++ c :: major) (chr "p" :: minor ++ rest));
      [|list_eq|unfold e; length_eq].
    cbn [hd]. rewrite Z.eqb_refl. cbn [negb].
    destruct (skip_numeral s (pre ++ c :: major ++ [chr "p"]) minor rest
                (e + 1 + Z.of_nat (List.length major) + 1)) as [D2 S2];
      [list_eq|unfold e; length_eq|assumption|assumption|].
    rewrite D2, S2. cbn [negb t_isa]. length_eq.
  - (* major only *)
    destruct (skip_numeral s (pre ++ [c]) major rest (e + 1)) as [D1 S1];
      [list_eq|unfold e; length_eq|assumption|assumption|].
    rewrite D1, S1. cbn [negb].
    rewrite (peek_at s (pre ++ c :: major) rest);
      [|list_eq|unfold e; length_eq].
    destruct (Z.eqb_spec (hd 0 rest) (chr "p")) as [P|P]; cbn [negb].
    + rewrite (peek_at s (pre ++ c :: major ++ [hd 0 rest]) (tl rest));
        [|destruct rest; [discriminate P|list_eq]|unfold e; length_eq].
      rewrite A by auto. cbn [negb t_isa]. length_eq.
    + cbn [t_isa]. length_eq.
  - (* no version *)
    rewrite (peek_at s (pre ++ [c]) rest); [|list_eq|unfold e; length_eq].
    rewrite R. cbn [negb t_isa]. length_eq.
Qed.

Lemma short_token_diags s tok :
  t_ext_end tok = t_ext tok + 1 ->
  token_diags s tok
  = if peek s (t_ext tok) =? chr "h" then [FeatureH] else [].
Proof.
  intros E. unfold token_diags, watch_list, MATCH_EXT.
  replace (t_ext_end tok - t_ext tok) with 1 by lia.
  cbn [flat_map fst snd app].
  replace (1 =? Z.of_nat (List.length (chars "zba"))) with false
    by reflexivity.
  replace (1 =? Z.of_nat (List.length (chars "zihintpause"))) with false
    by reflexivity.
  replace (1 =? Z.of_nat (List.length (chars "zksed"))) with false
    by reflexivity.
  replace (1 =? Z.of_nat (List.length (chars "h"))) with true by reflexivity.
  replace (chars "h") with [chr "h"] by reflexivity.
  cbn [andb memcmp_eq app]. rewrite andb_true_r.
  destruct (peek s (t_ext tok) =? chr "h"); reflexivity.
Qed.

Lemma islower_nonzero c : islower c = true -> c <> 0.
Proof. intros H ->. vm_compute in H. discriminate. Qed.

(** One iteration of the loop on a single-letter token. *)
Lemma scan_step_short s pre t rest u fuel :
  s = pre ++ render t ++ rest ->
  short_token_wf t ->
  isdigit (hd 0 rest) = false ->
  (major_only t = true -> hd 0 rest = chr "p" ->
   isdigit (hd 0 (tl rest)) = false) ->
  scan_loop (S fuel) s (Z.of_nat (List.length pre)) u
  = scan_loop fuel s
      (Z.of_nat (List.length pre) + Z.of_nat (List.length (render t))
       + (if hd 0 rest =? chr "_" then 1 else 0))
      (short_effect (st_letter t) u).
Proof.
  intros Hs W R A.
  destruct (parse_short_render s pre t rest Hs W R A) as (H0 & H1 & H2).
  destruct W as (W & L & _).
  set (e := Z.of_nat (List.length pre)) in *.
  cbn [scan_loop]. rewrite H0.
  destruct (Z.eqb_spec (st_letter t) 0) as [Z0|_];
    [apply islower_nonzero in W; contradiction|].
  assert (P : parse_switch s e = parse_short s e).
  { unfold parse_switch. now rewrite H0, L. }
  rewrite P.
  destruct (parse_short_fields s e) as (F1 & F2 & F3 & F4).
  f_equal.
  - unfold next_isa, body_end. rewrite H1, H2.
    destruct (hd 0 rest =? chr "_"); lia.
  - unfold apply_token, short_effect.
    rewrite F4, F3, F1, H0, W. cbn [negb].
    rewrite short_token_diags by lia. now rewrite F1, H0.
Qed.

Lemma hd_undelimited ts :
  Forall short_token_wf ts ->
  isdigit (hd 0 (undelimited ts)) = false /\
  (hd 0 (undelimited ts) =? chr "_") = false.
Proof.
  intros [|t ts' (W & _) _]; [split; reflexivity|].
  cbn [undelimited render app hd]. split.
  - apply islower_not_digit, W.
  - apply Z.eqb_neq. intros E. rewrite E in W. discriminate W.
Qed.

Lemma unambiguous_next t ts :
  Forall short_token_wf ts ->
  unambiguous (t :: ts) = true ->
  major_only t = true -> hd 0 (undelimited ts) = chr "p" ->
  isdigit (hd 0 (tl (undelimited ts))) = false.
Proof.
  intros W U M P. destruct ts as [|t' ts']; [discriminate P|].
  cbn [unambiguous] in U. apply andb_prop in U. destruct U as [U _].
  rewrite M in U. cbn [andb] in U. apply negb_true_iff in U.
  cbn [undelimited render app hd] in P. unfold versioned_p in U.
  rewrite P, Z.eqb_refl in U. cbn [andb] in U.
  inversion W as [|? ? _ W']; subst.
  unfold undelimited; fold undelimited. unfold render.
  destruct (st_version t'); [discriminate U|].
  cbn [app tl]. apply hd_undelimited, W'.
Qed.

Lemma unambiguous_tail t ts : unambiguous (t :: ts) = true -> unambiguous ts = true.
Proof. cbn [unambiguous]. intros H. apply andb_prop in H. apply H. Qed.

Lemma scan_at_end fuel pre u :
  scan_loop fuel (pre ++ []) (Z.of_nat (List.length pre)) u = Some u.
Proof.
  assert (P : peek (pre ++ []) (Z.of_nat (List.length pre)) = 0)
    by (apply (peek_at _ pre []); reflexivity).
  destruct fuel; cbn [scan_loop]; rewrite P; reflexivity.
Qed.

Lemma scan_undelimited ts :
  Forall short_token_wf ts -> unambiguous ts = true ->
  forall pre u fuel, (List.length ts <= fuel)%nat ->
    scan_loop fuel (pre ++ undelimited ts) (Z.of_nat (List.length pre)) u
    = Some (short_effects ts u).
Proof.
  induction 1 as [|t ts W Ws IH]; intros U pre u fuel F.
  - apply scan_at_end.
  - destruct fuel as [|fuel]; [cbn in F; lia|].
    cbn [undelimited short_effects fold_left].
    rewrite (scan_step_short _ pre t (undelimited ts) u fuel eq_refl W).
    + destruct (hd_undelimited ts Ws) as [_ ->].
      replace (pre ++ render t ++ undelimited ts)
        with ((pre ++ render t) ++ undelimited ts) by list_eq.
      replace (Z.of_nat (List.length pre) + Z.of_nat (List.length (render t)) + 0)
        with (Z.of_nat (List.length (pre ++ render t))) by length_eq.
      apply IH; [eapply unambiguous_tail, U|cbn in F; lia].
    + apply hd_undelimited, Ws.
    + apply unambiguous_next; assumption.
Qed.

Lemma scan_delimited ts :
  Forall short_token_wf ts ->
  forall pre u fuel, (List.length ts <= fuel)%nat ->
    scan_loop fuel (pre ++ delimited ts) (Z.of_nat (List.length pre)) u
    = Some (short_effects ts u).
Proof.
  induction 1 as [|t ts W Ws IH]; intros pre u fuel F.
  - apply scan_at_end.
  - destruct fuel as [|fuel]; [cbn in F; lia|].
    cbn [delimited short_effects fold_left].
    destruct ts as [|t' ts'].
    + rewrite (scan_step_short _ pre t [] u fuel eq_refl W);
        [|reflexivity|discriminate].
      cbn [hd]. replace (0 =? chr "_") with false by reflexivity.
      replace (pre ++ render t ++ []) with ((pre ++ render t) ++ [])
        by list_eq.
      replace (Z.of_nat (List.length pre) + Z.of_nat (List.length (render t)) + 0)
        with (Z.of_nat (List.length (pre ++ render t))) by length_eq.
      apply scan_at_end.
    + rewrite (scan_step_short _ pre t (chr "_" :: delimited (t' :: ts')) u
                 fuel eq_refl W); [|reflexivity|discriminate].
      cbn [hd]. rewrite Z.eqb_refl.
      replace (pre ++ render t ++ chr "_" :: delimited (t' :: ts'))
        with ((pre ++ render t ++ [chr "_"]) ++ delimited (t' :: ts'))
        by list_eq.
      replace (Z.of_nat (List.length pre) + Z.of_nat (List.length (render t)) + 1)
        with (Z.of_nat (List.length (pre ++ render t ++ [chr "_"])))
        by length_eq.
      apply IH. cbn in F |- *. lia.
Qed.

Lemma skip_width_prefix cfg body :
  skip_width cfg (chars (width_prefix cfg) ++ body)
  = Z.of_nat (List.length (chars (width_prefix cfg))).
Proof. destruct cfg; reflexivity. Qed.

Lemma length_undelimited ts :
  (List.length ts <= List.length (undelimited ts))%nat.
Proof.
  induction ts as [|t ts IH]; [reflexivity|].
  cbn [undelimited render app List.length]. rewrite length_app. lia.
Qed.

Lemma length_delimited ts :
  (List.length ts <= List.length (delimited ts))%nat.
Proof.
  induction ts as [|t ts IH]; [reflexivity|].
  cbn [delimited render app List.length]. rewrite length_app.
  destruct ts; [cbn; lia|]. cbn [List.length] in *. lia.
Qed.

(** C8 (as amended).  For every sequence of single-letter tokens (a
    lowercase letter other than s, x, z, optionally followed by a major
    version and then optionally by 'p' and a minor version) in which no
    token with a major version only is directly followed by a versioned
    "p", the string written without delimiters and the string written with
    a '_' between the tokens, each after the width prefix, are parsed to
    the same hart state: every token's letter sets its ISA bit and its
    mapped capability bit. *)
Theorem C8_delimiters_between_short_tokens cfg ts :
  Forall short_token_wf ts ->
  unambiguous ts = true ->
  let pre := chars (width_prefix cfg) in
  exists u,
    parse_chars cfg (pre ++ undelimited ts) = Some u /\
    parse_chars cfg (pre ++ delimited ts) = Some u /\
    u = short_effects ts unit_init.
Proof.
  intros W U pre. exists (short_effects ts unit_init).
  unfold parse_chars, pre. rewrite !skip_width_prefix. repeat split.
  - apply scan_undelimited; auto. rewrite length_app.
    pose proof (length_undelimited ts). lia.
  - apply scan_delimited; auto. rewrite length_app.
    pose proof (length_delimited ts). lia.
Qed.

Lemma C8_witness :
  exists u,
    parse_isa CONFIG_64BIT "rv64i2p0m2ac" = Some u /\
    parse_isa CONFIG_64BIT "rv64i2p0_m2_a_c" = Some u.
Proof.
  destruct (C8_delimiters_between_short_tokens CONFIG_64BIT
              [mkShort (chr "i") (Some (chars "2", Some (chars "0")));
               mkShort (chr "m") (Some (chars "2", None));
               mkShort (chr "a") None; mkShort (chr "c") None])
    as (u & A & B & _).
  - repeat constructor; discriminate.
  - reflexivity.
  - exists u. split; [exact A|exact B].
Defined.

(** C8, as stated, fails on the two tokens "i2" and "p1": written without
    a delimiter, "i2p1" is read as the one token i, version 2.1, and the p
    bit of the ISA bitmap is lost; written "i2_p1" both bits are set. *)
Lemma C8_counterexample :
  let ts := [mkShort (chr "i") (Some (chars "2", None));
             mkShort (chr "p") (Some (chars "1", None))] in
  undelimited ts = chars "i2p1" /\
  delimited ts = chars "i2_p1" /\
  exists u u',
    parse_isa CONFIG_64BIT "rv64i2p1" = Some u /\
    parse_isa CONFIG_64BIT "rv64i2_p1" = Some u' /\
    this_isa u = letter_bit "i" /\
    this_isa u' = Z.lor (letter_bit "i") (letter_bit "p").
Proof.
  split; [reflexivity|]. split; [reflexivity|]. do 2 eexists. evaluate.
Qed.

(* ================================================================== *)
(** * Further properties *)

(** ** The decimal scanner *)

Lemma isdigit_range c : isdigit c = true -> 0 <= c - chr "0" <= 9.
Proof.
  unfold isdigit. rewrite andb_true_iff, !Z.leb_le.
  change (chr "0") with 48. change (chr "9") with 57. lia.
Qed.

Lemma decimal_fold_mono ds : forall v,
  0 <= v -> Forall (fun c => isdigit c = true) ds ->
  v <= fold_left (fun v c => v * 10 + (c - chr "0")) ds v.
Proof.
  induction ds as [|c ds IH]; intros v Hv D; cbn [fold_left]; [lia|].
  inversion D as [|? ? Hc D']; subst. apply isdigit_range in Hc.
  etransitivity; [|apply IH; [lia|assumption]]. lia.
Qed.

Lemma decimal_loop_spec ds rest : forall v,
  ds <> [] -> Forall (fun c => isdigit c = true) ds ->
  isdigit (hd 0 rest) = false -> 0 <= v ->
  decimal_loop (ds ++ rest) v
  = let r := fold_left (fun v c => v * 10 + (c - chr "0")) ds v in
    if r <=? UINT_MAX then inr r else inl ERANGE.
Proof.
  induction ds as [|c ds IH]; intros v N D R Hv; [congruence|].
  inversion D as [|? ? Hc D']; subst. pose proof (isdigit_range c Hc) as Rc.
  cbn [app decimal_loop fold_left]. cbv zeta.
  destruct (Z.gtb_spec v ((UINT_MAX - (c - chr "0")) / 10)) as [G|G].
  - assert (O : UINT_MAX < v * 10 + (c - chr "0")).
    { unfold UINT_MAX in *.
      pose proof (Z.mul_succ_div_gt (4294967295 - (c - chr "0")) 10
                    ltac:(lia)). lia. }
    pose proof (decimal_fold_mono ds (v * 10 + (c - chr "0")) ltac:(lia) D').
    destruct (Z.leb_spec
                (fold_left (fun v c => v * 10 + (c - chr "0")) ds
                           (v * 10 + (c - chr "0"))) UINT_MAX);
      [lia|reflexivity].
  - assert (O : v * 10 + (c - chr "0") <= UINT_MAX).
    { unfold UINT_MAX in *.
      pose proof (Z.mul_div_le (4294967295 - (c - chr "0")) 10 ltac:(lia)).
      lia. }
    destruct ds as [|c' ds].
    + cbn [app fold_left]. rewrite R.
      destruct (Z.leb_spec (v * 10 + (c - chr "0")) UINT_MAX);
        [reflexivity|lia].
    + inversion D' as [|? ? Hc' _]; subst. cbn [app hd]. rewrite Hc'.
      apply (IH (v * 10 + (c - chr "0"))); auto; [discriminate|lia].
Qed.

Lemma decimal_numeral s a ds rest p :
  s = a ++ ds ++ rest -> p = Z.of_nat (List.length a) ->
  numeral ds -> isdigit (hd 0 rest) = false ->
  _decimal_part_to_uint s p = numeral_result ds.
Proof.
  intros Hs Hp [N D] R. unfold _decimal_part_to_uint, numeral_result.
  rewrite (suffix_at s a (ds ++ rest)) by assumption.
  rewrite (peek_at s a (ds ++ rest)) by assumption.
  destruct ds as [|c ds]; [congruence|].
  inversion D as [|? ? Hc _]; subst. cbn [app hd]. rewrite Hc. cbn [negb].
  apply (decimal_loop_spec (c :: ds) rest 0); auto; lia.
Qed.

(** X1.  [_decimal_part_to_uint] fails with EINVAL exactly when it is not
    called on a digit.  Called on the first digit of a numeral (a maximal
    run of digits), it returns the number the numeral denotes when that is
    at most UINT_MAX, and fails with ERANGE when the numeral denotes more:
    the overflow test is exact and the accumulator never wraps. *)
Theorem X1_decimal_part_to_uint s p :
  (_decimal_part_to_uint s p = inl EINVAL <-> isdigit (peek s p) = false) /\
  (forall a ds rest,
     s = a ++ ds ++ rest -> p = Z.of_nat (List.length a) ->
     numeral ds -> isdigit (hd 0 rest) = false ->
     _decimal_part_to_uint s p
     = if decimal_value ds <=? UINT_MAX then inr (decimal_value ds)
       else inl ERANGE).
Proof.
  split.
  - unfold _decimal_part_to_uint.
    destruct (isdigit (peek s p)) eqn:D; cbn [negb]; [|tauto].
    split; [|discriminate]. intros H. exfalso.
    assert (Hp : 0 <= p < Z.of_nat (List.length s))
      by (apply peek_nonzero_range, isdigit_nonzero, D).
    rewrite peek_suffix in D by lia.
    destruct (suffix s p) as [|c l]; [discriminate D|].
    cbn [hd] in D. cbn [decimal_loop] in H.
    destruct (0 >? (UINT_MAX - (c - chr "0")) / 10) eqn:G.
    + apply isdigit_range in D. unfold UINT_MAX in G.
      assert (0 <= (4294967295 - (c - chr "0")) / 10)
        by (apply Z.div_pos; lia).
      lia.
    + cbv zeta in H.
      assert (NE : forall l v, decimal_loop l v <> inl EINVAL).
      { clear. induction l as [|c l IH]; intros v; cbn [decimal_loop];
          [discriminate|].
        destruct (v >? _); [discriminate|]. cbv zeta.
        destruct (isdigit (hd 0 l)); [apply IH|discriminate]. }
      destruct (isdigit (hd 0 l)); [eapply NE, H|discriminate H].
  - intros a ds rest Hs Hp ND R. now apply (decimal_numeral s a ds rest p).
Qed.

Lemma X1_witness :
  _decimal_part_to_uint (chars "zba4294967295_") 3 = inr 4294967295 /\
  _decimal_part_to_uint (chars "zba4294967296_") 3 = inl ERANGE.
Proof.
  split.
  - apply (proj2 (X1_decimal_part_to_uint (chars "zba4294967295_") 3)
             (chars "zba") (chars "4294967295") (chars "_"));
      [reflexivity|reflexivity|split; [discriminate|]|reflexivity].
    repeat constructor.
  - apply (proj2 (X1_decimal_part_to_uint (chars "zba4294967296_") 3)
             (chars "zba") (chars "4294967296") (chars "_"));
      [reflexivity|reflexivity|split; [discriminate|]|reflexivity].
    repeat constructor.
Defined.

(** ** The extent of a token *)

Lemma digit_run_stops l : forall i,
  isdigit (nth i l 0) = false -> digit_run l <= Z.of_nat i.
Proof.
  induction l as [|c l IH]; intros i H; cbn [digit_run]; [lia|].
  destruct i as [|i]; cbn [nth] in H.
  - rewrite H. lia.
  - destruct (isdigit c); [|lia]. specialize (IH i H). lia.
Qed.

Lemma before_nth s q i :
  0 <= i < q -> q <= Z.of_nat (List.length s) ->
  nth (Z.to_nat i) (before s q) 0 = peek s (q - 1 - i).
Proof.
  intros Hi Hq. unfold before, peek.
  destruct (q <? 0) eqn:E; [apply Z.ltb_lt in E; lia|].
  destruct (q - 1 - i <? 0) eqn:E'; [apply Z.ltb_lt in E'; lia|].
  assert (L : List.length (firstn (Z.to_nat q) s) = Z.to_nat q)
    by (apply firstn_length_le; lia).
  rewrite rev_nth by lia. rewrite L, nth_firstn.
  replace (Z.to_nat q - S (Z.to_nat i))%nat with (Z.to_nat (q - 1 - i)) by lia.
  destruct (Nat.ltb_spec (Z.to_nat (q - 1 - i)) (Z.to_nat q)); [reflexivity|lia].
Qed.

(** Scanning digits backwards from [q] stops at the latest on a character
    [e < q] that is not a digit. *)
Lemma skip_digits_back_bounds s e q :
  0 <= e < q -> q <= Z.of_nat (List.length s) ->
  isdigit (peek s e) = false ->
  e <= skip_digits_back s q < q.
Proof.
  intros He Hq D. unfold skip_digits_back.
  pose proof (digit_run_bounds (before s q)).
  assert (digit_run (before s q) <= Z.of_nat (Z.to_nat (q - 1 - e))).
  { apply digit_run_stops. rewrite before_nth by lia.
    replace (q - 1 - (q - 1 - e)) with e by lia. exact D. }
  lia.
Qed.

Lemma long_prefix_not_digit c : long_prefix c = true -> isdigit c = false.
Proof.
  unfold long_prefix. rewrite !orb_true_iff, !Z.eqb_eq.
  intros [[-> | ->] | ->]; reflexivity.
Qed.

Lemma long_prefix_not_p c : long_prefix c = true -> (c =? chr "p") = false.
Proof.
  unfold long_prefix. rewrite !orb_true_iff, !Z.eqb_eq.
  intros [[-> | ->] | ->]; reflexivity.
Qed.

Lemma parse_long_ext_end s e :
  peek s e <> 0 -> long_prefix (peek s e) = true ->
  e + 1 <= t_ext_end (parse_long s e).
Proof.
  intros N L. pose proof (parse_long_isa s e N) as B.
  rewrite parse_long_isa_eq in B.
  apply peek_nonzero_range in N.
  pose proof (long_prefix_not_digit _ L) as D.
  unfold parse_long in *.
  destruct (long_run (suffix s (e + 1))) as [n err]. cbn [fst] in B.
  destruct err; cbn [t_ext_end]; [lia|].
  destruct (negb (isdigit (peek s (e + 1 + n - 1)))) eqn:D1;
    cbn [t_ext_end]; [lia|].
  assert (Hn : 0 < n).
  { destruct (Z.eq_dec n 0) as [->|]; [|lia].
    replace (e + 1 + 0 - 1) with e in D1 by lia. rewrite D in D1.
    discriminate. }
  pose proof (skip_digits_back_bounds s e (e + 1 + n) ltac:(lia) ltac:(lia) D)
    as B1.
  destruct (peek s (skip_digits_back s (e + 1 + n)) =? chr "p") eqn:P;
    cbn [andb negb t_ext_end]; [|lia].
  destruct (isdigit (peek s (skip_digits_back s (e + 1 + n) - 1)));
    cbn [negb t_ext_end]; [|lia].
  assert (e < skip_digits_back s (e + 1 + n)).
  { destruct (Z.eq_dec (skip_digits_back s (e + 1 + n)) e) as [E|]; [|lia].
    rewrite E, (long_prefix_not_p _ L) in P. discriminate. }
  pose proof (skip_digits_back_bounds s e (skip_digits_back s (e + 1 + n))
                ltac:(lia) ltac:(lia) D).
  lia.
Qed.

(** X2.  In every iteration of the scanning loop the name of the token is
    not empty and lies inside the part of the string the iteration went
    through: [ext < ext_end <= isa <= end of string].  In particular the
    two backward scans of a multi-letter token for its version never go
    past the first character of the token. *)
Theorem X2_token_extent s e :
  peek s e <> 0 ->
  let t := parse_switch s e in
  t_ext t = e /\
  e + 1 <= t_ext_end t /\ t_ext_end t <= t_isa t /\
  t_isa t <= Z.of_nat (List.length s) /\
  List.length (token_name s t) = Z.to_nat (t_ext_end t - e) /\
  token_name s t <> [].
Proof.
  intros N t.
  assert (B : t_ext t = e /\ e + 1 <= t_ext_end t /\ t_ext_end t <= t_isa t /\
              t_isa t <= Z.of_nat (List.length s)).
  { pose proof (parse_switch_isa s e N) as I.
    unfold t in *. unfold parse_switch in *.
    destruct (long_prefix (peek s e)) eqn:L.
    - pose proof (parse_long_fields s e) as (F1 & _ & _ & F4).
      pose proof (parse_long_ext_end s e N L). repeat split; lia.
    - destruct (parse_short_fields s e) as (F1 & F2 & _). repeat split; lia. }
  destruct B as (B1 & B2 & B3 & B4). repeat split; try assumption.
  - unfold token_name. rewrite B1, length_firstn.
    apply peek_nonzero_range in N.
    pose proof (suffix_length s e ltac:(lia)). lia.
  - unfold token_name. rewrite B1. apply peek_nonzero_range in N.
    pose proof (suffix_length s e ltac:(lia)) as SL.
    destruct (suffix s e) as [|c l] eqn:S; [cbn in SL; lia|].
    destruct (Z.to_nat (t_ext_end t - e)) eqn:Zn; [lia|]. discriminate.
Qed.

Lemma X2_witness :
  let s := chars "rv64imac_zba1p0" in
  peek s 9 <> 0 /\
  (let t := parse_switch s 9 in
   t_ext t = 9 /\
   9 + 1 <= t_ext_end t /\ t_ext_end t <= t_isa t /\
   t_isa t <= Z.of_nat (List.length s) /\
   List.length (token_name s t) = Z.to_nat (t_ext_end t - 9) /\
   token_name s t <> []).
Proof.
  intros s.
  assert (N : peek s 9 <> 0) by (vm_compute; discriminate).
  exact (conj N (X2_token_extent s 9 N)).
Defined.

(** ** Locality of the scan *)

Section Shift.
Variable pre l : list Z.

Lemma peek_shift p : 0 <= p -> peek (pre ++ l) ((Z.of_nat (List.length pre)) + p) = peek l p.
Proof.
  intros Hp. unfold peek.
  destruct (Z.of_nat (List.length pre) + p <? 0) eqn:E;
    [apply Z.ltb_lt in E; lia|].
  destruct (p <? 0) eqn:E'; [apply Z.ltb_lt in E'; lia|].
  replace (Z.to_nat (Z.of_nat (List.length pre) + p))
    with (List.length pre + Z.to_nat p)%nat by lia.
  apply app_nth2_plus.
Qed.

Lemma suffix_shift p : 0 <= p -> suffix (pre ++ l) ((Z.of_nat (List.length pre)) + p) = suffix l p.
Proof.
  intros Hp. unfold suffix.
  destruct (Z.of_nat (List.length pre) + p <? 0) eqn:E;
    [apply Z.ltb_lt in E; lia|].
  destruct (p <? 0) eqn:E'; [apply Z.ltb_lt in E'; lia|].
  replace (Z.to_nat (Z.of_nat (List.length pre) + p))
    with (List.length pre + Z.to_nat p)%nat by lia.
  rewrite skipn_app, skipn_all2 by lia.
  replace (List.length pre + Z.to_nat p - List.length pre)%nat
    with (Z.to_nat p) by lia.
  reflexivity.
Qed.

Lemma before_shift p : 0 <= p -> before (pre ++ l) ((Z.of_nat (List.length pre)) + p) = before l p ++ rev pre.
Proof.
  intros Hp. unfold before.
  destruct (Z.of_nat (List.length pre) + p <? 0) eqn:E;
    [apply Z.ltb_lt in E; lia|].
  destruct (p <? 0) eqn:E'; [apply Z.ltb_lt in E'; lia|].
  replace (Z.to_nat (Z.of_nat (List.length pre) + p))
    with (List.length pre + Z.to_nat p)%nat by lia.
  rewrite firstn_app, firstn_all2 by lia.
  replace (List.length pre + Z.to_nat p - List.length pre)%nat
    with (Z.to_nat p) by lia.
  apply rev_app_distr.
Qed.

Lemma decimal_shift p :
  0 <= p -> _decimal_part_to_uint (pre ++ l) ((Z.of_nat (List.length pre)) + p) = _decimal_part_to_uint l p.
Proof.
  intros Hp. unfold _decimal_part_to_uint.
  now rewrite peek_shift, suffix_shift.
Qed.

Lemma skip_digits_fwd_shift p :
  0 <= p + 1 -> skip_digits_fwd (pre ++ l) ((Z.of_nat (List.length pre)) + p) = (Z.of_nat (List.length pre)) + skip_digits_fwd l p.
Proof.
  intros Hp. unfold skip_digits_fwd.
  replace ((Z.of_nat (List.length pre)) + p + 1) with ((Z.of_nat (List.length pre)) + (p + 1)) by lia.
  rewrite suffix_shift by assumption. lia.
Qed.

Lemma digit_run_app_left a b :
  digit_run a < Z.of_nat (List.length a) -> digit_run (a ++ b) = digit_run a.
Proof.
  induction a as [|c a IH]; cbn [digit_run List.length app]; [lia|].
  rewrite Nat2Z.inj_succ. destruct (isdigit c); [|reflexivity].
  intros H. rewrite IH by lia. reflexivity.
Qed.

Lemma skip_digits_back_shift e q :
  0 <= e < q -> q <= Z.of_nat (List.length l) ->
  isdigit (peek l e) = false ->
  skip_digits_back (pre ++ l) ((Z.of_nat (List.length pre)) + q) = (Z.of_nat (List.length pre)) + skip_digits_back l q.
Proof.
  intros He Hq D.
  pose proof (skip_digits_back_bounds l e q He Hq D) as B.
  unfold skip_digits_back in *. rewrite before_shift by lia.
  rewrite digit_run_app_left; [lia|].
  unfold before. destruct (q <? 0) eqn:E; [apply Z.ltb_lt in E; lia|].
  rewrite length_rev, firstn_length_le by lia.
  unfold before in B. rewrite E in B. lia.
Qed.

Lemma memcmp_shift name : forall p,
  0 <= p -> memcmp_eq (pre ++ l) ((Z.of_nat (List.length pre)) + p) name = memcmp_eq l p name.
Proof.
  induction name as [|c name IH]; intros p Hp; cbn [memcmp_eq]; [reflexivity|].
  rewrite peek_shift by assumption.
  replace ((Z.of_nat (List.length pre)) + p + 1) with ((Z.of_nat (List.length pre)) + (p + 1)) by lia.
  rewrite IH by lia. reflexivity.
Qed.

Lemma parse_short_shift e :
  0 <= e -> parse_short (pre ++ l) ((Z.of_nat (List.length pre)) + e) = shift_token (Z.of_nat (List.length pre)) (parse_short l e).
Proof.
  intros He. unfold parse_short. cbv zeta beta.
  replace ((Z.of_nat (List.length pre)) + e + 1) with ((Z.of_nat (List.length pre)) + (e + 1)) by lia.
  rewrite !peek_shift, !decimal_shift, !skip_digits_fwd_shift by lia.
  pose proof (skip_digits_fwd_bounds l (e + 1) ltac:(lia)) as B.
  set (x := skip_digits_fwd l (e + 1)) in *.
  replace ((Z.of_nat (List.length pre)) + x + 1) with ((Z.of_nat (List.length pre)) + (x + 1)) by lia.
  rewrite !peek_shift, !decimal_shift, !skip_digits_fwd_shift by lia.
  repeat match goal with
         | |- context [if ?b then _ else _] => destruct b
         end;
    unfold shift_token; cbn [t_ext t_isa t_ext_end ext_major ext_minor
                             ext_long ext_err ext_err_ver];
    f_equal; lia.
Qed.

Lemma parse_long_shift e :
  peek l e <> 0 -> long_prefix (peek l e) = true ->
  parse_long (pre ++ l) ((Z.of_nat (List.length pre)) + e) = shift_token (Z.of_nat (List.length pre)) (parse_long l e).
Proof.
  intros N L. pose proof (long_prefix_not_digit _ L) as D.
  pose proof (long_prefix_not_p _ L) as NP.
  apply peek_nonzero_range in N.
  pose proof (long_run_bounds (suffix l (e + 1))) as B.
  rewrite suffix_length in B by lia.
  unfold parse_long.
  replace ((Z.of_nat (List.length pre)) + e + 1) with ((Z.of_nat (List.length pre)) + (e + 1)) by lia.
  rewrite suffix_shift by lia.
  destruct (long_run (suffix l (e + 1))) as [m err]. cbn [fst] in B.
  set (q := e + 1 + m).
  replace ((Z.of_nat (List.length pre)) + (e + 1) + m) with ((Z.of_nat (List.length pre)) + q) by (unfold q; lia).
  destruct err; [unfold shift_token; cbn; f_equal; lia|].
  replace ((Z.of_nat (List.length pre)) + q - 1) with ((Z.of_nat (List.length pre)) + (q - 1)) by lia.
  rewrite peek_shift by (unfold q; lia).
  destruct (isdigit (peek l (q - 1))) eqn:D1; cbn [negb];
    [|unfold shift_token; cbn; f_equal; lia].
  assert (Hq : e < q <= Z.of_nat (List.length l)).
  { unfold q in *. destruct (Z.eq_dec m 0) as [->|]; [|lia].
    replace (e + 1 + 0 - 1) with e in D1 by lia. congruence. }
  rewrite (skip_digits_back_shift e q) by (assumption || lia).
  pose proof (skip_digits_back_bounds l e q ltac:(lia) ltac:(lia) D) as By.
  set (y := skip_digits_back l q) in *.
  rewrite peek_shift by lia.
  replace ((Z.of_nat (List.length pre)) + y + 1) with ((Z.of_nat (List.length pre)) + (y + 1)) by lia.
  rewrite decimal_shift by lia.
  assert (V : (peek l y =? chr "p") && isdigit (peek (pre ++ l) ((Z.of_nat (List.length pre)) + y - 1))
              = (peek l y =? chr "p") && isdigit (peek l (y - 1))).
  { destruct (Z.eq_dec y e) as [->|Ne].
    - rewrite NP. reflexivity.
    - replace ((Z.of_nat (List.length pre)) + y - 1) with ((Z.of_nat (List.length pre)) + (y - 1)) by lia.
      rewrite peek_shift by lia. reflexivity. }
  rewrite V.
  destruct (peek l y =? chr "p") eqn:P; cbn [andb negb];
    [|unfold shift_token; cbn; f_equal; lia].
  destruct (isdigit (peek l (y - 1))) eqn:D2; cbn [negb];
    [|unfold shift_token; cbn; f_equal; lia].
  assert (Hy : e < y).
  { destruct (Z.eq_dec y e) as [E|]; [|lia]. rewrite E in P. congruence. }
  rewrite (skip_digits_back_shift e y) by (assumption || lia).
  pose proof (skip_digits_back_bounds l e y ltac:(lia) ltac:(lia) D) as Bz.
  set (z := skip_digits_back l y) in *.
  replace ((Z.of_nat (List.length pre)) + z + 1) with ((Z.of_nat (List.length pre)) + (z + 1)) by lia.
  rewrite decimal_shift by lia.
  unfold shift_token; cbn; f_equal; lia.
Qed.

Lemma parse_switch_shift e :
  peek l e <> 0 ->
  parse_switch (pre ++ l) ((Z.of_nat (List.length pre)) + e) = shift_token (Z.of_nat (List.length pre)) (parse_switch l e).
Proof.
  intros N. pose proof (peek_nonzero_range _ _ N) as R.
  unfold parse_switch. rewrite peek_shift by lia.
  destruct (long_prefix (peek l e)) eqn:L.
  - apply parse_long_shift; assumption.
  - apply parse_short_shift. lia.
Qed.

Lemma scan_loop_shift fuel : forall e u,
  0 <= e ->
  scan_loop fuel (pre ++ l) ((Z.of_nat (List.length pre)) + e) u = scan_loop fuel l e u.
Proof.
  induction fuel as [|fuel IH]; intros e u He; cbn [scan_loop];
    rewrite peek_shift by assumption; [reflexivity|].
  destruct (Z.eqb_spec (peek l e) 0) as [|N]; [reflexivity|].
  rewrite parse_switch_shift by assumption.
  pose proof (next_isa_bounds l e N) as B.
  pose proof (parse_switch_ext l e) as X.
  pose proof (parse_switch_isa l e N) as E1.
  pose proof (peek_nonzero_range l e N) as E2.
  set (t := parse_switch l e) in *.
  assert (NX : next_isa (pre ++ l) (shift_token (Z.of_nat (List.length pre)) t) = (Z.of_nat (List.length pre)) + next_isa l t).
  { unfold next_isa, body_end. cbn [shift_token t_isa].
    rewrite peek_shift by lia. destruct (peek l (t_isa t) =? chr "_"); lia. }
  assert (AP : apply_token (pre ++ l) (shift_token (Z.of_nat (List.length pre)) t) u = apply_token l t u).
  { unfold apply_token. cbn [shift_token ext_err ext_long t_ext].
    rewrite peek_shift by lia.
    replace (token_diags (pre ++ l) (shift_token (Z.of_nat (List.length pre)) t)) with (token_diags l t);
      [reflexivity|].
    unfold token_diags. apply flat_map_ext. intros [name d].
    unfold MATCH_EXT. cbn [shift_token t_ext t_ext_end fst snd].
    rewrite memcmp_shift by lia.
    replace ((Z.of_nat (List.length pre)) + t_ext_end t - ((Z.of_nat (List.length pre)) + t_ext t)) with (t_ext_end t - t_ext t)
      by lia.
    reflexivity. }
  rewrite NX, AP. apply IH. lia.
Qed.
End Shift.

Lemma scan_loop_fuel_mono fuel s : forall e u r,
  scan_loop fuel s e u = Some r ->
  forall fuel', (fuel <= fuel')%nat -> scan_loop fuel' s e u = Some r.
Proof.
  induction fuel as [|fuel IH]; intros e u r H fuel' F.
  - cbn [scan_loop] in H. destruct (peek s e =? 0) eqn:P; [|discriminate].
    destruct fuel'; cbn [scan_loop]; rewrite P; exact H.
  - destruct fuel' as [|fuel']; [lia|]. cbn [scan_loop] in *.
    destruct (peek s e =? 0); [exact H|]. apply (IH _ _ _ H). lia.
Qed.

Lemma parse_chars_prefix cfg body :
  parse_chars cfg (chars (width_prefix cfg) ++ body)
  = scan_loop (List.length body) body 0 unit_init.
Proof.
  unfold parse_chars. rewrite skip_width_prefix.
  replace (Z.of_nat (List.length (chars (width_prefix cfg))))
    with (Z.of_nat (List.length (chars (width_prefix cfg))) + 0) by lia.
  rewrite scan_loop_shift by lia.
  destruct (scan_loop_total (List.length body) body 0 unit_init)
    as [r Hr]; [lia|lia|].
  rewrite Hr. apply (scan_loop_fuel_mono _ _ _ _ _ Hr).
  rewrite length_app. lia.
Qed.

(** X3.  The scan is local: scanning [pre ++ l] from the first character
    of [l] (or from any later cursor) gives what scanning [l] alone gives
    from the same place, whatever [pre] is; no iteration reads a character
    before its own token.  Hence the parse of a string that starts with the
    configured width prefix is the scan of the rest of the string. *)
Theorem X3_scan_locality :
  (forall pre l fuel e u,
     0 <= e ->
     scan_loop fuel (pre ++ l) (Z.of_nat (List.length pre) + e) u
     = scan_loop fuel l e u) /\
  (forall cfg body,
     parse_chars cfg (chars (width_prefix cfg) ++ body)
     = scan_loop (List.length body) body 0 unit_init).
Proof.
  split.
  - intros. apply scan_loop_shift. assumption.
  - apply parse_chars_prefix.
Qed.

Lemma X3_witness :
  scan_loop 20 (chars "rv64imac_" ++ chars "zba1p0_h") (9 + 0) unit_init
  = scan_loop 20 (chars "zba1p0_h") 0 unit_init.
Proof.
  exact (proj1 X3_scan_locality (chars "rv64imac_") (chars "zba1p0_h")
               20%nat 0 unit_init ltac:(lia)).
Defined.

(** ** Characters that start no token *)

Lemma not_lower_not_long c : islower c = false -> long_prefix c = false.
Proof.
  intros H. destruct (long_prefix c) eqn:L; [|reflexivity].
  unfold long_prefix in L. rewrite !orb_true_iff, !Z.eqb_eq in L.
  destruct L as [[-> | ->] | ->]; discriminate H.
Qed.

Lemma scan_non_token c l u fuel :
  c <> 0 -> islower c = false ->
  scan_loop (S fuel) (c :: l) 0 u
  = scan_loop fuel (if hd 0 l =? chr "_" then tl l else l) 0 u.
Proof.
  intros N W. cbn [scan_loop]. change (peek (c :: l) 0) with c.
  destruct (Z.eqb_spec c 0); [contradiction|].
  unfold parse_switch. change (peek (c :: l) 0) with c.
  rewrite (not_lower_not_long c W).
  unfold parse_short. change (peek (c :: l) 0) with c. rewrite W.
  cbn [negb]. unfold apply_token, next_isa, body_end.
  cbn [ext_err t_isa].
  assert (P : peek (c :: l) (0 + 1) = hd 0 l) by (destruct l; reflexivity).
  rewrite P. destruct (hd 0 l =? chr "_") eqn:U.
  - destruct l as [|d l]; [discriminate U|]. cbn [tl].
    apply (scan_loop_shift [c; d] l fuel 0 u). lia.
  - apply (scan_loop_shift [c] l fuel 0 u). lia.
Qed.

(** X4.  A character that is not a lowercase letter cannot start a token:
    met at a token boundary it is passed over, together with a '_' that
    directly follows it, without any effect on the hart's state, and the
    scan goes on with the rest of the string.  (Uppercase letters, digits,
    stray delimiters and any other symbol are absorbed this way.) *)
Theorem X4_non_token_character c l u fuel :
  c <> 0 -> islower c = false ->
  scan_loop (S fuel) (c :: l) 0 u
  = scan_loop fuel (if hd 0 l =? chr "_" then tl l else l) 0 u.
Proof. apply scan_non_token. Qed.

Lemma X4_witness :
  scan_loop 9 (chars "I_mac") 0 unit_init = scan_loop 8 (chars "mac") 0 unit_init.
Proof.
  exact (X4_non_token_character (chr "I") (chars "_mac") unit_init 8
           ltac:(discriminate) eq_refl).
Defined.

(** ** What one hart's words can hold *)

Lemma legacy_lower_bit c :
  In c legacy_lower ->
  isa2hwcap c = Z.shiftl 1 (c - chr "a") /\ 0 <= c - chr "a" /\
  Z.testbit legacy_mask (c - chr "a") = true.
Proof.
  unfold legacy_lower. cbn [chars map list_ascii_of_string In]. intros H.
  repeat (destruct H as [<-|H];
          [split; [reflexivity|split; [vm_compute; discriminate|reflexivity]]|]).
  destruct H.
Qed.

Lemma legacy_mask_bits k :
  0 <= k -> Z.testbit legacy_mask k = true ->
  In (chr "a" + k) legacy_lower.
Proof.
  intros Hk H.
  assert (B : k < 13).
  { destruct (Z_lt_ge_dec k 13) as [|G]; [assumption|].
    rewrite Z.bits_above_log2 in H; [discriminate| |].
    - vm_compute. discriminate.
    - replace (Z.log2 legacy_mask) with 12 by reflexivity. lia. }
  assert (C : k = 0 \/ k = 1 \/ k = 2 \/ k = 3 \/ k = 4 \/ k = 5 \/ k = 6 \/
              k = 7 \/ k = 8 \/ k = 9 \/ k = 10 \/ k = 11 \/ k = 12) by lia.
  repeat (destruct C as [-> | C]; [try discriminate H; vm_compute; tauto|]).
  subst. vm_compute. tauto.
Qed.

Lemma short_token_letter s e :
  ext_err (parse_switch s e) = false -> ext_long (parse_switch s e) = false ->
  short_letter (peek s e) = true.
Proof.
  rewrite parse_switch_long. unfold parse_switch. intros E L. rewrite L in E.
  destruct (parse_short_fields s e) as (_ & _ & _ & F). rewrite F in E.
  unfold short_letter. rewrite L. apply negb_false_iff in E. now rewrite E.
Qed.

Lemma short_letter_range c :
  short_letter c = true -> 0 <= c - chr "a" < NUM_ALPHA_EXTS.
Proof.
  unfold short_letter, islower. rewrite !andb_true_iff, !Z.leb_le.
  change NUM_ALPHA_EXTS with 26. change (chr "a") with 97.
  change (chr "z") with 122. lia.
Qed.

Lemma small_from_bits x n :
  0 <= n -> (forall k, n <= k -> Z.testbit x k = false) -> 0 <= x < 2 ^ n.
Proof.
  intros Hn H.
  assert (P : 0 <= x).
  { apply Z.bits_iff_nonneg_ex. exists n. intros m Hm. apply H. lia. }
  assert (E : x = x mod 2 ^ n).
  { apply Z.bits_inj'. intros k Hk. destruct (Z_lt_ge_dec k n).
    - now rewrite Z.mod_pow2_bits_low.
    - rewrite Z.mod_pow2_bits_high by lia. apply H. lia. }
  rewrite E. apply Z.mod_pos_bound. apply Z.pow_pos_nonneg; lia.
Qed.

Lemma unit_words_chars cfg s :
  exists u,
    parse_chars cfg s = Some u /\
    (forall k, Z.testbit (this_isa u) k = true ->
       exists c, short_letter c = true /\ k = c - chr "a") /\
    0 <= this_isa u < 2 ^ NUM_ALPHA_EXTS /\
    this_hwcap u = Z.land (this_isa u) legacy_mask.
Proof.
  pose proof (skip_width_bounds cfg s) as SW.
  destruct (scan_loop_total (List.length s) s (skip_width cfg s) unit_init)
    as [u Hu]; [lia|lia|].
  exists u. split; [exact Hu|]. apply scan_loop_tokens in Hu.
  set (toks := scan_tokens (List.length s) s (skip_width cfg s)) in *.
  assert (TK : forall t, In t toks -> t = parse_switch s (t_ext t)).
  { intros t Ht. apply (scan_tokens_In _ _ _ _ Ht). }
  assert (HI : forall k, Z.testbit (this_isa u) k = true <->
             exists t, In t toks /\ ext_err t = false /\ ext_long t = false /\
               Z.testbit (Z.shiftl 1 (peek s (t_ext t) - chr "a")) k = true).
  { intros k. rewrite Hu, run_isa_bit. cbn [unit_init this_isa].
    rewrite Z.bits_0. split; [intros [H|H]; [discriminate|exact H]|auto]. }
  assert (HW : forall k, Z.testbit (this_hwcap u) k = true <->
             exists t, In t toks /\ ext_err t = false /\
                       Z.testbit (isa2hwcap (peek s (t_ext t))) k = true).
  { intros k. rewrite Hu, run_hwcap_bit. cbn [unit_init this_hwcap].
    rewrite Z.bits_0. split; [intros [H|H]; [discriminate|exact H]|auto]. }
  assert (SL : forall t, In t toks -> ext_err t = false -> ext_long t = false ->
               short_letter (peek s (t_ext t)) = true).
  { intros t Ht E L. rewrite (TK t Ht) in E, L.
    apply short_token_letter; assumption. }
  assert (BIT : forall c k, short_letter c = true ->
                Z.testbit (Z.shiftl 1 (c - chr "a")) k = true -> k = c - chr "a").
  { intros c k Hc B. apply short_letter_range in Hc.
    rewrite Z.shiftl_1_l, Z.pow2_bits_eqb in B by lia.
    apply Z.eqb_eq in B. lia. }
  assert (L1 : forall k, Z.testbit (this_isa u) k = true ->
               exists c, short_letter c = true /\ k = c - chr "a").
  { intros k Hk. apply HI in Hk. destruct Hk as (t & Ht & E & L & B).
    exists (peek s (t_ext t)). split; [apply SL; assumption|].
    apply BIT; [apply SL|]; assumption. }
  split; [exact L1|]. split.
  - apply small_from_bits; [vm_compute; discriminate|].
    intros k Hk. destruct (Z.testbit (this_isa u) k) eqn:B; [|reflexivity].
    apply L1 in B. destruct B as (c & Hc & ->).
    apply short_letter_range in Hc. lia.
  - apply Z.bits_inj'. intros k Hk. rewrite Z.land_spec.
    apply eq_iff_eq_true. rewrite andb_true_iff, HW, HI. split.
    + intros (t & Ht & E & B).
      destruct (isa2hwcap_nonzero (peek s (t_ext t))) as [G|G].
      * eapply testbit_true_nonzero, B.
      * destruct (legacy_lower_token s (t_ext t) G) as (_ & L & _).
        rewrite <- (TK t Ht) in L.
        destruct (legacy_lower_bit _ G) as (Ec & Pc & Mc).
        rewrite Ec in B.
        assert (k = peek s (t_ext t) - chr "a")
          by (apply BIT; [apply SL|]; assumption).
        subst k. split; [|exact Mc]. exists t. auto.
      * apply legacy_upper_token in G. rewrite <- (TK t Ht) in G. congruence.
    + intros [(t & Ht & E & L & B) M].
      assert (k = peek s (t_ext t) - chr "a")
        by (apply BIT; [apply SL|]; assumption).
      apply legacy_mask_bits in M; [|assumption].
      replace (chr "a" + k) with (peek s (t_ext t)) in M by lia.
      destruct (legacy_lower_bit _ M) as (Ec & _ & _).
      exists t. repeat split; try assumption. rewrite Ec. exact B.
Qed.

Lemma unit_words_spec cfg isa :
  exists u,
    parse_isa cfg isa = Some u /\
    (forall k, Z.testbit (this_isa u) k = true ->
       exists c, short_letter c = true /\ k = c - chr "a") /\
    0 <= this_isa u < 2 ^ NUM_ALPHA_EXTS /\
    this_hwcap u = Z.land (this_isa u) legacy_mask.
Proof. apply unit_words_chars. Qed.

(** X5.  For every "riscv,isa" string the hart's ISA word only holds bits
    of letters that make single-letter tokens (lowercase, not s, x or z),
    so it is below 2^26; and the hart's capability mask is exactly its ISA
    word restricted to the six legacy bits. *)
Theorem X5_unit_words cfg isa :
  exists u,
    parse_isa cfg isa = Some u /\
    (forall k, Z.testbit (this_isa u) k = true ->
       exists c, short_letter c = true /\ k = c - chr "a") /\
    0 <= this_isa u < 2 ^ NUM_ALPHA_EXTS /\
    this_hwcap u = Z.land (this_isa u) legacy_mask.
Proof. apply unit_words_spec. Qed.

(** ** The loop over the cpu nodes *)

Lemma nodes_loop_closed cfg nodes : forall h,
  nodes_loop cfg h nodes
  = Some (mkHw (fold_left fold_word (map this_hwcap (unit_results cfg nodes))
                          (elf_hwcap h))
               (fold_left fold_word (map this_isa (unit_results cfg nodes))
                          (riscv_isa h))
               (cpu_hwcap_fpu h)
               (hw_log h ++ flat_map (node_log cfg) nodes)).
Proof.
  induction nodes as [|n nodes IH]; intros h.
  - cbn. rewrite app_nil_r. destruct h; reflexivity.
  - rewrite unit_results_cons. cbn [nodes_loop flat_map].
    unfold node_step, node_log at 1, unit_results at 1 3. cbn [flat_map].
    destruct (hartid n <? 0).
    + cbn [app]. apply IH.
    + destruct (riscv_isa_prop n) as [isa|].
      * destruct (parse_isa_total cfg isa) as [u Hu]. rewrite Hu.
        rewrite IH. cbn [app map fold_left elf_hwcap riscv_isa cpu_hwcap_fpu
                         hw_log]. now rewrite <- app_assoc.
      * rewrite IH. cbn [app elf_hwcap riscv_isa cpu_hwcap_fpu hw_log].
        now rewrite <- app_assoc.
Qed.

Lemma fill_closed cfg nodes :
  riscv_fill_hwcap cfg nodes
  = Some (finish (mkHw (aggregate (map this_hwcap (unit_results cfg nodes)))
                       (aggregate (map this_isa (unit_results cfg nodes)))
                       false
                       (flat_map (node_log cfg) nodes))).
Proof. unfold riscv_fill_hwcap. now rewrite nodes_loop_closed. Qed.

Lemma unit_results_contributes cfg nodes :
  unit_results cfg (filter contributes nodes) = unit_results cfg nodes.
Proof.
  induction nodes as [|n nodes IH]; [reflexivity|].
  cbn [filter]. unfold contributes at 1.
  rewrite (unit_results_cons cfg n nodes).
  destruct (hartid n <? 0) eqn:H; cbn [negb andb].
  - rewrite IH. unfold unit_results at 2. cbn [flat_map]. now rewrite H.
  - destruct (riscv_isa_prop n) eqn:P.
    + rewrite unit_results_cons, IH. reflexivity.
    + rewrite IH. unfold unit_results at 2. cbn [flat_map]. now rewrite H, P.
Qed.

Lemma unit_results_usable cfg nodes :
  unit_results cfg (filter (fun n => negb (hartid n <? 0)) nodes)
  = unit_results cfg nodes.
Proof.
  induction nodes as [|n nodes IH]; [reflexivity|]. cbn [filter].
  rewrite (unit_results_cons cfg n nodes).
  destruct (hartid n <? 0) eqn:H; cbn [negb].
  - rewrite IH. unfold unit_results at 2. cbn [flat_map]. now rewrite H.
  - rewrite unit_results_cons, IH. reflexivity.
Qed.

Lemma node_log_usable cfg nodes :
  flat_map (node_log cfg) (filter (fun n => negb (hartid n <? 0)) nodes)
  = flat_map (node_log cfg) nodes.
Proof.
  induction nodes as [|n nodes IH]; [reflexivity|]. cbn [filter flat_map].
  destruct (hartid n <? 0) eqn:H; cbn [negb].
  - rewrite IH.
    assert (E : node_log cfg n = []) by (unfold node_log; now rewrite H).
    now rewrite E.
  - cbn [flat_map]. now rewrite IH.
Qed.

(** X6.  [riscv_fill_hwcap] in closed form: it always returns, and the
    state it leaves is the closing part of the function applied to the two
    folded words, the key off, and the lines of the nodes in their order.
    The words and the key only depend on the nodes that contribute: a node
    that is not a usable hart, or that has no "riscv,isa" string, changes
    neither of them, and a node that is not a usable hart changes nothing
    at all. *)
Theorem X6_fill_closed_form cfg nodes :
  riscv_fill_hwcap cfg nodes
  = Some (finish (mkHw (aggregate (map this_hwcap (unit_results cfg nodes)))
                       (aggregate (map this_isa (unit_results cfg nodes)))
                       false
                       (flat_map (node_log cfg) nodes))) /\
  (exists h h',
     riscv_fill_hwcap cfg nodes = Some h /\
     riscv_fill_hwcap cfg (filter contributes nodes) = Some h' /\
     elf_hwcap h' = elf_hwcap h /\ riscv_isa h' = riscv_isa h /\
     cpu_hwcap_fpu h' = cpu_hwcap_fpu h) /\
  riscv_fill_hwcap cfg (filter (fun n => negb (hartid n <? 0)) nodes)
  = riscv_fill_hwcap cfg nodes.
Proof.
  split; [apply fill_closed|]. split.
  - do 2 eexists. split; [apply fill_closed|]. split; [apply fill_closed|].
    rewrite unit_results_contributes. unfold finish.
    cbn [elf_hwcap riscv_isa cpu_hwcap_fpu].
    split; [reflexivity|split; reflexivity].
  - rewrite !fill_closed, unit_results_usable, node_log_usable. reflexivity.
Qed.

Lemma finish_nothing log :
  finish (mkHw 0 0 false log)
  = mkHw 0 0 false (log ++ [InfoIsaExtensions []; InfoElfCapabilities []]).
Proof.
  unfold finish. cbn [elf_hwcap riscv_isa cpu_hwcap_fpu hw_log].
  rewrite !Z.land_0_l. cbn [Z.eqb negb andb].
  rewrite present_letters. change (letters_of 0) with (@nil Z).
  rewrite app_nil_r, <- app_assoc. reflexivity.
Qed.

Lemma node_log_no_contributor cfg nodes :
  filter contributes nodes = [] ->
  flat_map (node_log cfg) nodes
  = repeat WarnNoIsa
      (List.length (filter (fun n => negb (hartid n <? 0)) nodes)).
Proof.
  induction nodes as [|n nodes IH]; [reflexivity|].
  cbn [filter flat_map]. unfold contributes at 1, node_log at 1.
  destruct (hartid n <? 0); cbn [negb andb app].
  - exact IH.
  - destruct (riscv_isa_prop n); [discriminate|].
    intros H. cbn [List.length repeat app]. now rewrite IH.
Qed.

(** X7.  When no node contributes (the list is empty, or every node is
    either not a usable hart or lacks the "riscv,isa" string),
    [riscv_fill_hwcap] still returns: the capability mask and the ISA
    bitmap are zero, the floating-point key stays off, and the log holds
    one warning for each usable hart (each lacks its string) followed by
    the two summary lines with no letter. *)
Theorem X7_no_contributing_node cfg nodes :
  filter contributes nodes = [] ->
  riscv_fill_hwcap cfg nodes
  = Some (mkHw 0 0 false
            (repeat WarnNoIsa
               (List.length (filter (fun n => negb (hartid n <? 0)) nodes))
             ++ [InfoIsaExtensions []; InfoElfCapabilities []])).
Proof.
  intros H. rewrite fill_closed, <- unit_results_contributes, H.
  cbn [unit_results flat_map map]. unfold aggregate. cbn [fold_left].
  rewrite finish_nothing, node_log_no_contributor by assumption.
  reflexivity.
Qed.

Lemma X7_witness :
  riscv_fill_hwcap CONFIG_64BIT
    [mkNode (-19) (Some "rv64imafdc"%string); mkNode 1 None; mkNode 2 None]
  = Some (mkHw 0 0 false
            [WarnNoIsa; WarnNoIsa; InfoIsaExtensions [];
             InfoElfCapabilities []]).
Proof.
  exact (X7_no_contributing_node CONFIG_64BIT
           [mkNode (-19) (Some "rv64imafdc"%string); mkNode 1 None;
            mkNode 2 None] eq_refl).
Defined.

Lemma fold_word_same w : fold_word w w = w.
Proof.
  unfold fold_word. destruct (w =? 0); [reflexivity|apply Z.land_diag].
Qed.

Lemma fold_word_const w ws :
  Forall (fun x => x = w) ws -> fold_left fold_word ws w = w.
Proof.
  induction 1 as [|y ws' E' _ IH]; cbn [fold_left]; [reflexivity|].
  rewrite E', fold_word_same. exact IH.
Qed.

Lemma aggregate_same w ws :
  ws <> [] -> Forall (fun x => x = w) ws -> aggregate ws = w.
Proof.
  destruct ws as [|x ws]; [congruence|]. intros _ H.
  inversion H as [|? ? E H']. subst. unfold aggregate. cbn [fold_left].
  change (fold_word 0 w) with w. apply fold_word_const, H'.
Qed.

(** X8.  When there is a contributing hart and all contributing harts
    report the same capability mask [w] and the same ISA word [v] (the
    case the source comment expects), the final ISA bitmap is [v] and the
    final mask is [w], less the F bit if [w] has F without D. *)
Theorem X8_same_words cfg nodes w v :
  unit_results cfg nodes <> [] ->
  Forall (fun u => this_hwcap u = w /\ this_isa u = v)
         (unit_results cfg nodes) ->
  exists h,
    riscv_fill_hwcap cfg nodes = Some h /\
    riscv_isa h = v /\
    elf_hwcap h
    = (if has_cap w COMPAT_HWCAP_ISA_F && negb (has_cap w COMPAT_HWCAP_ISA_D)
       then Z.land w (Z.lnot COMPAT_HWCAP_ISA_F) else w).
Proof.
  intros N H. eexists. split; [apply fill_closed|].
  assert (A : aggregate (map this_hwcap (unit_results cfg nodes)) = w).
  { apply aggregate_same.
    - intros E. apply map_eq_nil in E. contradiction.
    - apply Forall_map. revert H. apply Forall_impl. tauto. }
  assert (B : aggregate (map this_isa (unit_results cfg nodes)) = v).
  { apply aggregate_same.
    - intros E. apply map_eq_nil in E. contradiction.
    - apply Forall_map. revert H. apply Forall_impl. tauto. }
  rewrite finish_elf_hwcap. unfold finish. cbn [riscv_isa elf_hwcap].
  rewrite A, B. split; reflexivity.
Qed.

Lemma X8_witness :
  exists h,
    riscv_fill_hwcap CONFIG_64BIT
      [mkNode 0 (Some "rv64imafc"%string); mkNode 1 (Some "rv64i_m_a_f_c"%string)]
    = Some h /\
    riscv_isa h = 4389 /\ elf_hwcap h = 4357.
Proof.
  apply (X8_same_words CONFIG_64BIT
           [mkNode 0 (Some "rv64imafc"%string);
            mkNode 1 (Some "rv64i_m_a_f_c"%string)] 4389 4389).
  - vm_compute. discriminate.
  - vm_compute. repeat constructor.
Defined.

Lemma fold_word_sub acc x k :
  Z.testbit (fold_word acc x) k = true -> Z.testbit x k = true.
Proof.
  unfold fold_word. destruct (acc =? 0); [tauto|].
  rewrite Z.land_spec, andb_true_iff. tauto.
Qed.

Lemma aggregate_last ws k :
  Z.testbit (aggregate ws) k = true -> Z.testbit (last ws 0) k = true.
Proof.
  unfold aggregate. destruct ws as [|x ws] using rev_ind.
  - cbn. now rewrite Z.bits_0.
  - rewrite fold_left_app, last_last. cbn [fold_left]. apply fold_word_sub.
Qed.

Lemma last_map_word (f : unit_state -> Z) us :
  f unit_init = 0 -> last (map f us) 0 = f (last us unit_init).
Proof.
  intros E. induction us as [|u us IH]; [symmetry; exact E|].
  destruct us as [|u' us]; [reflexivity|].
  cbn [map last] in *. exact IH.
Qed.

Lemma unit_results_In cfg nodes u :
  In u (unit_results cfg nodes) -> exists isa, parse_isa cfg isa = Some u.
Proof.
  unfold unit_results. rewrite in_flat_map. intros (n & _ & H).
  destruct (hartid n <? 0); [destruct H|].
  destruct (riscv_isa_prop n) as [isa|]; [|destruct H].
  exists isa. destruct (parse_isa cfg isa); [|destruct H].
  destruct H as [-> | []]. reflexivity.
Qed.

Lemma finish_sub h k :
  Z.testbit (elf_hwcap (finish h)) k = true -> Z.testbit (elf_hwcap h) k = true.
Proof.
  destruct (Z_lt_ge_dec k 0) as [N|N].
  - now rewrite Z.testbit_neg_r.
  - rewrite finish_bit by lia. rewrite andb_true_iff. tauto.
Qed.

(** X9.  Every bit of the final ISA bitmap and of the final capability
    mask was reported by a contributing hart, namely the last one that was
    folded in: the function never sets a bit of its own.  Hence the final
    bitmap only holds letter bits (it is below 2^26) and the final mask
    only holds bits among the six legacy bits. *)
Theorem X9_final_words_from_last_hart cfg nodes :
  let last_unit := last (unit_results cfg nodes) unit_init in
  exists h,
    riscv_fill_hwcap cfg nodes = Some h /\
    (forall k, Z.testbit (riscv_isa h) k = true ->
               Z.testbit (this_isa last_unit) k = true) /\
    (forall k, Z.testbit (elf_hwcap h) k = true ->
               Z.testbit (this_hwcap last_unit) k = true) /\
    0 <= riscv_isa h < 2 ^ NUM_ALPHA_EXTS /\
    0 <= elf_hwcap h < 2 ^ NUM_ALPHA_EXTS /\
    Z.land (elf_hwcap h) legacy_mask = elf_hwcap h.
Proof.
  intros last_unit. eexists. split; [apply fill_closed|].
  set (h0 := mkHw _ _ _ _).
  assert (LI : forall k, Z.testbit (riscv_isa (finish h0)) k = true ->
                         Z.testbit (this_isa last_unit) k = true).
  { intros k H. change (riscv_isa (finish h0))
      with (aggregate (map this_isa (unit_results cfg nodes))) in H.
    apply aggregate_last in H. rewrite last_map_word in H by reflexivity.
    exact H. }
  assert (LW : forall k, Z.testbit (elf_hwcap (finish h0)) k = true ->
                         Z.testbit (this_hwcap last_unit) k = true).
  { intros k H. apply finish_sub in H.
    change (elf_hwcap h0)
      with (aggregate (map this_hwcap (unit_results cfg nodes))) in H.
    apply aggregate_last in H. rewrite last_map_word in H by reflexivity.
    exact H. }
  assert (U : 0 <= this_isa last_unit < 2 ^ NUM_ALPHA_EXTS /\
              this_hwcap last_unit = Z.land (this_isa last_unit) legacy_mask).
  { unfold last_unit. destruct (unit_results cfg nodes) as [|u us] eqn:E.
    - cbn. split; [split; [lia|reflexivity]|reflexivity].
    - assert (I : In (last (u :: us) unit_init) (unit_results cfg nodes)).
      { rewrite E. destruct (exists_last (l := u :: us) ltac:(discriminate))
          as (l' & a & ->). rewrite last_last. apply in_or_app. right.
        left. reflexivity. }
      apply unit_results_In in I. destruct I as [isa Hisa].
      destruct (unit_words_spec cfg isa) as (u' & Hu' & _ & B & M).
      rewrite Hisa in Hu'. injection Hu' as <-. auto. }
  destruct U as [UB UM].
  assert (HIGH : forall x, 0 <= x < 2 ^ NUM_ALPHA_EXTS ->
                 forall k, NUM_ALPHA_EXTS <= k -> Z.testbit x k = false).
  { intros x Hx k Hk. destruct (Z.eq_dec x 0) as [->|]; [apply Z.bits_0|].
    apply Z.bits_above_log2; [lia|].
    assert (Z.log2 x < NUM_ALPHA_EXTS); [|lia].
    apply Z.log2_lt_pow2; lia. }
  split; [exact LI|]. split; [exact LW|].
  assert (MB : forall k, Z.testbit (this_hwcap last_unit) k = true ->
                         Z.testbit (this_isa last_unit) k = true /\
                         Z.testbit legacy_mask k = true).
  { intros k H. rewrite UM, Z.land_spec in H. apply andb_prop in H. exact H. }
  split; [|split].
  - apply small_from_bits; [vm_compute; discriminate|]. intros k Hk.
    destruct (Z.testbit (riscv_isa (finish h0)) k) eqn:B; [|reflexivity].
    apply LI in B. rewrite (HIGH _ UB k Hk) in B. discriminate.
  - apply small_from_bits; [vm_compute; discriminate|]. intros k Hk.
    destruct (Z.testbit (elf_hwcap (finish h0)) k) eqn:B; [|reflexivity].
    apply LW, MB in B. destruct B as [B _].
    rewrite (HIGH _ UB k Hk) in B. discriminate.
  - apply Z.bits_inj'. intros k Hk. rewrite Z.land_spec.
    destruct (Z.testbit (elf_hwcap (finish h0)) k) eqn:B; [|reflexivity].
    apply LW, MB in B. destruct B as [_ ->]. reflexivity.
Qed.

(** ** The two queries *)

(** X10.  The two queries agree on the first word: for a bit index below
    both the capacity of the bitmap and the word size, the availability
    query answers the bit of that index of the base word, for a given
    bitmap as for the host bitmap. *)
Theorem X10_base_word_agrees max test_bit host bits_per_long isa_bitmap bit :
  (forall nr addr, 0 <= nr < max -> test_bit nr addr = Z.testbit addr nr) ->
  0 <= bit < max -> bit < bits_per_long ->
  __riscv_isa_extension_available max test_bit host isa_bitmap bit
  = Z.testbit (riscv_isa_extension_base host bits_per_long isa_bitmap) bit.
Proof.
  intros T Hb Hw. unfold __riscv_isa_extension_available.
  destruct (bit >=? max) eqn:E; [lia|]. rewrite T by assumption.
  unfold riscv_isa_extension_base.
  destruct isa_bitmap as [b|]; rewrite Z.land_spec, Z.ones_spec_low by lia;
    rewrite andb_true_r;
    match goal with |- context [if ?x then _ else _] => destruct x end;
    reflexivity.
Qed.

Lemma X10_witness :
  let test_bit := fun nr addr => Z.testbit addr nr in
  __riscv_isa_extension_available 64 test_bit 4357 None 12
  = Z.testbit (riscv_isa_extension_base 4357 64 None) 12.
Proof.
  intros test_bit.
  apply (X10_base_word_agrees 64 test_bit 4357 64 None 12); [|lia|lia].
  reflexivity.
Defined.

(** ** Versions *)

Lemma version_in_range_short v :
  version_in_range v ->
  short_version v = (fst (version_value v), snd (version_value v), false).
Proof.
  unfold short_version, version_value, numeral_result.
  destruct v as [[major [minor|]]|]; cbn [version_in_range fst snd].
  - intros [H1 H2].
    destruct (Z.leb_spec (decimal_value major) UINT_MAX); [|lia].
    destruct (Z.leb_spec (decimal_value minor) UINT_MAX); [|lia].
    cbn [stored is_err].
    destruct (Z.eqb_spec (decimal_value major) UINT_MAX); [lia|reflexivity].
  - intros H1.
    destruct (Z.leb_spec (decimal_value major) UINT_MAX); [|lia].
    cbn [stored].
    destruct (Z.eqb_spec (decimal_value major) UINT_MAX); [lia|reflexivity].
  - reflexivity.
Qed.

Lemma version_in_range_long v :
  version_in_range v ->
  long_version v = (fst (version_value v), snd (version_value v), false).
Proof.
  unfold long_version, version_value, numeral_result.
  destruct v as [[major [minor|]]|]; cbn [version_in_range fst snd].
  - intros [H1 H2].
    destruct (Z.leb_spec (decimal_value major) UINT_MAX); [|lia].
    destruct (Z.leb_spec (decimal_value minor) UINT_MAX); [|lia].
    cbn [stored is_err orb].
    destruct (Z.eqb_spec (decimal_value major) UINT_MAX); [lia|reflexivity].
  - intros H1.
    destruct (Z.leb_spec (decimal_value major) UINT_MAX); [|lia].
    reflexivity.
  - reflexivity.
Qed.

Lemma parse_short_version s pre t rest :
  s = pre ++ render t ++ rest ->
  short_token_wf t ->
  isdigit (hd 0 rest) = false ->
  (major_only t = true -> hd 0 rest = chr "p" ->
   isdigit (hd 0 (tl rest)) = false) ->
  let tok := parse_short s (Z.of_nat (List.length pre)) in
  (ext_major tok, ext_minor tok, ext_err_ver tok)
  = short_version (st_version t).
Proof.
  intros Hs (W & _ & V) R A. set (e := Z.of_nat (List.length pre)).
  assert (H0 : peek s e = st_letter t).
  { rewrite (peek_at s pre (render t ++ rest) e); auto. }
  unfold parse_short. rewrite H0, W. cbn [negb].
  destruct t as [c v]. unfold render, major_only in *.
  cbn [st_letter st_version] in *.
  destruct v as [[major [minor|]]|]; cbn [short_version].
  - (* major and minor *)
    destruct V as [VM Vm].
    destruct (skip_numeral s (pre ++ [c]) major (chr "p" :: minor ++ rest)
                (e + 1)) as [D1 S1];
      [list_eq|unfold e; length_eq|assumption|reflexivity|].
    rewrite (decimal_numeral s (pre ++ [c]) major (chr "p" :: minor ++ rest));
      [|list_eq|unfold e; length_eq|assumption|reflexivity].
    rewrite D1, S1. cbn [negb].
    rewrite (peek_at s (pre ++ c :: major) (chr "p" :: minor ++ rest));
      [|list_eq|unfold e; length_eq].
    cbn [hd]. rewrite Z.eqb_refl. cbn [negb].
    destruct (skip_numeral s (pre ++ c :: major ++ [chr "p"]) minor rest
                (e + 1 + Z.of_nat (List.length major) + 1)) as [D2 S2];
      [list_eq|unfold e; length_eq|assumption|assumption|].
    rewrite (decimal_numeral s (pre ++ c :: major ++ [chr "p"]) minor rest);
      [|list_eq|unfold e; length_eq|assumption|assumption].
    rewrite D2. reflexivity.
  - (* major only *)
    destruct (skip_numeral s (pre ++ [c]) major rest (e + 1)) as [D1 S1];
      [list_eq|unfold e; length_eq|assumption|assumption|].
    rewrite (decimal_numeral s (pre ++ [c]) major rest);
      [|list_eq|unfold e; length_eq|assumption|assumption].
    rewrite D1, S1. cbn [negb].
    rewrite (peek_at s (pre ++ c :: major) rest);
      [|list_eq|unfold e; length_eq].
    destruct (Z.eqb_spec (hd 0 rest) (chr "p")) as [P|P]; cbn [negb].
    + rewrite (peek_at s (pre ++ c :: major ++ [hd 0 rest]) (tl rest));
        [|destruct rest; [discriminate P|list_eq]|unfold e; length_eq].
      rewrite A by auto. reflexivity.
    + reflexivity.
  - (* no version *)
    rewrite (peek_at s (pre ++ [c]) rest); [|list_eq|unfold e; length_eq].
    rewrite R. reflexivity.
Qed.

(** X11.  The version of a single-letter token, read forwards.  For a
    lowercase letter other than s, x, z, followed by a version text
    (nothing; a numeral; or a numeral, 'p' and a numeral) and then by a
    character that cannot belong to it, the token parsed at the letter has
    the letter as its name and is well-formed, and [ext_major], [ext_minor]
    and [ext_err_ver] are as [short_version] tells: when the numbers are
    below UINT_MAX, the major version (default UINT_MAX), the minor version
    (default 0) and no error; a numeral above UINT_MAX leaves its number at
    the default and raises [ext_err_ver], as does a major version equal to
    UINT_MAX. *)
Theorem X11_short_token_version pre t rest :
  short_token_wf t ->
  isdigit (hd 0 rest) = false ->
  (major_only t = true -> hd 0 rest = chr "p" ->
   isdigit (hd 0 (tl rest)) = false) ->
  let s := pre ++ render t ++ rest in
  let tok := parse_switch s (Z.of_nat (List.length pre)) in
  token_name s tok = [st_letter t] /\
  ext_err tok = false /\ ext_long tok = false /\
  (ext_major tok, ext_minor tok, ext_err_ver tok)
  = short_version (st_version t) /\
  (version_in_range (st_version t) ->
   (ext_major tok, ext_minor tok, ext_err_ver tok)
   = (fst (version_value (st_version t)), snd (version_value (st_version t)),
      false)).
Proof.
  intros W R A s tok.
  pose proof (parse_short_version s pre t rest eq_refl W R A) as V.
  destruct (parse_short_render s pre t rest eq_refl W R A) as (H0 & _ & _).
  destruct W as (W & L & _).
  assert (P : tok = parse_short s (Z.of_nat (List.length pre))).
  { unfold tok, parse_switch. now rewrite H0, L. }
  destruct (parse_short_fields s (Z.of_nat (List.length pre)))
    as (F1 & F2 & F3 & F4).
  rewrite <- P in *. cbv zeta in V.
  split; [|split; [|split; [exact F3|split]]].
  - unfold token_name. rewrite F1, F2.
    replace (Z.of_nat (List.length pre) + 1 - Z.of_nat (List.length pre))
      with 1 by lia.
    rewrite (suffix_at s pre (render t ++ rest)) by reflexivity.
    reflexivity.
  - rewrite F4, H0, W. reflexivity.
  - exact V.
  - intros I. rewrite V. apply version_in_range_short, I.
Qed.

Lemma X11_witness :
  let s := chars "rv64i2p1_m" in
  let tok := parse_switch s 4 in
  token_name s tok = chars "i" /\
  (ext_major tok, ext_minor tok, ext_err_ver tok) = (2, 1, false).
Proof.
  intros s tok.
  destruct (X11_short_token_version (chars "rv64")
              (mkShort (chr "i") (Some (chars "2", Some (chars "1"))))
              (chars "_m")) as (N & _ & _ & _ & V).
  - repeat constructor; discriminate.
  - reflexivity.
  - discriminate.
  - split; [exact N|]. apply V. split; reflexivity.
Defined.

Lemma last_app_r (l1 l2 : list Z) d : l2 <> [] -> last (l1 ++ l2) d = last l2 d.
Proof.
  intros N. destruct (exists_last N) as (l & x & ->).
  rewrite app_assoc, !last_last. reflexivity.
Qed.

Lemma hd_rev (l : list Z) d : hd d (rev l) = last l d.
Proof.
  destruct l as [|a l] using rev_ind; [reflexivity|].
  rewrite rev_app_distr, last_last. reflexivity.
Qed.

Lemma numeral_last ds : numeral ds -> isdigit (last ds 0) = true.
Proof.
  intros [N D]. destruct (exists_last N) as (l & x & ->).
  rewrite last_last. apply Forall_app in D. destruct D as [_ D].
  inversion D; assumption.
Qed.

Lemma before_at s a b p :
  s = a ++ b -> p = Z.of_nat (List.length a) -> before s p = rev a.
Proof.
  intros -> ->. unfold before.
  destruct (Z.of_nat (List.length a) <? 0) eqn:E; [apply Z.ltb_lt in E; lia|].
  rewrite Nat2Z.id, firstn_app, firstn_all, Nat.sub_diag. cbn [firstn].
  now rewrite app_nil_r.
Qed.

Lemma peek_before s a b p :
  s = a ++ b -> a <> [] -> p = Z.of_nat (List.length a) ->
  peek s (p - 1) = last a 0.
Proof.
  intros Hs N Hp. destruct (exists_last N) as (l & x & ->).
  rewrite last_last. rewrite (peek_at s l (x :: b)); [reflexivity|list_eq|].
  rewrite Hp. length_eq.
Qed.

(** Scanning digits backwards from the end of a numeral [ds] that follows
    [a], whose last character is not a digit: the scan stops on that
    character. *)
Lemma skip_digits_back_at s a ds b q :
  s = a ++ ds ++ b -> q = Z.of_nat (List.length (a ++ ds)) ->
  Forall (fun c => isdigit c = true) ds ->
  isdigit (last a 0) = false ->
  skip_digits_back s q = Z.of_nat (List.length a) - 1.
Proof.
  intros Hs Hq D L. unfold skip_digits_back.
  rewrite (before_at s (a ++ ds) b q); [|list_eq|assumption].
  rewrite rev_app_distr, digit_run_app.
  - rewrite Hq, length_rev, length_app. lia.
  - apply Forall_rev, D.
  - now rewrite hd_rev.
Qed.

Lemma lower_or_digit_run c :
  islower c || isdigit c = true -> (c =? 0) || (c =? chr "_") = false.
Proof.
  unfold islower, isdigit.
  change (chr "a") with 97. change (chr "z") with 122.
  change (chr "0") with 48. change (chr "9") with 57. change (chr "_") with 95.
  rewrite orb_true_iff, !andb_true_iff, !Z.leb_le. intros H.
  apply orb_false_iff. split; apply Z.eqb_neq; lia.
Qed.

Lemma long_run_app a rest :
  Forall (fun c => islower c || isdigit c = true) a ->
  hd 0 rest = 0 \/ hd 0 rest = chr "_" ->
  long_run (a ++ rest) = (Z.of_nat (List.length a), false).
Proof.
  intros H R. induction H as [|c a Hc _ IH]; cbn [app long_run List.length].
  - destruct rest as [|x rest]; [reflexivity|]. cbn [hd] in R.
    destruct R as [-> | ->]; reflexivity.
  - rewrite (lower_or_digit_run c Hc), IH.
    apply orb_true_iff in Hc. f_equal; [lia|].
    destruct (islower c); cbn [negb andb orb]; [reflexivity|].
    destruct Hc as [Hc|Hc]; [discriminate|]. now rewrite Hc.
Qed.

Lemma version_text_chars v :
  version_wf v ->
  Forall (fun c => islower c || isdigit c = true) (version_text v).
Proof.
  assert (D : forall ds, numeral ds ->
              Forall (fun c => islower c || isdigit c = true) ds).
  { intros ds [_ H]. revert H. apply Forall_impl. intros c ->.
    apply orb_true_r. }
  destruct v as [[major [minor|]]|]; cbn [version_wf version_text].
  - intros [H1 H2]. apply Forall_app. split; [apply D, H1|].
    constructor; [reflexivity|apply D, H2].
  - apply D.
  - constructor.
Qed.

Lemma parse_long_version s pre name v rest :
  s = pre ++ name ++ version_text v ++ rest ->
  long_name name -> version_wf v ->
  hd 0 rest = 0 \/ hd 0 rest = chr "_" ->
  (forall major, v = Some (major, None) -> last name 0 <> chr "p") ->
  let e := Z.of_nat (List.length pre) in
  let tok := parse_long s e in
  t_ext_end tok = e + Z.of_nat (List.length name) /\
  t_isa tok = e + Z.of_nat (List.length (name ++ version_text v)) /\
  ext_err tok = false /\
  (ext_major tok, ext_minor tok, ext_err_ver tok) = long_version v.
Proof.
  intros Hs (LP & LC & LD) V R NP e tok.
  destruct name as [|c body]; [discriminate LP|].
  cbn [hd] in LP. pose proof (Forall_inv_tail LC) as LB.
  assert (RD : isdigit (hd 0 rest) = false)
    by (destruct R as [-> | ->]; reflexivity).
  assert (S1 : suffix s (e + 1) = (body ++ version_text v) ++ rest).
  { apply (suffix_at s (pre ++ [c])); [list_eq|unfold e; length_eq]. }
  assert (LR : long_run (suffix s (e + 1))
               = (Z.of_nat (List.length (body ++ version_text v)), false)).
  { rewrite S1. apply long_run_app; [|exact R].
    apply Forall_app. split; [exact LB|apply version_text_chars, V]. }
  unfold tok, parse_long. rewrite LR.
  set (q := e + 1 + Z.of_nat (List.length (body ++ version_text v))).
  assert (Q : q = Z.of_nat (List.length (pre ++ (c :: body) ++ version_text v)))
    by (unfold q, e; length_eq).
  assert (QI : q = e + Z.of_nat (List.length ((c :: body) ++ version_text v)))
    by (unfold q, e; length_eq).
  assert (LN : forall a, last (a ++ c :: body) 0 = last (c :: body) 0)
    by (intros a; apply last_app_r; discriminate).
  destruct v as [[major [minor|]]|]; cbn [version_wf version_text] in *.
  - (* major and minor *)
    destruct V as [VM Vm].
    assert (Lmin : last (pre ++ (c :: body) ++ major ++ chr "p" :: minor) 0
                   = last minor 0).
    { replace (pre ++ (c :: body) ++ major ++ chr "p" :: minor)
        with ((pre ++ (c :: body) ++ major ++ [chr "p"]) ++ minor) by list_eq.
      apply last_app_r, Vm. }
    assert (Lmaj : last (pre ++ (c :: body) ++ major) 0 = last major 0).
    { replace (pre ++ (c :: body) ++ major)
        with ((pre ++ (c :: body)) ++ major) by list_eq.
      apply last_app_r, VM. }
    assert (Lp : last (pre ++ (c :: body) ++ major ++ [chr "p"]) 0 = chr "p").
    { replace (pre ++ (c :: body) ++ major ++ [chr "p"])
        with ((pre ++ (c :: body) ++ major) ++ [chr "p"]) by list_eq.
      apply last_last. }
    rewrite (peek_before s (pre ++ (c :: body) ++ major ++ chr "p" :: minor)
               rest q); [|list_eq|destruct pre; discriminate|exact Q].
    rewrite Lmin, (numeral_last minor Vm). cbn [negb].
    rewrite (skip_digits_back_at s
               (pre ++ (c :: body) ++ major ++ [chr "p"]) minor rest q);
      [|list_eq|rewrite Q; length_eq|apply Vm|rewrite Lp; reflexivity].
    set (y := Z.of_nat (List.length
                 (pre ++ (c :: body) ++ major ++ [chr "p"])) - 1).
    assert (Y : y = Z.of_nat (List.length (pre ++ (c :: body) ++ major)))
      by (unfold y; length_eq).
    rewrite (peek_at s (pre ++ (c :: body) ++ major)
               (chr "p" :: minor ++ rest) y); [|list_eq|exact Y].
    cbn [hd]. rewrite Z.eqb_refl.
    rewrite (peek_before s (pre ++ (c :: body) ++ major)
               (chr "p" :: minor ++ rest) y);
      [|list_eq|destruct pre; discriminate|exact Y].
    rewrite Lmaj, (numeral_last major VM). cbn [andb negb].
    rewrite (decimal_numeral s (pre ++ (c :: body) ++ major ++ [chr "p"])
               minor rest (y + 1));
      [|list_eq|unfold y; length_eq|assumption|assumption].
    rewrite (skip_digits_back_at s (pre ++ c :: body) major
               (chr "p" :: minor ++ rest) y);
      [|list_eq|rewrite Y; length_eq|apply VM|rewrite LN; exact LD].
    rewrite (decimal_numeral s (pre ++ c :: body) major
               (chr "p" :: minor ++ rest));
      [|list_eq|length_eq|assumption|reflexivity].
    cbn [t_ext_end t_isa ext_err ext_major ext_minor ext_err_ver long_version].
    repeat split; [unfold e; length_eq|exact QI].
  - (* major only *)
    assert (Lmaj : last (pre ++ (c :: body) ++ major) 0 = last major 0).
    { replace (pre ++ (c :: body) ++ major)
        with ((pre ++ (c :: body)) ++ major) by list_eq.
      apply last_app_r, V. }
    rewrite (peek_before s (pre ++ (c :: body) ++ major) rest q);
      [|list_eq|destruct pre; discriminate|exact Q].
    rewrite Lmaj, (numeral_last major V). cbn [negb].
    rewrite (skip_digits_back_at s (pre ++ c :: body) major rest q);
      [|list_eq|rewrite Q; length_eq|apply V|rewrite LN; exact LD].
    set (y := Z.of_nat (List.length (pre ++ c :: body)) - 1).
    assert (PY : peek s y = last (c :: body) 0).
    { rewrite <- (LN pre). unfold y.
      apply (peek_before s (pre ++ c :: body) (major ++ rest));
        [list_eq|destruct pre; discriminate|reflexivity]. }
    rewrite PY.
    destruct (Z.eqb_spec (last (c :: body) 0) (chr "p")) as [P|_];
      [exfalso; eapply NP; [reflexivity|exact P]|].
    cbn [andb negb].
    rewrite (decimal_numeral s (pre ++ c :: body) major rest (y + 1));
      [|list_eq|unfold y; lia|assumption|assumption].
    cbn [t_ext_end t_isa ext_err ext_major ext_minor ext_err_ver long_version].
    repeat split; [unfold y, e; length_eq|exact QI].
  - (* no version *)
    rewrite (peek_before s (pre ++ (c :: body) ++ []) rest q);
      [|list_eq|destruct pre; discriminate|exact Q].
    rewrite app_nil_r, LN, LD.
    cbn [negb t_ext_end t_isa ext_err ext_major ext_minor ext_err_ver
         long_version].
    repeat split; unfold q, e; length_eq.
Qed.

(** X12.  The version of a multi-letter token, read backwards.  For a name
    that starts with s, x or z, consists of lowercase letters and digits
    and does not end in a digit, followed by a version text (nothing; a
    numeral; or a numeral, 'p' and a numeral) and then by the end of the
    string or a '_', the token parsed at the first letter is well-formed,
    its name is exactly the name, the cursor is left at the end of the
    version text, and [ext_major], [ext_minor] and [ext_err_ver] are as
    [long_version] tells: when the numbers are below UINT_MAX, the major
    version (default UINT_MAX), the minor version (default 0) and no
    error.  (A name ending in 'p' is excluded for a lone major version,
    which the parser could not tell from a minor version.) *)
Theorem X12_long_token_version pre name v rest :
  long_name name -> version_wf v ->
  hd 0 rest = 0 \/ hd 0 rest = chr "_" ->
  (forall major, v = Some (major, None) -> last name 0 <> chr "p") ->
  let s := pre ++ name ++ version_text v ++ rest in
  let tok := parse_switch s (Z.of_nat (List.length pre)) in
  token_name s tok = name /\
  ext_long tok = true /\ ext_err tok = false /\
  t_isa tok
  = Z.of_nat (List.length pre)
    + Z.of_nat (List.length (name ++ version_text v)) /\
  (ext_major tok, ext_minor tok, ext_err_ver tok) = long_version v /\
  (version_in_range v ->
   (ext_major tok, ext_minor tok, ext_err_ver tok)
   = (fst (version_value v), snd (version_value v), false)).
Proof.
  intros LN V R NP s tok.
  destruct (parse_long_version s pre name v rest eq_refl LN V R NP)
    as (E1 & E2 & E3 & E4).
  assert (H0 : peek s (Z.of_nat (List.length pre)) = hd 0 name).
  { rewrite (peek_at s pre (name ++ version_text v ++ rest)); [|reflexivity..].
    destruct name; [destruct LN as [LN _]; discriminate LN|reflexivity]. }
  assert (P : tok = parse_long s (Z.of_nat (List.length pre))).
  { unfold tok, parse_switch. rewrite H0. destruct LN as [-> _]. reflexivity. }
  destruct (parse_long_fields s (Z.of_nat (List.length pre)))
    as (F1 & F2 & _ & _).
  rewrite <- P in *.
  split; [|split; [exact F2|split; [exact E3|split; [exact E2|split]]]].
  - unfold token_name. rewrite F1, E1.
    replace (Z.of_nat (List.length pre) + Z.of_nat (List.length name)
             - Z.of_nat (List.length pre))
      with (Z.of_nat (List.length name)) by lia.
    rewrite (suffix_at s pre (name ++ version_text v ++ rest))
      by reflexivity.
    rewrite Nat2Z.id, firstn_app, firstn_all, Nat.sub_diag. cbn [firstn].
    apply app_nil_r.
  - exact E4.
  - intros I. rewrite E4. apply version_in_range_long, I.
Qed.

Lemma X12_witness :
  let s := chars "rv64imac_zve32x1p0_zba" in
  let tok := parse_switch s 9 in
  token_name s tok = chars "zve32x" /\
  (ext_major tok, ext_minor tok, ext_err_ver tok) = (1, 0, false).
Proof.
  intros s tok.
  destruct (X12_long_token_version (chars "rv64imac_") (chars "zve32x")
              (Some (chars "1", Some (chars "0"))) (chars "_zba"))
    as (N & _ & _ & _ & _ & V).
  - split; [reflexivity|]. split; [repeat constructor|reflexivity].
  - repeat constructor; discriminate.
  - right. reflexivity.
  - discriminate.
  - split; [exact N|]. apply V. split; reflexivity.
Defined.

(** ** The summary line read back *)

Lemma undelimited_letter_tokens ls : undelimited (letter_tokens ls) = ls.
Proof.
  induction ls as [|c ls IH]; [reflexivity|].
  cbn [letter_tokens map undelimited render st_letter st_version app] in *.
  unfold letter_tokens in IH. now rewrite IH.
Qed.

Lemma letter_tokens_wf ls :
  Forall (fun c => short_letter c = true) ls ->
  Forall short_token_wf (letter_tokens ls).
Proof.
  intros H. apply Forall_map. revert H. apply Forall_impl. intros c Hc.
  unfold short_letter in Hc. apply andb_prop in Hc. destruct Hc as [W L].
  apply negb_true_iff in L. repeat split; assumption.
Qed.

Lemma letter_tokens_unambiguous ls : unambiguous (letter_tokens ls) = true.
Proof.
  induction ls as [|c ls IH]; [reflexivity|].
  cbn [letter_tokens map unambiguous] in *. unfold letter_tokens in IH.
  rewrite IH. destruct (map _ ls); reflexivity.
Qed.

Lemma short_effects_isa_bit k ts : forall u,
  Z.testbit (this_isa (short_effects ts u)) k = true <->
  Z.testbit (this_isa u) k = true \/
  exists t, In t ts /\ Z.testbit (Z.shiftl 1 (st_letter t - chr "a")) k = true.
Proof.
  induction ts as [|t ts IH]; intros u; cbn [short_effects fold_left].
  - split; [auto|]. intros [H|(t & [] & _)]. exact H.
  - fold (short_effects ts (short_effect (st_letter t) u)). rewrite IH.
    unfold short_effect. cbn [this_isa]. rewrite Z.lor_spec, orb_true_iff.
    split.
    + intros [[H|H]|(t' & I & H)]; [left; exact H|right..].
      * exists t. split; [left; reflexivity|exact H].
      * exists t'. split; [right; exact I|exact H].
    + intros [H|(t' & [<-|I] & H)]; [left; left; exact H|left; right; exact H|].
      right. exists t'. split; assumption.
Qed.

Lemma parse_undelimited cfg ts :
  Forall short_token_wf ts -> unambiguous ts = true ->
  parse_chars cfg (chars (width_prefix cfg) ++ undelimited ts)
  = Some (short_effects ts unit_init).
Proof.
  intros W U. unfold parse_chars. rewrite skip_width_prefix.
  apply scan_undelimited; auto. rewrite length_app.
  pose proof (length_undelimited ts). lia.
Qed.

Lemma word_read_back cfg w :
  (forall k, Z.testbit w k = true ->
     exists c, short_letter c = true /\ k = c - chr "a") ->
  exists u,
    parse_chars cfg (chars (width_prefix cfg) ++ present w) = Some u /\
    this_isa u = w /\ this_hwcap u = Z.land w legacy_mask.
Proof.
  intros B.
  assert (SL : Forall (fun c => short_letter c = true) (letters_of w)).
  { apply Forall_forall. intros c Hc. apply letters_of_In in Hc.
    destruct Hc as (i & _ & Hi & ->). destruct (B i Hi) as (c & Hc & ->).
    replace (chr "a" + (c - chr "a")) with c by lia. exact Hc. }
  pose proof (parse_undelimited cfg (letter_tokens (letters_of w))
                (letter_tokens_wf _ SL) (letter_tokens_unambiguous _)) as Hu.
  set (u := short_effects (letter_tokens (letters_of w)) unit_init) in *.
  assert (Eu : u = short_effects (letter_tokens (letters_of w)) unit_init)
    by reflexivity.
  clearbody u.
  rewrite undelimited_letter_tokens, <- present_letters in Hu.
  exists u. split; [exact Hu|].
  { assert (I : this_isa u = w).
    { apply Z.bits_inj'. intros k Hk. apply eq_iff_eq_true.
      rewrite Eu, short_effects_isa_bit. cbn [unit_init this_isa].
      rewrite Z.bits_0. split.
      - intros [H|(t & Ht & H)]; [discriminate|].
        unfold letter_tokens in Ht. apply in_map_iff in Ht.
        destruct Ht as (c & <- & Hc). cbn [st_letter] in H.
        apply letters_of_In in Hc. destruct Hc as (i & Hi & Bi & ->).
        replace (chr "a" + i - chr "a") with i in H by lia.
        rewrite Z.shiftl_1_l, Z.pow2_bits_eqb in H by lia.
        apply Z.eqb_eq in H. now subst.
      - intros H. right. exists (mkShort (chr "a" + k) None).
        destruct (B k H) as (c & Hc & Ek).
        pose proof (short_letter_range c Hc). split.
        + unfold letter_tokens. apply in_map_iff. exists (chr "a" + k).
          split; [reflexivity|]. apply letters_of_In.
          exists k. repeat split; auto; lia.
        + cbn [st_letter]. replace (chr "a" + k - chr "a") with k by lia.
          rewrite Z.shiftl_1_l. apply Z.pow2_bits_true. lia. }
    split; [exact I|].
    destruct (unit_words_chars cfg (chars (width_prefix cfg) ++ present w))
      as (u' & Hu' & _ & _ & M).
    rewrite Hu in Hu'. injection Hu' as <-. now rewrite M, I. }
Qed.

(** X13.  The summary line read back.  The letters the presenter prints
    for the ISA word of a hart, put after the width prefix and parsed
    again, give the same ISA word and the same capability mask: the printed
    string is itself an ISA string for what was parsed.  More generally
    this holds for every word whose bits are bits of single-letter
    extensions. *)
Theorem X13_summary_read_back cfg :
  (forall isa, exists u u',
     parse_isa cfg isa = Some u /\
     parse_chars cfg (chars (width_prefix cfg) ++ present (this_isa u))
     = Some u' /\
     this_isa u' = this_isa u /\ this_hwcap u' = this_hwcap u) /\
  (forall w,
     (forall k, Z.testbit w k = true ->
        exists c, short_letter c = true /\ k = c - chr "a") ->
     exists u,
       parse_chars cfg (chars (width_prefix cfg) ++ present w) = Some u /\
       this_isa u = w /\ this_hwcap u = Z.land w legacy_mask).
Proof.
  split; [|apply word_read_back].
  intros isa. destruct (unit_words_spec cfg isa) as (u & Hu & B & _ & M).
  destruct (word_read_back cfg (this_isa u) B) as (u' & Hu' & I & W).
  exists u, u'. repeat split; try assumption. now rewrite W, M.
Qed.

Lemma X13_witness :
  exists u,
    parse_chars CONFIG_64BIT (chars "rv64" ++ present 4397) = Some u /\
    this_isa u = 4397 /\ this_hwcap u = Z.land 4397 legacy_mask.
Proof.
  apply (proj2 (X13_summary_read_back CONFIG_64BIT) 4397).
  intros k H.
  assert (Hk : 0 <= k < 13).
  { destruct (Z_lt_ge_dec k 0) as [N|N];
      [rewrite Z.testbit_neg_r in H by lia; discriminate|].
    destruct (Z_lt_ge_dec k 13) as [|G]; [lia|].
    rewrite Z.bits_above_log2 in H; [discriminate|lia|].
    replace (Z.log2 4397) with 12 by reflexivity. lia. }
  exists (chr "a" + k). split; [|lia].
  assert (C : k = 0 \/ k = 1 \/ k = 2 \/ k = 3 \/ k = 4 \/ k = 5 \/ k = 6 \/
              k = 7 \/ k = 8 \/ k = 9 \/ k = 10 \/ k = 11 \/ k = 12) by lia.
  repeat (destruct C as [-> | C]; [reflexivity|]). subst. reflexivity.
Defined.

(** ** Scanning across a delimiter *)

Section Agree.
Variables a r : list Z.
Hypothesis r_stops : hd 0 r = 0 \/ hd 0 r = chr "_".

Lemma peek_app_low p :
  p < Z.of_nat (List.length a) -> peek (a ++ r) p = peek a p.
Proof.
  intros Hp. unfold peek. destruct (p <? 0) eqn:E; [reflexivity|].
  apply Z.ltb_ge in E. apply app_nth1. lia.
Qed.

Lemma peek_app_end : peek (a ++ r) (Z.of_nat (List.length a)) = hd 0 r.
Proof. apply (peek_at _ a r); reflexivity. Qed.

Lemma peek_end : peek a (Z.of_nat (List.length a)) = 0.
Proof.
  unfold peek. destruct (Z.of_nat (List.length a) <? 0); [reflexivity|].
  apply nth_overflow. lia.
Qed.

Lemma r_not_digit : isdigit (hd 0 r) = false.
Proof. destruct r_stops as [-> | ->]; reflexivity. Qed.

Lemma isdigit_peek_app p :
  p <= Z.of_nat (List.length a) ->
  isdigit (peek (a ++ r) p) = isdigit (peek a p).
Proof.
  intros Hp. destruct (Z.eq_dec p (Z.of_nat (List.length a))) as [->|N].
  - now rewrite peek_app_end, peek_end, r_not_digit.
  - now rewrite peek_app_low by lia.
Qed.

Lemma is_p_peek_app p :
  p <= Z.of_nat (List.length a) ->
  (peek (a ++ r) p =? chr "p") = (peek a p =? chr "p").
Proof.
  intros Hp. destruct (Z.eq_dec p (Z.of_nat (List.length a))) as [->|N].
  - rewrite peek_app_end, peek_end. destruct r_stops as [-> | ->]; reflexivity.
  - now rewrite peek_app_low by lia.
Qed.

Lemma suffix_app_low p :
  0 <= p <= Z.of_nat (List.length a) -> suffix (a ++ r) p = suffix a p ++ r.
Proof.
  intros Hp. unfold suffix. destruct (p <? 0) eqn:E;
    [apply Z.ltb_lt in E; lia|].
  rewrite skipn_app.
  replace (Z.to_nat p - List.length a)%nat with 0%nat by lia. reflexivity.
Qed.

Lemma before_app_low p :
  p <= Z.of_nat (List.length a) -> before (a ++ r) p = before a p.
Proof.
  intros Hp. unfold before. destruct (p <? 0); [reflexivity|].
  rewrite firstn_app.
  replace (Z.to_nat p - List.length a)%nat with 0%nat by lia.
  cbn [firstn]. now rewrite app_nil_r.
Qed.

Lemma digit_run_app_stop x : digit_run (x ++ r) = digit_run x.
Proof.
  induction x as [|c x IH]; cbn [app digit_run].
  - pose proof r_not_digit as D. destruct r as [|d r']; [reflexivity|].
    cbn [hd] in D. cbn [digit_run]. now rewrite D.
  - now rewrite IH.
Qed.

Lemma long_run_app_stop x : long_run (x ++ r) = long_run x.
Proof.
  induction x as [|c x IH]; cbn [app long_run].
  - destruct r as [|d r']; [reflexivity|]. cbn [hd] in r_stops.
    cbn [long_run]. destruct r_stops as [-> | ->]; reflexivity.
  - now rewrite IH.
Qed.

Lemma decimal_loop_app_stop x : forall v,
  x <> [] -> decimal_loop (x ++ r) v = decimal_loop x v.
Proof.
  induction x as [|c x IH]; intros v N; [congruence|].
  cbn [app decimal_loop]. destruct (v >? _); [reflexivity|]. cbv zeta.
  destruct x as [|c' x].
  - cbn [app hd]. rewrite r_not_digit. reflexivity.
  - cbn [app hd]. destruct (isdigit c'); [|reflexivity].
    apply IH. discriminate.
Qed.

Lemma decimal_app_low p :
  p <= Z.of_nat (List.length a) ->
  _decimal_part_to_uint (a ++ r) p = _decimal_part_to_uint a p.
Proof.
  intros Hp. unfold _decimal_part_to_uint.
  rewrite isdigit_peek_app by assumption.
  destruct (isdigit (peek a p)) eqn:D; cbn [negb]; [|reflexivity].
  apply isdigit_nonzero, peek_nonzero_range in D.
  rewrite suffix_app_low by lia. apply decimal_loop_app_stop.
  pose proof (suffix_length a p ltac:(lia)) as L.
  destruct (suffix a p); [cbn in L; lia|discriminate].
Qed.

Lemma skip_digits_fwd_app_low p :
  0 <= p + 1 <= Z.of_nat (List.length a) ->
  skip_digits_fwd (a ++ r) p = skip_digits_fwd a p.
Proof.
  intros Hp. unfold skip_digits_fwd.
  now rewrite suffix_app_low, digit_run_app_stop.
Qed.

Lemma skip_digits_back_app_low q :
  q <= Z.of_nat (List.length a) ->
  skip_digits_back (a ++ r) q = skip_digits_back a q.
Proof. intros Hq. unfold skip_digits_back. now rewrite before_app_low. Qed.

Lemma memcmp_app_low name : forall p,
  0 <= p -> p + Z.of_nat (List.length name) <= Z.of_nat (List.length a) ->
  memcmp_eq (a ++ r) p name = memcmp_eq a p name.
Proof.
  induction name as [|c name IH]; intros p Hp Hl; [reflexivity|].
  cbn [memcmp_eq List.length] in *.
  rewrite peek_app_low, IH by lia. reflexivity.
Qed.

Lemma parse_short_app e :
  0 <= e < Z.of_nat (List.length a) ->
  parse_short (a ++ r) e = parse_short a e.
Proof.
  intros He.
  assert (Hd : forall q, isdigit (peek a q) = true ->
                         0 <= q < Z.of_nat (List.length a)).
  { intros q Hq. apply peek_nonzero_range, isdigit_nonzero, Hq. }
  unfold parse_short. rewrite peek_app_low by lia.
  destruct (negb (islower (peek a e))); [reflexivity|].
  rewrite isdigit_peek_app by lia.
  destruct (isdigit (peek a (e + 1))) eqn:D1; cbn [negb]; [|reflexivity].
  apply Hd in D1.
  rewrite decimal_app_low, skip_digits_fwd_app_low by lia.
  pose proof (skip_digits_fwd_bounds a (e + 1) ltac:(lia)) as B1.
  set (x := skip_digits_fwd a (e + 1)) in *.
  rewrite is_p_peek_app by lia.
  destruct (peek a x =? chr "p") eqn:P; cbn [negb]; [|reflexivity].
  assert (P' : peek a x <> 0).
  { apply Z.eqb_eq in P. rewrite P. vm_compute. discriminate. }
  apply peek_nonzero_range in P'.
  rewrite isdigit_peek_app by lia.
  destruct (isdigit (peek a (x + 1))) eqn:D2; cbn [negb]; [|reflexivity].
  apply Hd in D2.
  rewrite decimal_app_low, skip_digits_fwd_app_low by lia. reflexivity.
Qed.

Lemma parse_long_app e :
  0 <= e < Z.of_nat (List.length a) ->
  parse_long (a ++ r) e = parse_long a e.
Proof.
  intros He.
  pose proof (long_run_bounds (suffix a (e + 1))) as B.
  rewrite suffix_length in B by lia.
  unfold parse_long. rewrite suffix_app_low, long_run_app_stop by lia.
  destruct (long_run (suffix a (e + 1))) as [n err]. cbn [fst] in B.
  set (q := e + 1 + n) in *.
  destruct err; [reflexivity|].
  rewrite isdigit_peek_app by lia.
  destruct (negb (isdigit (peek a (q - 1)))); [reflexivity|].
  rewrite skip_digits_back_app_low by lia.
  pose proof (digit_run_bounds (before a q)) as By.
  assert (Hy : skip_digits_back a q < q) by (unfold skip_digits_back; lia).
  set (y := skip_digits_back a q) in *.
  rewrite is_p_peek_app, isdigit_peek_app, decimal_app_low by lia.
  destruct (negb ((peek a y =? chr "p") && isdigit (peek a (y - 1))));
    [reflexivity|].
  rewrite skip_digits_back_app_low by lia.
  pose proof (digit_run_bounds (before a y)) as Bz.
  assert (Hz : skip_digits_back a y < y) by (unfold skip_digits_back; lia).
  set (z := skip_digits_back a y) in *.
  rewrite decimal_app_low by lia. reflexivity.
Qed.

Lemma parse_switch_app e :
  0 <= e < Z.of_nat (List.length a) ->
  parse_switch (a ++ r) e = parse_switch a e.
Proof.
  intros He. unfold parse_switch. rewrite peek_app_low by lia.
  destruct (long_prefix (peek a e));
    [apply parse_long_app|apply parse_short_app]; assumption.
Qed.

Lemma apply_token_app e u :
  peek a e <> 0 ->
  apply_token (a ++ r) (parse_switch a e) u = apply_token a (parse_switch a e) u.
Proof.
  intros N. pose proof (peek_nonzero_range a e N) as He.
  pose proof (parse_switch_ext a e) as X.
  pose proof (parse_switch_ext_end a e N) as E.
  set (t := parse_switch a e) in *.
  unfold apply_token. rewrite X, peek_app_low by lia.
  replace (token_diags (a ++ r) t) with (token_diags a t); [reflexivity|].
  unfold token_diags. apply flat_map_ext. intros [name d].
  unfold MATCH_EXT. cbn [fst snd]. rewrite X.
  destruct (Z.eqb_spec (t_ext_end t - e) (Z.of_nat (List.length (chars name))))
    as [L|L]; [|reflexivity].
  rewrite memcmp_app_low by lia. reflexivity.
Qed.
End Agree.

Lemma scan_fuel_enough s e u f f' :
  0 <= e ->
  Z.of_nat (List.length s) - e <= Z.of_nat f ->
  Z.of_nat (List.length s) - e <= Z.of_nat f' ->
  scan_loop f s e u = scan_loop f' s e u.
Proof.
  intros He Hf Hf'.
  destruct (scan_loop_total f s e u He Hf) as [r Hr].
  destruct (scan_loop_total f' s e u He Hf') as [r' Hr'].
  rewrite Hr, Hr'. f_equal.
  pose proof (scan_loop_fuel_mono _ _ _ _ _ Hr (max f f') (Nat.le_max_l _ _)) as A.
  pose proof (scan_loop_fuel_mono _ _ _ _ _ Hr' (max f f') (Nat.le_max_r _ _)) as B.
  congruence.
Qed.

(** A '_' at the head of a string is passed over. *)
Lemma scan_all_delimiter b : forall u,
  scan_all (chr "_" :: b) u = scan_all b u.
Proof.
  unfold scan_all. induction b as [|c b IH]; intros u.
  - cbn [List.length]. rewrite scan_non_token by (discriminate || reflexivity).
    reflexivity.
  - cbn [List.length].
    rewrite scan_non_token by (discriminate || reflexivity). cbn [hd tl].
    destruct (c =? chr "_") eqn:E.
    + apply Z.eqb_eq in E. subst c.
      transitivity (scan_loop (List.length b) b 0 u);
        [apply scan_fuel_enough; lia|].
      rewrite <- IH. reflexivity.
    + reflexivity.
Qed.

Lemma scan_across a b :
  Forall (fun c => c <> 0) a ->
  forall f e u u',
    0 <= e <= Z.of_nat (List.length a) ->
    scan_loop f a e u = Some u' ->
    scan_loop (List.length (a ++ chr "_" :: b)) (a ++ chr "_" :: b) e u
    = scan_all b u'.
Proof.
  intros NZ.
  assert (R : hd 0 (chr "_" :: b) = 0 \/ hd 0 (chr "_" :: b) = chr "_")
    by (right; reflexivity).
  assert (NN : forall e, 0 <= e < Z.of_nat (List.length a) -> peek a e <> 0).
  { intros e He. unfold peek. destruct (e <? 0) eqn:E;
      [apply Z.ltb_lt in E; lia|].
    rewrite Forall_forall in NZ. apply NZ, nth_In. lia. }
  assert (END : forall u,
    scan_loop (List.length (a ++ chr "_" :: b)) (a ++ chr "_" :: b)
              (Z.of_nat (List.length a)) u = scan_all b u).
  { intros u. rewrite <- scan_all_delimiter. unfold scan_all.
    replace (Z.of_nat (List.length a)) with (Z.of_nat (List.length a) + 0)
      by lia.
    rewrite scan_loop_shift by lia.
    apply scan_fuel_enough; rewrite ?length_app; cbn [List.length]; lia. }
  induction f as [|f IH]; intros e u u' He H.
  - cbn [scan_loop] in H. destruct (Z.eqb_spec (peek a e) 0) as [Z0|]; [|discriminate].
    injection H as <-.
    destruct (Z.eq_dec e (Z.of_nat (List.length a))) as [->|Ne];
      [apply END|]. exfalso. apply (NN e); [lia|assumption].
  - cbn [scan_loop] in H. destruct (Z.eqb_spec (peek a e) 0) as [Z0|N].
    + injection H as <-.
      destruct (Z.eq_dec e (Z.of_nat (List.length a))) as [->|Ne];
        [apply END|]. exfalso. apply (NN e); [lia|assumption].
    + pose proof (peek_nonzero_range a e N) as Re.
      pose proof (parse_switch_isa a e N) as TI.
      pose proof (next_isa_bounds a e N) as NB.
      rewrite length_app. cbn [List.length].
      rewrite Nat.add_succ_r. cbn [scan_loop].
      rewrite (peek_app_low a (chr "_" :: b) e) by lia.
      destruct (Z.eqb_spec (peek a e) 0); [contradiction|].
      rewrite (parse_switch_app a (chr "_" :: b) R e) by lia.
      rewrite (apply_token_app a (chr "_" :: b) e u N).
      set (t := parse_switch a e) in *.
      set (u1 := apply_token a t u) in *.
      destruct (Z.eq_dec (t_isa t) (Z.of_nat (List.length a))) as [TE|TN].
      * assert (NA : next_isa a t = Z.of_nat (List.length a)).
        { unfold next_isa, body_end. rewrite TE, peek_end.
          replace (0 =? chr "_") with false by reflexivity. lia. }
        assert (NS : next_isa (a ++ chr "_" :: b) t
                     = Z.of_nat (List.length (a ++ [chr "_"])) + 0).
        { unfold next_isa, body_end. rewrite TE, peek_app_end. cbn [hd].
          rewrite Z.eqb_refl, length_app. cbn [List.length]. lia. }
        rewrite NA in H.
        assert (U : u' = u1).
        { destruct f; cbn [scan_loop] in H; rewrite peek_end in H;
            cbn [Z.eqb] in H; congruence. }
        subst u'. rewrite NS.
        replace (a ++ chr "_" :: b) with ((a ++ [chr "_"]) ++ b) by list_eq.
        rewrite scan_loop_shift by lia. unfold scan_all.
        apply scan_fuel_enough; lia.
      * assert (NS : next_isa (a ++ chr "_" :: b) t = next_isa a t).
        { unfold next_isa, body_end.
          rewrite (peek_app_low a (chr "_" :: b)) by lia. reflexivity. }
        rewrite NS. rewrite <- (IH (next_isa a t) u1 u' ltac:(lia) H).
        apply scan_fuel_enough; rewrite ?length_app; cbn [List.length]; lia.
Qed.

(** X14.  Scanning composes across a delimiter: for a string [a] without
    NUL, scanning [a], '_', [b] in one go gives what scanning [b] gives
    from the state in which the scan of [a] ends.  So what follows a '_'
    is parsed independently of what precedes it, and the parse of a
    prefixed string "a_b" is the scan of [b] started from the parse of the
    prefixed [a]. *)
Theorem X14_scan_composes_across_delimiter a b :
  Forall (fun c => c <> 0) a ->
  (forall u, exists u',
     scan_all a u = Some u' /\
     scan_all (a ++ chr "_" :: b) u = scan_all b u') /\
  (forall cfg, exists u',
     parse_chars cfg (chars (width_prefix cfg) ++ a) = Some u' /\
     parse_chars cfg (chars (width_prefix cfg) ++ a ++ chr "_" :: b)
     = scan_all b u').
Proof.
  intros NZ.
  assert (A : forall u, exists u',
     scan_all a u = Some u' /\
     scan_all (a ++ chr "_" :: b) u = scan_all b u').
  { intros u.
    destruct (scan_loop_total (List.length a) a 0 u) as [u' Hu']; [lia|lia|].
    exists u'. split; [exact Hu'|].
    apply (scan_across a b NZ (List.length a) 0 u u'); [lia|exact Hu']. }
  split; [exact A|]. intros cfg. rewrite !parse_chars_prefix. apply A.
Qed.

Lemma X14_witness :
  exists u',
    scan_all (chars "imac") unit_init = Some u' /\
    scan_all (chars "imac" ++ chr "_" :: chars "zba1p0_h") unit_init
    = scan_all (chars "zba1p0_h") u'.
Proof.
  apply (proj1 (X14_scan_composes_across_delimiter (chars "imac")
                  (chars "zba1p0_h") ltac:(repeat constructor; discriminate))).
Defined.

(** ** The order of the extensions *)

Lemma scan_words_add s f e u r r0 :
  scan_loop f s e u = Some r ->
  scan_loop f s e unit_init = Some r0 ->
  this_isa r = Z.lor (this_isa u) (this_isa r0) /\
  this_hwcap r = Z.lor (this_hwcap u) (this_hwcap r0).
Proof.
  intros H H0. apply scan_loop_tokens in H. apply scan_loop_tokens in H0.
  subst r r0. split; apply Z.bits_inj'; intros k _; rewrite Z.lor_spec;
    apply eq_iff_eq_true; rewrite orb_true_iff.
  - rewrite !run_isa_bit. cbn [unit_init this_isa]. rewrite Z.bits_0.
    split; [tauto|]. intros [H|[H|H]]; auto. discriminate.
  - rewrite !run_hwcap_bit. cbn [unit_init this_hwcap]. rewrite Z.bits_0.
    split; [tauto|]. intros [H|[H|H]]; auto. discriminate.
Qed.

Lemma scan_all_total s u : exists r, scan_all s u = Some r.
Proof. apply scan_loop_total; lia. Qed.

Lemma scan_joined_words a b :
  Forall (fun c => c <> 0) a ->
  exists ra rb r,
    scan_all a unit_init = Some ra /\
    scan_all b unit_init = Some rb /\
    scan_all (a ++ chr "_" :: b) unit_init = Some r /\
    this_isa r = Z.lor (this_isa ra) (this_isa rb) /\
    this_hwcap r = Z.lor (this_hwcap ra) (this_hwcap rb).
Proof.
  intros NZ.
  destruct (scan_all_total a unit_init) as [ra Ha].
  destruct (scan_all_total b unit_init) as [rb Hb].
  destruct (scan_all_total b ra) as [r Hr].
  exists ra, rb, r. split; [exact Ha|]. split; [exact Hb|]. split.
  - unfold scan_all at 1.
    rewrite (scan_across a b NZ (List.length a) 0 unit_init ra); [exact Hr|lia|].
    exact Ha.
  - apply (scan_words_add b _ 0 ra r rb Hr Hb).
Qed.

(** X15.  The two words of a hart do not depend on the order in which its
    extensions are listed, nor on an extension being listed twice: for
    strings [a] and [b] without NUL, "a_b" and "b_a" give the same ISA word
    and the same capability mask, namely the bitwise OR of the words of [a]
    and of [b], and "a_a" gives the words of [a]. *)
Theorem X15_order_of_extensions a b :
  Forall (fun c => c <> 0) a -> Forall (fun c => c <> 0) b ->
  exists ra rb rab rba raa,
    scan_all a unit_init = Some ra /\
    scan_all b unit_init = Some rb /\
    scan_all (a ++ chr "_" :: b) unit_init = Some rab /\
    scan_all (b ++ chr "_" :: a) unit_init = Some rba /\
    scan_all (a ++ chr "_" :: a) unit_init = Some raa /\
    this_isa rab = Z.lor (this_isa ra) (this_isa rb) /\
    this_hwcap rab = Z.lor (this_hwcap ra) (this_hwcap rb) /\
    this_isa rba = this_isa rab /\ this_hwcap rba = this_hwcap rab /\
    this_isa raa = this_isa ra /\ this_hwcap raa = this_hwcap ra.
Proof.
  intros Na Nb.
  destruct (scan_joined_words a b Na) as (ra & rb & rab & Ha & Hb & Hab & I1 & W1).
  destruct (scan_joined_words b a Nb) as (rb' & ra' & rba & Hb' & Ha' & Hba & I2 & W2).
  destruct (scan_joined_words a a Na) as (ra1 & ra2 & raa & Ha1 & Ha2 & Haa & I3 & W3).
  assert (ra' = ra) by congruence. assert (rb' = rb) by congruence.
  assert (ra1 = ra) by congruence. assert (ra2 = ra) by congruence. subst.
  exists ra, rb, rab, rba, raa.
  repeat (split; [assumption|]).
  rewrite I1, W1, I2, W2, I3, W3, !Z.lor_diag.
  repeat split; apply Z.lor_comm.
Qed.

Lemma X15_witness :
  exists rab rba,
    scan_all (chars "imac" ++ chr "_" :: chars "zba_fd") unit_init = Some rab /\
    scan_all (chars "zba_fd" ++ chr "_" :: chars "imac") unit_init = Some rba /\
    this_isa rba = this_isa rab /\ this_hwcap rba = this_hwcap rab.
Proof.
  destruct (X15_order_of_extensions (chars "imac") (chars "zba_fd"))
    as (ra & rb & rab & rba & raa & _ & _ & Hab & Hba & _ & _ & _ & I & W & _).
  - repeat constructor; discriminate.
  - repeat constructor; discriminate.
  - exists rab, rba. repeat split; assumption.
Defined.
